(** * EnvGuard: a shallow embedding of the parser, the encryption codec,
      the file store, the type validator, the Swagger generator, the
      filter of the environment by the keys of a file, and the template
      and the file reader of the command line

    JavaScript strings are sequences of UTF-16 code units; they are embedded
    as [list N].  Objects used as string-keyed records are embedded by their
    own properties, as [gmap (list N) _].  A function that may throw returns
    a [result].  What the code asks of Node and of the language runtime
    (the cipher, key derivation, rounding of numeric literals, Unicode case
    mapping) is a parameter, with the contract that the proofs use; UTF-8
    and hexadecimal transcoding of buffers are embedded in full.  The files
    that [FileManager] writes and [EnvParser.loadFile] reads are on a disk
    that maps a path to the bytes of the file; text is written and read as
    UTF-8.

    The first part holds the embedding, class by class; the second part
    holds the properties. *)

From Stdlib Require Import ZArith NArith QArith Lia.
From Stdlib Require Import Strings.String Strings.Ascii Strings.Byte.
From stdpp Require Import gmap list sorting.

Local Open Scope N_scope.
Local Open Scope Z_scope.
Local Open Scope nat_scope.
Local Open Scope list_scope.

(** ** JavaScript strings *)

Module JS.


(** A string literal of the source, one code unit per ASCII character. *)
Definition js (s : string) : list N :=
  (λ a, N_of_ascii a) <$> list_ascii_of_string s.

Definition LF : list N := [10%N].
Definition BACKSLASH : list N := [92%N].
Definition DQUOTE : list N := [34%N].
Definition SQUOTE : list N := [39%N].

(** ECMAScript LineTerminator: LF, CR, LS, PS. *)
Definition isLineTerminator (c : N) : bool :=
  (c =? 0x0A)%N || (c =? 0x0D)%N || (c =? 0x2028)%N || (c =? 0x2029)%N.

(** ECMAScript WhiteSpace: TAB, VT, FF, ZWNBSP and the code points of
    category Zs. *)
Definition isWhiteSpace (c : N) : bool :=
  (c =? 0x09)%N || (c =? 0x0B)%N || (c =? 0x0C)%N || (c =? 0x20)%N ||
  (c =? 0xA0)%N || (c =? 0x1680)%N ||
  ((0x2000 <=? c)%N && (c <=? 0x200A)%N) ||
  (c =? 0x202F)%N || (c =? 0x205F)%N || (c =? 0x3000)%N || (c =? 0xFEFF)%N.

(** What [String.prototype.trim] and [StringToNumber] strip. *)
Definition isStrWhiteSpaceChar (c : N) : bool :=
  isWhiteSpace c || isLineTerminator c.

Fixpoint trimStart (s : list N) : list N :=
  match s with
  | c :: s' => if isStrWhiteSpaceChar c then trimStart s' else s
  | [] => []
  end.

Definition trimEnd (s : list N) : list N := reverse (trimStart (reverse s)).

Definition trim (s : list N) : list N := trimEnd (trimStart s).

(** [s.startsWith(p)] *)
Fixpoint startsWith (s p : list N) {struct p} : bool :=
  match p with
  | [] => true
  | a :: p' =>
      match s with
      | b :: s' => (a =? b)%N && startsWith s' p'
      | [] => false
      end
  end.

(** [s.endsWith(p)] *)
Definition endsWith (s p : list N) : bool :=
  startsWith (reverse s) (reverse p).

(** [s.indexOf(p)]: the least position at which [p] occurs, or -1. *)
Fixpoint indexOf_from (i : nat) (s p : list N) : Z :=
  if startsWith s p then Z.of_nat i
  else match s with
       | [] => (-1)%Z
       | _ :: s' => indexOf_from (S i) s' p
       end.

Definition indexOf (s p : list N) : Z := indexOf_from 0 s p.

(** [s.includes(p)] *)
Definition includes (s p : list N) : bool := (0 <=? indexOf s p)%Z.

(** Clamping of an index argument into [0, len]. *)
Definition clamp (len : nat) (k : Z) : nat := Nat.min (Z.to_nat k) len.

(** [s.substring(a, b)]: both ends clamped, swapped when out of order. *)
Definition substring (s : list N) (a b : Z) : list N :=
  let a' := clamp (length s) a in
  let b' := clamp (length s) b in
  take (Nat.max a' b' - Nat.min a' b') (drop (Nat.min a' b') s).

(** [s.substring(a)] *)
Definition substring_from (s : list N) (a : Z) : list N :=
  drop (clamp (length s) a) s.

(** A relative index of [slice]: negative values count from the end. *)
Definition relative (len : nat) (k : Z) : nat :=
  if (k <? 0)%Z then Z.to_nat (Z.max (Z.of_nat len + k) 0) else clamp len k.

(** [s.slice(a, b)] *)
Definition slice (s : list N) (a b : Z) : list N :=
  let from := relative (length s) a in
  let to := relative (length s) b in
  take (to - from) (drop from s).

(** [s.split(sep)] for a separator of one code unit: never empty. *)
Fixpoint split (s : list N) (sep : N) : list (list N) :=
  match s with
  | [] => [[]]
  | c :: s' =>
      if (c =? sep)%N then [] :: split s' sep
      else match split s' sep with
           | piece :: pieces => (c :: piece) :: pieces
           | [] => [[c]]
           end
  end.

(** [lines.join('\n')] *)
Fixpoint joinLF (lines : list (list N)) : list N :=
  match lines with
  | [] => []
  | l :: rest =>
      match rest with
      | [] => l
      | _ :: _ => l ++ LF ++ joinLF rest
      end
  end.

(** [o[key] = value] on a plain object, seen through its own properties.
    The key [__proto__] names the accessor inherited from
    [Object.prototype]: assigning to it creates no property. *)
Definition setProperty {A : Type} (o : gmap (list N) A) (key : list N)
    (value : A) : gmap (list N) A :=
  if bool_decide (key = js "__proto__") then o else <[key := value]> o.

(** The outcome of a call that may throw [new Error(message)]. *)
Inductive result (A : Type) : Type :=
| Ok (value : A)
| Throw (message : list N).
Arguments Ok {A} value.
Arguments Throw {A} message.

End JS.
Import JS.

(** ** Buffers: hexadecimal and UTF-8 transcoding *)

Module Buffer.

#[export] Instance byte_eq_dec : EqDecision byte := Byte.byte_eq_dec.

(** The byte of the low eight bits of [n]. *)
Definition byteN (n : N) : byte :=
  match Byte.of_N (N.land n 0xFF) with
  | Some b => b
  | None => "000"%byte
  end.

Definition hexDigit (n : N) : N :=
  if (n <? 10)%N then (48 + n)%N else (87 + n)%N.

(** [buf.toString('hex')]: two lowercase digits per byte. *)
Definition toHex (buf : list byte) : list N :=
  buf ≫= λ b, [hexDigit (N.shiftr (Byte.to_N b) 4);
               hexDigit (N.land (Byte.to_N b) 0xF)].

Definition isHexDigit (c : N) : bool :=
  ((48 <=? c) && (c <=? 57) || (97 <=? c) && (c <=? 102))%N.

Definition hexValue (c : N) : option N :=
  if ((48 <=? c) && (c <=? 57))%N then Some (c - 48)%N
  else if ((97 <=? c) && (c <=? 102))%N then Some (c - 87)%N
  else if ((65 <=? c) && (c <=? 70))%N then Some (c - 55)%N
  else None.

(** [Buffer.from(s, 'hex')]: pairs of digits are decoded up to the first
    pair that is not hexadecimal; a trailing single character is dropped. *)
Fixpoint fromHex (s : list N) : list byte :=
  match s with
  | a :: b :: s' =>
      match hexValue a, hexValue b with
      | Some x, Some y => byteN (16 * x + y) :: fromHex s'
      | _, _ => []
      end
  | _ => []
  end.

Definition isHighSurrogate (u : N) : bool :=
  ((0xD800 <=? u) && (u <=? 0xDBFF))%N.

Definition isLowSurrogate (u : N) : bool :=
  ((0xDC00 <=? u) && (u <=? 0xDFFF))%N.

(** A string in which every surrogate code unit is paired. *)
Fixpoint well_formed (s : list N) : bool :=
  match s with
  | [] => true
  | u :: s' =>
      if isHighSurrogate u then
        match s' with
        | v :: s'' => isLowSurrogate v && well_formed s''
        | [] => false
        end
      else negb (isLowSurrogate u) && (u <? 0x10000)%N && well_formed s'
  end.

Definition utf8_of_code_point (cp : N) : list byte :=
  let cont (n : N) : byte := byteN (N.lor 0x80 (N.land n 0x3F)) in
  if (cp <? 0x80)%N then [byteN cp]
  else if (cp <? 0x800)%N then
    [byteN (N.lor 0xC0 (N.shiftr cp 6)); cont cp]
  else if (cp <? 0x10000)%N then
    [byteN (N.lor 0xE0 (N.shiftr cp 12)); cont (N.shiftr cp 6); cont cp]
  else
    [byteN (N.lor 0xF0 (N.shiftr cp 18)); cont (N.shiftr cp 12);
     cont (N.shiftr cp 6); cont cp].

Definition REPLACEMENT : N := 0xFFFD%N.

(** [Buffer.from(s, 'utf8')]: a surrogate pair is one code point; an
    unpaired surrogate is written as U+FFFD. *)
Fixpoint utf8_encode (s : list N) : list byte :=
  match s with
  | [] => []
  | u :: s' =>
      if isHighSurrogate u then
        match s' with
        | v :: s'' =>
            if isLowSurrogate v then
              utf8_of_code_point
                (0x10000 + N.shiftl (u - 0xD800) 10 + (v - 0xDC00))%N
                ++ utf8_encode s''
            else utf8_of_code_point REPLACEMENT ++ utf8_encode s'
        | [] => utf8_of_code_point REPLACEMENT
        end
      else if isLowSurrogate u then
        utf8_of_code_point REPLACEMENT ++ utf8_encode s'
      else utf8_of_code_point u ++ utf8_encode s'
  end.

Definition code_units_of (cp : N) : list N :=
  if (cp <? 0x10000)%N then [cp]
  else [(0xD800 + N.shiftr (cp - 0x10000) 10)%N;
        (0xDC00 + N.land (cp - 0x10000) 0x3FF)%N].

(** The state of the UTF-8 decoder: the code point under construction, the
    number of continuation bytes still needed and the bounds on the next
    byte. *)
Record decoder : Type := {
  code_point : N;
  needed : N;
  lower : N;
  upper : N
}.

#[export] Instance decoder_eq_dec : EqDecision decoder.
Proof. solve_decision. Defined.

Definition idle : decoder :=
  {| code_point := 0; needed := 0; lower := 0x80; upper := 0xBF |}.

(** A byte met while no sequence is open. *)
Definition decode_lead (b : N) : list N * decoder :=
  if (b <=? 0x7F)%N then ([b], idle)
  else if ((0xC2 <=? b) && (b <=? 0xDF))%N then
    ([], {| code_point := N.land b 0x1F; needed := 1;
            lower := 0x80; upper := 0xBF |})
  else if ((0xE0 <=? b) && (b <=? 0xEF))%N then
    ([], {| code_point := N.land b 0xF; needed := 2;
            lower := if (b =? 0xE0)%N then 0xA0 else 0x80;
            upper := if (b =? 0xED)%N then 0x9F else 0xBF |})
  else if ((0xF0 <=? b) && (b <=? 0xF4))%N then
    ([], {| code_point := N.land b 0x7; needed := 3;
            lower := if (b =? 0xF0)%N then 0x90 else 0x80;
            upper := if (b =? 0xF4)%N then 0x8F else 0xBF |})
  else ([REPLACEMENT], idle).

(** One byte of input. *)
Definition decode_byte (st : decoder) (b : N) : list N * decoder :=
  if (needed st =? 0)%N then decode_lead b
  else if ((lower st <=? b) && (b <=? upper st))%N then
    let cp := N.lor (N.shiftl (code_point st) 6) (N.land b 0x3F) in
    if (needed st =? 1)%N then (code_units_of cp, idle)
    else ([], {| code_point := cp; needed := needed st - 1;
                 lower := 0x80; upper := 0xBF |})
  else
    let '(out, st') := decode_lead b in (REPLACEMENT :: out, st').

Fixpoint decode_bytes (st : decoder) (buf : list byte) : list N * decoder :=
  match buf with
  | [] => ([], st)
  | b :: buf' =>
      let '(out, st') := decode_byte st (Byte.to_N b) in
      let '(out', st'') := decode_bytes st' buf' in
      (out ++ out', st'')
  end.

(** [buf.toString('utf8')]: ill-formed input is replaced by U+FFFD, one
    for each maximal ill-formed part. *)
Definition utf8_decode (buf : list byte) : list N :=
  let '(out, st) := decode_bytes idle buf in
  if (needed st =? 0)%N then out else out ++ [REPLACEMENT].

(** Bounded universal quantification, by iteration. *)
Definition all_below (n : N) (P : N → bool) : bool :=
  (N.iter n (λ '(i, ok), (N.succ i, ok && P i)) (0%N, true)).2.

Fixpoint code_units_eqb (s t : list N) : bool :=
  match s, t with
  | [], [] => true
  | a :: s', b :: t' => (a =? b)%N && code_units_eqb s' t'
  | _, _ => false
  end.

(** The code point [cp] survives encoding followed by decoding, and the
    decoder is left idle. *)
Definition transcodes (cp : N) : bool :=
  let '(out, st) := decode_bytes idle (utf8_of_code_point cp) in
  code_units_eqb out (code_units_of cp) &&
  (code_point st =? 0)%N && (needed st =? 0)%N &&
  (lower st =? 0x80)%N && (upper st =? 0xBF)%N.

Definition isSurrogate (cp : N) : bool :=
  isHighSurrogate cp || isLowSurrogate cp.

(** The bytes that precede the last one in the encoding of a code point
    above U+007F, from the code point shifted right by six bits. *)
Definition lead_bytes (hi : N) : list byte :=
  let cont (n : N) : byte := byteN (N.lor 0x80 (N.land n 0x3F)) in
  if (hi <? 0x20)%N then [byteN (N.lor 0xC0 hi)]
  else if (hi <? 0x400)%N then [byteN (N.lor 0xE0 (N.shiftr hi 6)); cont hi]
  else [byteN (N.lor 0xF0 (N.shiftr hi 12)); cont (N.shiftr hi 6); cont hi].

(** After [lead_bytes hi] the decoder holds [hi] and waits for one byte. *)
Definition opens (hi : N) : bool :=
  let '(out, st) := decode_bytes idle (lead_bytes hi) in
  code_units_eqb out [] && (code_point st =? hi)%N && (needed st =? 1)%N &&
  (lower st =? 0x80)%N && (upper st =? 0xBF)%N.

(** A continuation byte carries its six bits. *)
Definition carries (lo : N) : bool :=
  (Byte.to_N (byteN (N.lor 0x80 lo)) =? 0x80 + lo)%N &&
  (N.land (0x80 + lo) 0x3F =? lo)%N.

End Buffer.

(** ** EnvParser *)

Module EnvParser.

(** The body of [while (value.endsWith('\\') && i < lines.length - 1)]:
    returns the final [i] and [value]. *)
Fixpoint multiline (lines : list (list N)) (fuel : nat) (i : nat)
    (value : list N) : nat * list N :=
  match fuel with
  | 0 => (i, value)
  | S fuel' =>
      if endsWith value BACKSLASH && (i <? length lines - 1) then
        let value := slice value 0 (-1) in
        let i := i + 1 in
        let nextLine := trim (lines !!! i) in
        multiline lines fuel' i (value ++ LF ++ nextLine)
      else (i, value)
  end.

(** Quote removal of [parse]. *)
Definition unquote (value : list N) : list N :=
  if (startsWith value DQUOTE && endsWith value DQUOTE) ||
     (startsWith value SQUOTE && endsWith value SQUOTE)
  then slice value 1 (-1) else value.

(** The [for (let i = 0; i < lines.length; i++)] loop of [parse], started
    at index [i] with the object [result] built so far. *)
Fixpoint parse_loop (lines : list (list N)) (fuel : nat) (i : nat)
    (result : gmap (list N) (list N)) : gmap (list N) (list N) :=
  match fuel with
  | 0 => result
  | S fuel' =>
      if i <? length lines then
        let line := trim (lines !!! i) in
        if bool_decide (line = []) || startsWith line (js "#") then
          parse_loop lines fuel' (i + 1) result
        else if includes line (js "=") then
          let equalIndex := indexOf line (js "=") in
          let key := trim (substring line 0 equalIndex) in
          let value := trim (substring_from line (equalIndex + 1)) in
          let value := unquote value in
          let '(i, value) := multiline lines (length lines) i value in
          parse_loop lines fuel' (i + 1) (setProperty result key value)
        else parse_loop lines fuel' (i + 1) result
      else result
  end.

(** [EnvParser.parse(content)] *)
Definition parse (content : list N) : gmap (list N) (list N) :=
  let lines := split content 10%N in
  parse_loop lines (length lines) 0 ∅.

(** *** The loop seen line by line

    The definitions below describe the same traversal over the list of
    lines that remain to be read; [parse_loop_assignments] relates them to
    the loop. *)

(** [parse] applied to a file whose lines are [lines], started with the
    object [result]. *)
Definition parse_lines (lines : list (list N))
    (result : gmap (list N) (list N)) : gmap (list N) (list N) :=
  parse_loop lines (length lines) 0 result.

(** A line read on its own: the key and the value written after the first
    [=], quotes removed; [None] for a blank line, a comment and a line
    without [=]. *)
Definition read_line (l : list N) : option (list N * list N) :=
  let line := trim l in
  if bool_decide (line = []) || startsWith line (js "#") then None
  else if includes line (js "=") then
    let equalIndex := indexOf line (js "=") in
    Some (trim (substring line 0 equalIndex),
          unquote (trim (substring_from line (equalIndex + 1))))
  else None.

(** Joining of a value with the lines that follow it: the number of lines
    consumed and the joined value. *)
Fixpoint join_lines (value : list N) (rest : list (list N))
    : nat * list N :=
  match rest with
  | next :: rest' =>
      if endsWith value BACKSLASH then
        let '(n, w) := join_lines (slice value 0 (-1) ++ LF ++ trim next) rest'
        in (S n, w)
      else (0, value)
  | [] => (0, value)
  end.

(** The assignments [result[key] = value] that the loop performs, in order;
    [skip] counts the lines already consumed by a joined value. *)
Fixpoint assignments_from (skip : nat) (lines : list (list N))
    : list (list N * list N) :=
  match lines with
  | [] => []
  | l :: rest =>
      match skip with
      | S n => assignments_from n rest
      | 0 =>
          match read_line l with
          | Some (key, value) =>
              let '(n, w) := join_lines value rest in
              (key, w) :: assignments_from n rest
          | None => assignments_from 0 rest
          end
      end
  end.

Definition assignments (lines : list (list N)) : list (list N * list N) :=
  assignments_from 0 lines.

(** The object after the assignments [bs] have been performed on
    [result], first to last. *)
Definition assign_all (result : gmap (list N) (list N))
    (bs : list (list N * list N)) : gmap (list N) (list N) :=
  foldl (λ m kv, setProperty m kv.1 kv.2) result bs.

(** The value of the last assignment to [key] in a sequence of them. *)
Fixpoint last_assigned (key : list N) (bs : list (list N * list N))
    : option (list N) :=
  match bs with
  | [] => None
  | (k, v) :: bs' =>
      match last_assigned key bs' with
      | Some w => Some w
      | None => if decide (k = key) then Some v else None
      end
  end.

(** The value that the last line of the form [key=value] gives to [key],
    each line read on its own. *)
Definition last_line_value (key : list N) (lines : list (list N))
    : option (list N) :=
  last_assigned key (omap read_line lines).

(** [EnvParser.loadFile(filePath)], on a disk that maps each existing path
    to the bytes of the file: an absent file reads as the empty object, and
    the bytes of a file are read as UTF-8. *)
Definition loadFile (disk : gmap (list N) (list byte)) (filePath : list N)
    : gmap (list N) (list N) :=
  match disk !! filePath with
  | None => ∅
  | Some bytes => parse (Buffer.utf8_decode bytes)
  end.

End EnvParser.

(** ** EncryptionManager *)

Module EncryptionManager.
Import Buffer.

(** The primitives of the [crypto] module that the class calls:
    [scryptSync(password, 'salt', 32)], and [createCipheriv] /
    [createDecipheriv] for aes-256-gcm.  The cipher goes from the key, the
    initialization vector and the data to the ciphertext and the
    authentication tag.  The decipher is given the key, the initialization
    vector, the tag and the ciphertext as the text handed to
    [decipher.update(text, 'hex', 'utf8')], which it decodes itself; it
    throws when it does not accept the vector, the tag or that text, or
    when the tag does not verify. *)
Class Crypto : Type := {
  scryptSync : list N → list byte;
  cipher : list byte → list byte → list byte → list byte * list byte;
  decipher : list byte → list byte → list byte → list N
             → result (list byte)
}.

(** What the class relies on: the derived key has the requested length, and
    the decipher inverts the cipher under the same key, a 16-byte
    initialization vector and the tag that the cipher produced, when it is
    given the ciphertext in hexadecimal digits. *)
Class CryptoLaws (C : Crypto) : Prop := {
  scryptSync_length : ∀ password, length (scryptSync password) = 32;
  decipher_cipher : ∀ key iv data encrypted authTag,
    length key = 32 → length iv = 16 →
    cipher key iv data = (encrypted, authTag) →
    decipher key iv authTag (toHex encrypted) = Ok data
}.

Section Manager.
Context {C : Crypto}.

Record EncryptionManager : Type := {
  algorithm : list N;
  key : list byte
}.

(** [new EncryptionManager(encryptionKey)] *)
Definition new (encryptionKey : list N) : result EncryptionManager :=
  if bool_decide (encryptionKey = []) then
    Throw (js "Encryption key is required")
  else Ok {| algorithm := js "aes-256-gcm"; key := scryptSync encryptionKey |}.

(** [encrypt(text)], where [iv] is the value of [crypto.randomBytes(16)]
    drawn by the call. *)
Definition encrypt (this : EncryptionManager) (iv : list byte)
    (text : list N) : list N :=
  let '(encrypted, authTag) := cipher (key this) iv (utf8_encode text) in
  toHex iv ++ js ":" ++ toHex authTag ++ js ":" ++ toHex encrypted.

(** [decrypt(encrypted)] *)
Definition decrypt (this : EncryptionManager) (encrypted : list N)
    : result (list N) :=
  let parts := split encrypted 58 in
  if negb (length parts =? 3) then Throw (js "Invalid encrypted format")
  else
    let ivHex := parts !!! 0 in
    let authTagHex := parts !!! 1 in
    let encryptedText := parts !!! 2 in
    let iv := fromHex ivHex in
    let authTag := fromHex authTagHex in
    match decipher (key this) iv authTag encryptedText with
    | Ok decrypted => Ok (utf8_decode decrypted)
    | Throw message => Throw message
    end.

End Manager.

(** A small instance of the primitives, for running the class: the key is
    the password cut or padded to 32 bytes, the ciphertext is the data
    reversed, and the tag is the first 16 bytes of the key followed by the
    initialization vector.  Its decipher accepts a text made of pairs of
    hexadecimal digits. *)
Definition pad (n : nat) (buf : list byte) : list byte :=
  take n (buf ++ replicate n "000"%byte).

Definition tag_of (key iv : list byte) : list byte := take 16 key ++ iv.

Definition isHexText (text : list N) : bool :=
  Nat.even (length text) &&
  forallb (λ c, bool_decide (is_Some (hexValue c))) text.

#[export] Instance reversing_crypto : Crypto := {|
  scryptSync password := pad 32 (byteN <$> password);
  cipher key iv data := (reverse data, tag_of key iv);
  decipher key iv authTag text :=
    if negb (isHexText text) then Throw (js "Invalid hexadecimal text")
    else if bool_decide (authTag = tag_of key iv)
    then Ok (reverse (fromHex text))
    else Throw (js "Unsupported state or unable to authenticate data")
|}.

End EncryptionManager.

(** ** FileManager *)

Module FileManager.

(** The characters with a meaning of their own in a pattern. *)
Definition isSyntaxCharacter (c : N) : bool :=
  bool_decide (c ∈ js "^$\.*+?()[]{}|").

(** [new RegExp(`^${key}=.*$`, 'm')].  The key is spliced into the source
    of the pattern as it is.  The embedding covers the keys without syntax
    character, for which the pattern reads: at the start of a line, the text
    [key=], then the rest of the line.  Such a pattern is represented by the
    text [key=]; for the other keys the result is [None]. *)
Definition RegExp_line (key : list N) : option (list N) :=
  if forallb (λ c, negb (isSyntaxCharacter c)) key
  then Some (key ++ js "=") else None.

(** The longest run matched by [.*]: up to the next line terminator. *)
Fixpoint rest_of_line (s : list N) : list N * list N :=
  match s with
  | [] => ([], [])
  | c :: s' =>
      if isLineTerminator c then ([], s)
      else let '(run, after) := rest_of_line s' in (c :: run, after)
  end.

(** A match that starts at the head of [s]: the matched text and what
    follows it.  The run of [.*] always ends where [$] holds. *)
Definition match_here (prefix s : list N) : option (list N * list N) :=
  if startsWith s prefix then
    let '(run, after) := rest_of_line (drop (length prefix) s) in
    Some (prefix ++ run, after)
  else None.

(** The leftmost match: the text before it, the matched text and the text
    after it.  [atLineStart] tells whether [^] holds at the head of [s]. *)
Fixpoint exec_from (prefix : list N) (atLineStart : bool) (s : list N)
    : option (list N * list N * list N) :=
  match (if atLineStart then match_here prefix s else None) with
  | Some (matched, after) => Some ([], matched, after)
  | None =>
      match s with
      | [] => None
      | c :: s' =>
          match exec_from prefix (isLineTerminator c) s' with
          | Some (before, matched, after) => Some (c :: before, matched, after)
          | None => None
          end
      end
  end.

Definition exec (prefix content : list N)
    : option (list N * list N * list N) :=
  exec_from prefix true content.

(** [regex.test(content)] *)
Definition test (prefix content : list N) : bool :=
  bool_decide (is_Some (exec prefix content)).

(** The expansion of a replacement text for a pattern without groups:
    [$$] is a dollar sign, [$&] the matched text, [$`] the text before
    the match and [$'] the text after it. *)
Fixpoint GetSubstitution (matched before after replacement : list N)
    : list N :=
  match replacement with
  | [] => []
  | c :: r =>
      if (c =? 36)%N then
        match r with
        | d :: r' =>
            if (d =? 36)%N then
              36%N :: GetSubstitution matched before after r'
            else if (d =? 38)%N then
              matched ++ GetSubstitution matched before after r'
            else if (d =? 96)%N then
              before ++ GetSubstitution matched before after r'
            else if (d =? 39)%N then
              after ++ GetSubstitution matched before after r'
            else c :: GetSubstitution matched before after r
        | [] => [c]
        end
      else c :: GetSubstitution matched before after r
  end.

(** [content.replace(regex, replacement)], the pattern not being global. *)
Definition replace (prefix content replacement : list N) : list N :=
  match exec prefix content with
  | Some (before, matched, after) =>
      before ++ GetSubstitution matched before after replacement ++ after
  | None => content
  end.

(** The text that [updateKey(key, value)] writes when the file holds
    [content]; [value] is the string form that the template literal gives
    to the value. *)
Definition updateKey_content (content key value : list N)
    : option (list N) :=
  match RegExp_line key with
  | Some regex =>
      Some (if test regex content
            then replace regex content (key ++ js "=" ++ value)
            else content ++ LF ++ key ++ js "=" ++ value)
  | None => None
  end.

Record FileManager : Type := { filePath : list N }.

(** [exists()], on a disk that maps each existing path to the bytes of the
    file. *)
Definition exists_ (this : FileManager) (disk : gmap (list N) (list byte))
    : bool :=
  bool_decide (is_Some (disk !! filePath this)).

(** [read()]: the bytes of the file, read as UTF-8. *)
Definition read (this : FileManager) (disk : gmap (list N) (list byte))
    : list N :=
  if exists_ this disk
  then Buffer.utf8_decode (default [] (disk !! filePath this))
  else [].

(** [write(content)]: the content is written as UTF-8; directories are not
    part of the disk. *)
Definition write (this : FileManager) (content : list N)
    (disk : gmap (list N) (list byte)) : gmap (list N) (list byte) :=
  <[filePath this := Buffer.utf8_encode content]> disk.

(** [updateKey(key, value)] *)
Definition updateKey (this : FileManager) (key value : list N)
    (disk : gmap (list N) (list byte)) : option (gmap (list N) (list byte)) :=
  let content := read this disk in
  match updateKey_content content key value with
  | Some content => Some (write this content disk)
  | None => None
  end.

End FileManager.

(** ** Values, numbers and the schema *)

Module Types.

(** A Number value: the finite ones by their exact value. *)
Inductive number : Type :=
| NaN
| Infinity (negative : bool)
| Finite (q : Q).

(** The primitive values that reach the validators. *)
Inductive jsvalue : Type :=
| VUndefined
| VNull
| VBoolean (b : bool)
| VNumber (n : number)
| VString (s : list N).

Inductive EnvType : Type :=
| TString | TNumber | TBoolean | TEnum | TUrl | TEmail | TPort | TJson.

(** [EnvFieldConfig]: the fields read by the functions embedded here; an
    optional field that is absent is [None]. *)
Record EnvFieldConfig : Type := {
  type : EnvType;
  required : option bool;
  default : option jsvalue;
  description : option (list N);
  example : option (list N);
  min : option number;
  max : option number;
  enum : option (list (list N));
  sensitive : option bool
}.

(** What the host provides: the Number value nearest to a mathematical
    value, the string form of a Number, and [String.prototype.toLowerCase]. *)
Class Host : Type := {
  RoundMV : Q → number;
  NumberToString : number → list N;
  toLowerCase : list N → list N
}.

Definition isNaN (n : number) : bool :=
  match n with NaN => true | _ => false end.

(** [a < b] on Numbers: false as soon as one of them is NaN. *)
Definition lt (a b : number) : bool :=
  match a, b with
  | NaN, _ | _, NaN => false
  | Infinity true, Infinity true => false
  | Infinity true, _ => true
  | _, Infinity true => false
  | Infinity false, _ => false
  | Finite _, Infinity false => true
  | Finite x, Finite y => negb (Qle_bool y x)
  end.

(** [a > b] *)
Definition gt (a b : number) : bool := lt b a.

Definition ofZ (z : Z) : number := Finite (inject_Z z).

Section Conversions.
Context {H : Host}.

Definition isDecimalDigit (c : N) : bool := ((48 <=? c) && (c <=? 57))%N.

(** The digits of [s] in base [base], most significant first. *)
Definition digitsIn (base : N) (s : list N) : bool :=
  forallb (λ c, match Buffer.hexValue c with
                | Some v => (v <? base)%N
                | None => false
                end) s.

Definition digitsValue (base : N) (s : list N) : N :=
  foldl (λ acc c, (base * acc + from_option id 0 (Buffer.hexValue c))%N) 0%N s.

Fixpoint span (p : N → bool) (s : list N) : list N * list N :=
  match s with
  | c :: s' =>
      if p c then let '(a, b) := span p s' in (c :: a, b) else ([], s)
  | [] => ([], [])
  end.

(** NonDecimalIntegerLiteral: the base and the digits after [0x], [0o] or
    [0b], in either case. *)
Definition radixPrefix (t : list N) : option (N * list N) :=
  match t with
  | zero :: p :: ds =>
      if negb (zero =? 48)%N then None
      else if (p =? 120)%N || (p =? 88)%N then Some (16%N, ds)
      else if (p =? 111)%N || (p =? 79)%N then Some (8%N, ds)
      else if (p =? 98)%N || (p =? 66)%N then Some (2%N, ds)
      else None
  | _ => None
  end.

(** ExponentPart, possibly absent: the exponent. *)
Definition ExponentPart (r : list N) : option Z :=
  match r with
  | [] => Some 0%Z
  | e :: r' =>
      if (e =? 101)%N || (e =? 69)%N then
        let '(negative, ds) :=
          match r' with
          | s :: ds' =>
              if (s =? 43)%N then (false, ds')
              else if (s =? 45)%N then (true, ds')
              else (false, r')
          | [] => (false, [])
          end in
        if bool_decide (ds = []) || negb (forallb isDecimalDigit ds) then None
        else
          let v := Z.of_N (digitsValue 10 ds) in
          Some (if negative then (- v)%Z else v)
      else None
  end.

(** StrUnsignedDecimalLiteral other than [Infinity]: its mathematical
    value. *)
Definition StrUnsignedDecimalLiteral (t : list N) : option Q :=
  let '(int, r1) := span isDecimalDigit t in
  let '(frac, r2) :=
    match r1 with
    | dot :: r =>
        if (dot =? 46)%N then span isDecimalDigit r else ([], r1)
    | [] => ([], r1)
    end in
  if bool_decide (int = []) && bool_decide (frac = []) then None
  else
    match ExponentPart r2 with
    | Some e =>
        Some (Qred (inject_Z (Z.of_N (digitsValue 10 (int ++ frac)))
                    * Qpower (10 # 1) (e - Z.of_nat (length frac))))
    | None => None
    end.

(** StrDecimalLiteral: an optional sign, then [Infinity] or an unsigned
    literal. *)
Definition StrDecimalLiteral (t : list N) : number :=
  let '(negative, u) :=
    match t with
    | s :: u' =>
        if (s =? 43)%N then (false, u')
        else if (s =? 45)%N then (true, u')
        else (false, t)
    | [] => (false, t)
    end in
  if bool_decide (u = js "Infinity") then Infinity negative
  else
    match StrUnsignedDecimalLiteral u with
    | Some mv => RoundMV (if negative then Qred (- mv) else mv)
    | None => NaN
    end.

(** StringToNumber: the empty string and white space are 0. *)
Definition StringToNumber (s : list N) : number :=
  let t := trim s in
  if bool_decide (t = []) then ofZ 0
  else
    match radixPrefix t with
    | Some (base, ds) =>
        if bool_decide (ds = []) || negb (digitsIn base ds) then NaN
        else RoundMV (inject_Z (Z.of_N (digitsValue base ds)))
    | None => StrDecimalLiteral t
    end.

(** [Number(value)] *)
Definition Number (value : jsvalue) : number :=
  match value with
  | VUndefined => NaN
  | VNull => ofZ 0
  | VBoolean b => ofZ (if b then 1 else 0)
  | VNumber n => n
  | VString s => StringToNumber s
  end.

(** [String(value)] *)
Definition String (value : jsvalue) : list N :=
  match value with
  | VUndefined => js "undefined"
  | VNull => js "null"
  | VBoolean b => if b then js "true" else js "false"
  | VNumber n => NumberToString n
  | VString s => s
  end.

End Conversions.

End Types.

(** ** TypeValidator *)

Module TypeValidator.
Import Types.

Section Validators.
Context {H : Host}.

(** [validateNumber(value, config)] *)
Definition validateNumber (value : jsvalue) (config : EnvFieldConfig)
    : result number :=
  let num := Number value in
  if isNaN num then Throw (js "Invalid number: " ++ String value)
  else
    let checkMax :=
      match max config with
      | Some M =>
          if gt num M
          then Throw (js "Number must be at most " ++ NumberToString M)
          else Ok num
      | None => Ok num
      end in
    match min config with
    | Some m =>
        if lt num m
        then Throw (js "Number must be at least " ++ NumberToString m)
        else checkMax
    | None => checkMax
    end.

(** [validateBoolean(value)] *)
Definition validateBoolean (value : jsvalue) : result bool :=
  match value with
  | VBoolean b => Ok b
  | _ =>
      let str := toLowerCase (String value) in
      if bool_decide (str = js "true") || bool_decide (str = js "1")
         || bool_decide (str = js "yes") then Ok true
      else if bool_decide (str = js "false") || bool_decide (str = js "0")
              || bool_decide (str = js "no") then Ok false
      else Throw (js "Invalid boolean value: " ++ String value)
  end.

(** [validatePort(value)] *)
Definition validatePort (value : jsvalue) : result number :=
  let num := Number value in
  if isNaN num || lt num (ofZ 1) || gt num (ofZ 65535)
  then Throw (js "Invalid port number: " ++ String value)
  else Ok num.

End Validators.

(** ASCII letters in lower case, the other code units unchanged. *)
Definition asciiLower (c : N) : N :=
  if ((65 <=? c) && (c <=? 90))%N then (c + 32)%N else c.

Definition isASCII (c : N) : bool := (c <? 128)%N.

(** Equality of two strings up to the case of ASCII letters. *)
Definition sameIgnoringCase (s t : list N) : Prop :=
  asciiLower <$> s = asciiLower <$> t.

(** A host for running the validators: exact values for Numbers, no string
    form for them, and a lower-casing that knows the ASCII letters and the
    two other characters whose lower case is, or starts with, an ASCII
    letter: the Kelvin sign and the dotted capital I. *)
#[export] Instance exact_host : Host := {|
  RoundMV q := Finite q;
  NumberToString n := [];
  toLowerCase s :=
    s ≫= λ c, if (c =? 0x212A)%N then [107%N]
              else if (c =? 0x130)%N then [105%N; 0x307%N]
              else [asciiLower c]
|}.

End TypeValidator.

(** ** EnvGuardSwagger *)

Module EnvGuardSwagger.
Import Types.

(** An entry of [properties]. *)
Record Property : Type := {
  p_type : list N;
  p_description : option (list N);
  p_example : option (list N);
  p_default : option jsvalue;
  p_enum : option (list (list N))
}.

(** [components.schemas.Environment] of the generated document. *)
Record Environment : Type := {
  env_type : list N;
  properties : gmap (list N) Property;
  required_names : list (list N)
}.

(** [mapType(envType)] *)
Definition mapType (envType : EnvType) : list N :=
  match envType with
  | TNumber | TPort => js "integer"
  | TBoolean => js "boolean"
  | TJson => js "object"
  | _ => js "string"
  end.

(** A field that is set and true. *)
Definition truthy (flag : option bool) : bool := from_option id false flag.

(** One turn of the loop over [Object.entries(schema)]. *)
Definition visit (acc : gmap (list N) Property * list (list N))
    (entry : list N * EnvFieldConfig)
    : gmap (list N) Property * list (list N) :=
  let '(props, req) := acc in
  let '(key, config) := entry in
  if truthy (sensitive config) then acc
  else
    let property := {|
      p_type := mapType (type config);
      p_description := description config;
      p_example := example config;
      p_default := default config;
      p_enum := enum config
    |} in
    (setProperty props key property,
     if truthy (required config) then req ++ [key] else req).

(** [generateSwaggerDoc(schema)], the schema given by its entries in
    order. *)
Definition generateSwaggerDoc (schema : list (list N * EnvFieldConfig))
    : Environment :=
  let '(props, req) := foldl visit (∅, []) schema in
  {| env_type := js "object"; properties := props; required_names := req |}.

End EnvGuardSwagger.

(** ** TypeValidator: e-mail addresses *)

Module Email.
Import Types.

(** The patterns that [emailRegex] is made of: a character class, taken
    once or one or more times. *)
Inductive quantifier : Type := Once | OneOrMore.

Definition term : Type := (N → bool) * quantifier.

(** [p+] followed by the rest of the pattern [k], the longest run tried
    first. *)
Fixpoint plus (p : N → bool) (k : list N → bool) (s : list N) : bool :=
  match s with
  | c :: s' => p c && (plus p k s' || k s')
  | [] => false
  end.

(** A pattern between [^] and [$], matched against the whole of [s]. *)
Fixpoint match_terms (pattern : list term) : list N → bool :=
  match pattern with
  | [] => λ s, bool_decide (s = [])
  | (p, Once) :: rest =>
      λ s, match s with
           | c :: s' => p c && match_terms rest s'
           | [] => false
           end
  | (p, OneOrMore) :: rest => plus p (match_terms rest)
  end.

(** [[^\s@]] *)
Definition notSpaceAt (c : N) : bool :=
  negb (isStrWhiteSpaceChar c || (c =? 64)%N).

Definition char (c : N) : N → bool := N.eqb c.

(** [/^[^\s@]+@[^\s@]+\.[^\s@]+$/] *)
Definition emailRegex : list term :=
  [(notSpaceAt, OneOrMore); (char 64, Once); (notSpaceAt, OneOrMore);
   (char 46, Once); (notSpaceAt, OneOrMore)].

Section Validators.
Context {H : Host}.

(** [validateEmail(value)] *)
Definition validateEmail (value : jsvalue) : result (list N) :=
  let str := String value in
  if negb (match_terms emailRegex str)
  then Throw (js "Invalid email: " ++ String value)
  else Ok str.

End Validators.

End Email.

(** ** parseDotenvFile *)

Module ParseDotenvFile.

(** An object whose own properties hold strings or [undefined]; [inherited]
    lists the names that its prototype chain defines, each with a value
    other than [undefined]. *)
Record object : Type := {
  own : gmap (list N) (option (list N));
  inherited : list (list N)
}.

(** What reading a property gives, when it is not [undefined]: a string of
    the object's own, or the member of the prototype chain of that name. *)
Inductive member : Type :=
| Text (s : list N)
| Inherited (name : list N).

(** [o[key]]; [None] is [undefined]. *)
Definition Get (o : object) (key : list N) : option member :=
  match own o !! key with
  | Some (Some s) => Some (Text s)
  | Some None => None
  | None =>
      if bool_decide (key ∈ inherited o) then Some (Inherited key) else None
  end.

(** [s.split(/\r?\n/)] *)
Fixpoint split_lines (s : list N) : list (list N) :=
  match s with
  | [] => [[]]
  | c :: s' =>
      if (c =? 10)%N then [] :: split_lines s'
      else if (c =? 13)%N && startsWith s' LF then split_lines s'
      else match split_lines s' with
           | piece :: pieces => (c :: piece) :: pieces
           | [] => [[c]]
           end
  end.

(** [set.add(key)], the elements in insertion order. *)
Definition add (set : list (list N)) (key : list N) : list (list N) :=
  if bool_decide (key ∈ set) then set else set ++ [key].

(** The key that one line contributes in the first loop. *)
Definition line_key (line : list N) : option (list N) :=
  let trimmed := trim line in
  if bool_decide (trimmed = []) || startsWith trimmed (js "#") then None
  else
    let key := hd [] (split trimmed 61) in
    if bool_decide (key = []) then None else Some (trim key).

(** The first loop: [envKeysFromFile]. *)
Definition envKeysFromFile (fileContent : list N) : list (list N) :=
  foldl (λ set line, match line_key line with
                     | Some key => add set key
                     | None => set
                     end) [] (split_lines fileContent).

(** [parseDotenvFile(envObject, envPath)] on a disk that maps each existing
    path to its content; the warning printed for a missing file is left
    out. *)
Definition parseDotenvFile (envObject : object) (envPath : list N)
    (disk : gmap (list N) (list N)) : gmap (list N) member :=
  match disk !! envPath with
  | None => ∅
  | Some fileContent =>
      foldl (λ filteredEnv key,
               match Get envObject key with
               | Some value => setProperty filteredEnv key value
               | None => filteredEnv
               end) ∅ (envKeysFromFile fileContent)
  end.

End ParseDotenvFile.

(** ** The command line: the template of an environment file *)

Module Template.
Import Types.

(** An object with its own properties in the order of their creation. *)
Definition object (A : Type) : Type := list (list N * A).

(** The own property of that name. *)
Fixpoint own {A : Type} (o : object A) (key : list N) : option A :=
  match o with
  | [] => None
  | (k, v) :: o' => if bool_decide (k = key) then Some v else own o' key
  end.



(** The order of two properties named by array indices. *)
Definition index_le {A : Type} (a b : list N * A) : Prop :=
  (digitsValue 10 a.1 ≤ digitsValue 10 b.1)%N.

#[export] Instance index_le_dec {A : Type} : RelDecision (@index_le A).
Proof. intros a b. unfold index_le. apply _. Defined.




Section Template.
Context {H : Host}.

(** [String.prototype.toUpperCase], and the names that an object literal
    inherits from [Object.prototype]. *)
Variable toUpperCase : list N → list N.
Variable inherited : list (list N).








End Template.

End Template.

(** ** The command line: reading an environment file *)

Module CLI.

(** *** Regular expressions, by their matchers

    A matcher takes the text left to match and a continuation, as in the
    language specification; it returns what the first successful path
    returns. *)

(** One character of the class [p]. *)
Definition one {R : Type} (p : N → bool) (k : list N → option R)
    (s : list N) : option R :=
  match s with
  | c :: s' => if p c then k s' else None
  | [] => None
  end.

(** [p*], greedy: the longest run is tried first. *)
Fixpoint star {R : Type} (p : N → bool) (k : list N → option R)
    (s : list N) : option R :=
  match s with
  | c :: s' =>
      if p c then
        match star p k s' with
        | Some r => Some r
        | None => k s
        end
      else k s
  | [] => k s
  end.

(** A capturing group around the matcher [m]: the continuation receives the
    text that [m] consumed. *)
Definition capture {R : Type}
    (m : (list N → option R) → list N → option R)
    (k : list N → list N → option R) (s : list N) : option R :=
  m (λ rest, k (take (length s - length rest) s) rest) s.

(** [$] without the [m] flag. *)
Definition at_end {R : Type} (r : R) (s : list N) : option R :=
  if bool_decide (s = []) then Some r else None.

(** The classes of the pattern, with the [i] flag: [[A-Z_]], [[A-Z0-9_]],
    [\s] and [.]. *)
Definition isNameStart (c : N) : bool :=
  ((65 <=? c) && (c <=? 90) || (97 <=? c) && (c <=? 122) || (c =? 95))%N.

Definition isNameChar (c : N) : bool :=
  isNameStart c || ((48 <=? c) && (c <=? 57))%N.

Definition isDot (c : N) : bool := negb (isLineTerminator c).

(** [trimmed.match(regex)] for the pattern [^(name)\s*=\s*(value)$] with the
    [i] flag, where [name] is [[A-Z_]] followed by [[A-Z0-9_]*] and [value]
    is [.*]: the two groups. *)
Definition match_assignment (trimmed : list N) : option (list N * list N) :=
  capture (λ k, one isNameStart (star isNameChar k))
    (λ key,
       star isStrWhiteSpaceChar
         (one (N.eqb 61)
            (star isStrWhiteSpaceChar
               (capture (star isDot) (λ value, at_end (key, value))))))
    trimmed.

Definition isQuote (c : N) : bool := (c =? 34)%N || (c =? 39)%N.

(** [value.replace(regex, '')] for the global pattern that matches a double
    or a single quote at the start of the value, or one at its end: every
    match, one character each, is removed.  [i] is the position of the first
    character of [s] in a value of length [len]. *)
Fixpoint remove_quotes (i len : nat) (s : list N) : list N :=
  match s with
  | [] => []
  | c :: s' =>
      if isQuote c && ((i =? 0) || (i =? len - 1))
      then remove_quotes (S i) len s'
      else c :: remove_quotes (S i) len s'
  end.

(** One turn of the loop of [parseEnvFile]: the assignment made for a
    line. *)
Definition line_assignment (line : list N) : option (list N * list N) :=
  let trimmed := trim line in
  if bool_decide (trimmed = []) || startsWith trimmed (js "#") then None
  else
    match match_assignment trimmed with
    | Some (key, value) =>
        Some (key, remove_quotes 0 (length value) value)
    | None => None
    end.


End CLI.

(** * Properties *)

(** ** JavaScript strings *)

Module JSFacts.

Lemma startsWith_app (p s : list N) : startsWith (p ++ s) p = true.
Proof.
  induction p as [|a p IH]; simpl; [done|].
  by rewrite N.eqb_refl, IH.
Qed.

Lemma startsWith_prefix (s p : list N) :
  startsWith s p = true ↔ ∃ t, s = p ++ t.
Proof.
  revert s. induction p as [|a p IH]; intros s; simpl.
  - split; [by exists s|done].
  - destruct s as [|b s].
    + split; [done|]. by intros [t Ht].
    + rewrite andb_true_iff, N.eqb_eq, IH. split.
      * intros [-> [t ->]]. eauto.
      * intros [t Ht]. simplify_eq. eauto.
Qed.

Lemma endsWith_suffix (s p : list N) :
  endsWith s p = true ↔ ∃ t, s = t ++ p.
Proof.
  unfold endsWith. rewrite startsWith_prefix. split.
  - intros [t Ht]. exists (reverse t).
    apply (inj reverse). by rewrite Ht, reverse_app, reverse_involutive.
  - intros [t ->]. exists (reverse t). by rewrite reverse_app.
Qed.

Lemma endsWith_app (s p : list N) : endsWith (s ++ p) p = true.
Proof. apply endsWith_suffix. eauto. Qed.

Lemma indexOf_from_first (i : nat) (k v : list N) (c : N) :
  c ∉ k → indexOf_from i (k ++ c :: v) [c] = Z.of_nat (i + length k).
Proof.
  revert i. induction k as [|a k IH]; intros i Hk; simpl.
  - rewrite N.eqb_refl. simpl. f_equal. lia.
  - apply not_elem_of_cons in Hk as [Hac Hk].
    destruct (N.eqb_spec c a) as [->|_]; [done|]. simpl.
    rewrite IH by done. f_equal. lia.
Qed.

Lemma indexOf_first (k v : list N) (c : N) :
  c ∉ k → indexOf (k ++ c :: v) [c] = Z.of_nat (length k).
Proof. intros. unfold indexOf. by rewrite indexOf_from_first. Qed.

Lemma includes_first (k v : list N) (c : N) :
  c ∉ k → includes (k ++ c :: v) [c] = true.
Proof.
  intros. unfold includes. rewrite indexOf_first by done.
  apply Z.leb_le. lia.
Qed.

Lemma indexOf_from_absent (i : nat) (s : list N) (c : N) :
  c ∉ s → indexOf_from i s [c] = (-1)%Z.
Proof.
  revert i. induction s as [|a s IH]; intros i Hs; [done|].
  apply not_elem_of_cons in Hs as [Hca Hs]. cbn [indexOf_from startsWith].
  destruct (N.eqb_spec c a) as [->|_]; [done|]. by apply IH.
Qed.

Lemma includes_absent (s : list N) (c : N) : c ∉ s → includes s [c] = false.
Proof.
  intros. unfold includes, indexOf. by rewrite indexOf_from_absent.
Qed.

Lemma substring_before (k v : list N) (c : N) :
  substring (k ++ c :: v) 0 (Z.of_nat (length k)) = k.
Proof.
  unfold substring, clamp. rewrite length_app, Nat2Z.id. cbn [length Z.to_nat].
  replace (Nat.min (length k) _) with (length k) by lia.
  replace (Nat.min 0 _) with 0 by lia.
  replace (Nat.max 0 _ - 0) with (length k) by lia.
  cbn [skipn]; rewrite ?drop_0. by rewrite take_app_length.
Qed.

Lemma substring_after (k v : list N) (c : N) :
  substring_from (k ++ c :: v) (Z.of_nat (length k) + 1) = v.
Proof.
  unfold substring_from, clamp. rewrite length_app. cbn [length].
  replace (Nat.min _ _) with (length k + 1) by lia.
  rewrite <- drop_drop, drop_app_length. done.
Qed.

Lemma slice_drop_last (s : list N) (c : N) : slice (s ++ [c]) 0 (-1) = s.
Proof.
  unfold slice, relative, clamp. rewrite length_app.
  cbn [length Z.ltb Z.compare Z.to_nat].
  replace (Z.to_nat _ - _) with (length s) by lia.
  replace (Nat.min 0 _) with 0 by lia.
  cbn [skipn]; rewrite ?drop_0. by rewrite take_app_length.
Qed.

Lemma slice_inner (a b : N) (s : list N) : slice (a :: s ++ [b]) 1 (-1) = s.
Proof.
  unfold slice, relative, clamp. cbn [length Z.ltb Z.compare].
  rewrite length_app. cbn [length].
  replace (Z.to_nat _ - _) with (length s) by lia.
  replace (Nat.min _ _) with 1 by lia.
  cbn [skipn]; rewrite ?drop_0. by rewrite take_app_length.
Qed.

Lemma lookup_setProperty {A : Type} (o : gmap (list N) A) key value k :
  setProperty o key value !! k =
    if bool_decide (key = k ∧ k ≠ js "__proto__") then Some value else o !! k.
Proof.
  unfold setProperty. case_bool_decide as Hp.
  - rewrite bool_decide_eq_false_2; [done|]. intros [-> ?]. done.
  - destruct (decide (key = k)) as [->|Hne].
    + by rewrite lookup_insert_eq, bool_decide_eq_true_2.
    + rewrite lookup_insert_ne by done.
      by rewrite bool_decide_eq_false_2 by (by intros [? _]).
Qed.

Lemma lookup_setProperty_ne {A : Type} (o : gmap (list N) A) key value k :
  key ≠ k → setProperty o key value !! k = o !! k.
Proof.
  intros. rewrite lookup_setProperty.
  by rewrite bool_decide_eq_false_2 by (by intros [? _]).
Qed.

Lemma split_no_sep (s : list N) (sep : N) : sep ∉ s → split s sep = [s].
Proof.
  induction s as [|c s IH]; intros Hs; simpl; [done|].
  apply not_elem_of_cons in Hs as [Hc Hs].
  destruct (N.eqb_spec c sep) as [->|_]; [done|]. by rewrite IH.
Qed.

Lemma split_app (s t : list N) (sep : N) :
  sep ∉ s → split (s ++ sep :: t) sep = s :: split t sep.
Proof.
  induction s as [|c s IH]; intros Hs; simpl.
  - by rewrite N.eqb_refl.
  - apply not_elem_of_cons in Hs as [Hc Hs].
    destruct (N.eqb_spec c sep) as [->|_]; [done|]. by rewrite IH.
Qed.

Lemma split_nonempty s sep : split s sep ≠ [].
Proof.
  destruct s as [|c s]; [done|]. cbn [split].
  destruct (c =? sep)%N; [done|]. by destruct (split s sep).
Qed.

Lemma joinLF_cons l rest :
  rest ≠ [] → joinLF (l :: rest) = l ++ LF ++ joinLF rest.
Proof. by destruct rest. Qed.

Lemma joinLF_split s : joinLF (split s 10) = s.
Proof.
  induction s as [|c s IH]; [done|]. cbn [split].
  destruct (N.eqb_spec c 10) as [->|Hc].
  - rewrite joinLF_cons by apply split_nonempty. by rewrite IH.
  - pose proof (split_nonempty s 10) as Hne.
    destruct (split s 10) as [|piece pieces]; [done|].
    destruct pieces as [|p ps]; cbn [joinLF] in *; by rewrite <- IH.
Qed.

Lemma split_pieces s sep l : l ∈ split s sep → sep ∉ l.
Proof.
  revert l. induction s as [|c s IH]; intros l; cbn [split].
  - intros ->%list_elem_of_singleton. apply not_elem_of_nil.
  - destruct (N.eqb_spec c sep) as [->|Hne].
    + intros [->|Hl]%elem_of_cons; [apply not_elem_of_nil|by apply IH].
    + destruct (split s sep) as [|piece pieces] eqn:Hs.
      * intros ->%list_elem_of_singleton.
        apply not_elem_of_cons. split; [done|apply not_elem_of_nil].
      * intros [->|Hl]%elem_of_cons.
        -- apply not_elem_of_cons. split; [done|]. apply IH. by left.
        -- apply IH. by right.
Qed.

End JSFacts.
Import JSFacts.

(** ** Trimming *)

Module TrimFacts.

(** Goals about the lines of a given text: the list is computed first, then
    the property is proved line by line. *)
Ltac list_values :=
  repeat match goal with
         | |- context [split ?s ?sep] =>
             let l := eval vm_compute in (split s sep) in
             replace (split s sep) with l by (vm_compute; reflexivity)
         end.

Ltac each_line tac :=
  list_values;
  repeat (first [apply Forall_cons | apply Forall2_cons]; split; [tac|]);
  constructor.

(** A string made of white space and line terminators only. *)
Definition blank (s : list N) : Prop :=
  Forall (λ c, isStrWhiteSpaceChar c = true) s.

(** A string that neither starts nor ends with white space. *)
Definition trimmed (s : list N) : Prop :=
  match s with
  | [] => True
  | c :: _ => isStrWhiteSpaceChar c = false
  end ∧
  match reverse s with
  | [] => True
  | c :: _ => isStrWhiteSpaceChar c = false
  end.

Lemma trimStart_blank w s : blank w → trimStart (w ++ s) = trimStart s.
Proof.
  intros Hw. induction Hw as [|c w Hc _ IH]; [done|].
  cbn [app trimStart]. by rewrite Hc.
Qed.

Lemma trimStart_all_blank s : blank s → trimStart s = [].
Proof.
  intros Hs. rewrite <- (app_nil_r s). by rewrite trimStart_blank.
Qed.

Lemma trimStart_stop c s :
  isStrWhiteSpaceChar c = false → trimStart (c :: s) = c :: s.
Proof. intros Hc. cbn [trimStart]. by rewrite Hc. Qed.

Lemma trimStart_split s : ∃ w, s = w ++ trimStart s ∧ blank w.
Proof.
  induction s as [|c s (w & Hs & Hw)];
    [exists []; split; [done|constructor]|].
  cbn [trimStart]. destruct (isStrWhiteSpaceChar c) eqn:Hc.
  - exists (c :: w). split; [simpl; by f_equal|]. by apply Forall_cons.
  - exists []. split; [done|constructor].
Qed.

Lemma trimStart_head s :
  match trimStart s with
  | [] => True
  | c :: _ => isStrWhiteSpaceChar c = false
  end.
Proof.
  induction s as [|c s IH]; [done|]. cbn [trimStart].
  by destruct (isStrWhiteSpaceChar c) eqn:Hc.
Qed.

Lemma trimStart_idemp s : trimStart (trimStart s) = trimStart s.
Proof.
  pose proof (trimStart_head s) as H.
  destruct (trimStart s) as [|c t]; [done|]. by apply trimStart_stop.
Qed.

Lemma trimEnd_blank s w : blank w → trimEnd (s ++ w) = trimEnd s.
Proof.
  intros Hw. unfold trimEnd. rewrite reverse_app, trimStart_blank; [done|].
  unfold blank. by rewrite Forall_reverse.
Qed.

Lemma trimEnd_split s : ∃ w, s = trimEnd s ++ w ∧ blank w.
Proof.
  destruct (trimStart_split (reverse s)) as (w & Hs & Hw).
  exists (reverse w). split.
  - unfold trimEnd. rewrite <- reverse_app, <- Hs.
    by rewrite reverse_involutive.
  - unfold blank. by rewrite Forall_reverse.
Qed.

Lemma trimEnd_last s :
  match reverse (trimEnd s) with
  | [] => True
  | c :: _ => isStrWhiteSpaceChar c = false
  end.
Proof. unfold trimEnd. rewrite reverse_involutive. apply trimStart_head. Qed.

Lemma trimEnd_head c s :
  isStrWhiteSpaceChar c = false → ∃ t, trimEnd (c :: s) = c :: t.
Proof.
  intros Hc. destruct (trimEnd_split (c :: s)) as (w & Hs & Hw).
  destruct (trimEnd (c :: s)) as [|d t].
  - simpl in Hs. subst w. apply Forall_cons in Hw as [? _]. congruence.
  - injection Hs as <- _. by exists t.
Qed.

Lemma trim_trimmed s : trimmed (trim s).
Proof.
  split; [|apply trimEnd_last]. unfold trim.
  pose proof (trimStart_head s) as H.
  destruct (trimStart s) as [|c t]; [done|].
  by destruct (trimEnd_head c t H) as [u ->].
Qed.

Lemma trimmed_trim s : trimmed s → trim s = s.
Proof.
  intros [Hhead Hlast]. unfold trim.
  assert (trimStart s = s) as ->
    by (destruct s; [done|by apply trimStart_stop]).
  unfold trimEnd. destruct (reverse s) as [|c t] eqn:Hr.
  - apply (f_equal reverse) in Hr. rewrite reverse_involutive in Hr. by subst.
  - rewrite trimStart_stop, <- Hr by done. apply reverse_involutive.
Qed.

Lemma trim_idemp s : trim (trim s) = trim s.
Proof. apply trimmed_trim, trim_trimmed. Qed.

(** White space around a string does not count. *)
Lemma trim_blank_around w1 s w2 :
  blank w1 → blank w2 → trim (w1 ++ s ++ w2) = trim s.
Proof.
  intros H1 H2. unfold trim. rewrite trimStart_blank by done.
  destruct (trimStart_split s) as (w & Hs & Hw).
  destruct (decide (trimStart s = [])) as [Hnil|Hne].
  - rewrite Hnil in Hs. rewrite app_nil_r in Hs. subst w.
    rewrite Hnil, trimStart_all_blank; [done|]. by apply Forall_app.
  - pose proof (trimStart_head s) as Hh.
    destruct (trimStart s) as [|c t] eqn:Ht; [done|].
    assert (trimStart (s ++ w2) = (c :: t) ++ w2) as ->.
    { rewrite Hs, <- (assoc app), trimStart_blank by done.
      by apply trimStart_stop. }
    by apply trimEnd_blank.
Qed.

Lemma trim_blank s : blank s → trim s = [].
Proof.
  intros Hs. unfold trim. by rewrite trimStart_all_blank.
Qed.

Lemma trim_subseteq s : trim s ⊆ s.
Proof.
  unfold trim. destruct (trimStart_split s) as (w & Hs & _).
  destruct (trimEnd_split (trimStart s)) as (w' & Hs' & _).
  intros c Hc. rewrite Hs, Hs'. set_solver.
Qed.

End TrimFacts.

(** ** EnvParser *)

Module EnvParserFacts.
Import EnvParser TrimFacts.

Lemma multiline_join lines fuel i value :
  length lines - S i ≤ fuel →
  multiline lines fuel i value =
    let '(n, w) := join_lines value (drop (S i) lines) in (i + n, w).
Proof.
  revert i value. induction fuel as [|fuel IH]; intros i value Hfuel; simpl.
  - rewrite drop_ge by lia. simpl. f_equal; lia.
  - destruct (endsWith value BACKSLASH) eqn:Hb; simpl.
    + destruct (Nat.ltb_spec i (length lines - 1)) as [Hi|Hi].
      * rewrite IH by lia.
        assert (drop (S i) lines = lines !!! (i + 1) :: drop (S (i + 1)) lines)
          as ->.
        { replace (S i) with (i + 1) by lia.
          apply drop_S, list_lookup_lookup_total_lt. lia. }
        simpl. rewrite Hb. destruct (join_lines _ _). f_equal; lia.
      * rewrite drop_ge by lia. simpl. f_equal. lia.
    + destruct (drop (S i) lines); simpl; rewrite ?Hb; f_equal; lia.
Qed.

Lemma join_lines_bound value rest : (join_lines value rest).1 ≤ length rest.
Proof.
  revert value. induction rest as [|next rest IH]; intros value; simpl; [lia|].
  destruct (endsWith value BACKSLASH); simpl; [|lia].
  specialize (IH (slice value 0 (-1) ++ LF ++ trim next)).
  destruct (join_lines _ rest). simpl in *. lia.
Qed.

Lemma assignments_from_drop n lines :
  assignments_from n lines = assignments (drop n lines).
Proof.
  revert n. induction lines as [|l rest IH]; intros [|n]; simpl; auto.
Qed.

Lemma assignments_cons l rest :
  assignments (l :: rest) =
    match read_line l with
    | Some (key, value) =>
        let '(n, w) := join_lines value rest in
        (key, w) :: assignments (drop n rest)
    | None => assignments rest
    end.
Proof.
  unfold assignments at 1. simpl. destruct (read_line l) as [[k v]|]; [|done].
  destruct (join_lines v rest). by rewrite assignments_from_drop.
Qed.

Lemma parse_loop_assignments lines fuel i result :
  length lines - i ≤ fuel →
  parse_loop lines fuel i result = assign_all result (assignments (drop i lines)).
Proof.
  revert i result. induction fuel as [|fuel IH]; intros i result Hfuel.
  - simpl. by rewrite drop_ge by lia.
  - cbn [parse_loop]. destruct (Nat.ltb_spec i (length lines)) as [Hi|Hi];
      [|by rewrite drop_ge by lia].
    rewrite (drop_S lines (lines !!! i) i)
      by (apply list_lookup_lookup_total_lt; lia).
    rewrite assignments_cons. unfold read_line.
    replace (i + 1) with (S i) by lia.
    destruct (bool_decide _ || startsWith _ _); [apply IH; lia|].
    destruct (includes _ _); [|apply IH; lia].
    rewrite multiline_join by lia. cbv zeta.
    pose proof (join_lines_bound
      (unquote (trim (substring_from (trim (lines !!! i))
                        (indexOf (trim (lines !!! i)) (js "=") + 1))))
      (drop (S i) lines)) as Hn.
    destruct (join_lines _ _) as [n w]. simpl in Hn.
    rewrite IH by lia. rewrite drop_drop. simpl.
    do 3 f_equal. lia.
Qed.

(** The loop needs no more turns than there are lines left: with any
    larger allowance it returns the same object. *)
Lemma parse_loop_enough lines fuel fuel' i result :
  length lines - i ≤ fuel → length lines - i ≤ fuel' →
  parse_loop lines fuel i result = parse_loop lines fuel' i result.
Proof. intros. by rewrite !parse_loop_assignments. Qed.

Lemma multiline_enough lines fuel fuel' i value :
  length lines - S i ≤ fuel → length lines - S i ≤ fuel' →
  multiline lines fuel i value = multiline lines fuel' i value.
Proof. intros. by rewrite !multiline_join. Qed.

Lemma parse_lines_assignments lines result :
  parse_lines lines result = assign_all result (assignments lines).
Proof. unfold parse_lines. by rewrite parse_loop_assignments by lia. Qed.

Lemma assign_all_lookup bs result key :
  key ≠ js "__proto__" →
  assign_all result bs !! key =
    match last_assigned key bs with
    | Some v => Some v
    | None => result !! key
    end.
Proof.
  intros Hkey. revert result.
  induction bs as [|[k v] bs IH]; intros result; simpl; [done|].
  unfold assign_all in *. simpl. rewrite IH.
  destruct (last_assigned key bs); [done|]. rewrite lookup_setProperty.
  destruct (decide (k = key)) as [->|Hne].
  - by rewrite bool_decide_eq_true_2.
  - by rewrite bool_decide_eq_false_2 by (by intros [? _]).
Qed.

Lemma assign_all_proto bs result :
  assign_all result bs !! js "__proto__" = result !! js "__proto__".
Proof.
  revert result. induction bs as [|[k v] bs IH]; intros result; [done|].
  unfold assign_all in *. simpl. rewrite IH, lookup_setProperty.
  by rewrite bool_decide_eq_false_2 by (by intros [_ ?]).
Qed.

Lemma read_line_skip l :
  trim l = [] ∨ startsWith (trim l) (js "#") = true → read_line l = None.
Proof.
  intros H. unfold read_line.
  destruct H as [->| ->]; [done|]. by rewrite orb_true_r.
Qed.

Lemma read_line_assign l k v :
  trim l = k ++ js "=" ++ v → 61%N ∉ k →
  startsWith (trim l) (js "#") = false →
  read_line l = Some (trim k, unquote (trim v)).
Proof.
  intros Hl Hk Hc. unfold read_line. rewrite Hc, Hl.
  change (js "=" ++ v) with (61%N :: v). change (js "=") with [61%N].
  rewrite bool_decide_eq_false_2 by (by destruct k).
  cbn [orb]. rewrite includes_first, indexOf_first by done.
  by rewrite substring_before, substring_after.
Qed.

Lemma read_line_no_equals l : 61%N ∉ trim l → read_line l = None.
Proof.
  intros Hl. unfold read_line. change (js "=") with [61%N].
  rewrite includes_absent by done. by destruct (_ || _).
Qed.

Lemma unquote_quoted (q : N) s :
  q = 34%N ∨ q = 39%N → unquote (q :: s ++ [q]) = s.
Proof.
  intros Hq. unfold unquote, DQUOTE, SQUOTE.
  assert (endsWith (q :: s ++ [q]) [q] = true) as He
    by apply (endsWith_app (q :: s) [q]).
  destruct Hq as [-> | ->]; rewrite He; cbn [startsWith N.eqb Pos.eqb andb orb];
    apply slice_inner.
Qed.

Lemma unquote_double s : unquote (DQUOTE ++ s ++ DQUOTE) = s.
Proof. apply unquote_quoted. by left. Qed.

Lemma unquote_single s : unquote (SQUOTE ++ s ++ SQUOTE) = s.
Proof. apply unquote_quoted. by right. Qed.

Lemma join_lines_continued v next rest :
  join_lines (v ++ BACKSLASH) (next :: rest) =
    let '(n, w) := join_lines (v ++ LF ++ trim next) rest in (S n, w).
Proof.
  cbn [join_lines]. rewrite endsWith_app. unfold BACKSLASH.
  by rewrite slice_drop_last.
Qed.

Lemma join_lines_stop v rest :
  endsWith v BACKSLASH = false → join_lines v rest = (0, v).
Proof. intros H. destruct rest; cbn [join_lines]; by rewrite ?H. Qed.

Lemma parse_lines_cons l rest result :
  parse_lines (l :: rest) result =
    match read_line l with
    | Some (key, value) =>
        let '(n, w) := join_lines value rest in
        parse_lines (drop n rest) (setProperty result key w)
    | None => parse_lines rest result
    end.
Proof.
  rewrite parse_lines_assignments, assignments_cons.
  destruct (read_line l) as [[k v]|]; [|by rewrite parse_lines_assignments].
  destruct (join_lines v rest) as [n w].
  by rewrite parse_lines_assignments.
Qed.

Lemma trim_split l :
  ∃ w1 w2, l = w1 ++ trim l ++ w2 ∧ blank w1 ∧ blank w2.
Proof.
  destruct (trimStart_split l) as (w1 & H1 & Hw1).
  destruct (trimEnd_split (trimStart l)) as (w2 & H2 & Hw2).
  exists w1, w2. split; [|done]. unfold trim. by rewrite <- H2.
Qed.

(** The code units that [trim] removes: the white space and the line
    terminators of the language. *)
Definition white_space : list N :=
  [0x09; 0x0A; 0x0B; 0x0C; 0x0D; 0x20; 0xA0; 0x1680;
   0x2000; 0x2001; 0x2002; 0x2003; 0x2004; 0x2005; 0x2006; 0x2007; 0x2008;
   0x2009; 0x200A; 0x2028; 0x2029; 0x202F; 0x205F; 0x3000; 0xFEFF]%N.

Lemma isStrWhiteSpaceChar_spec c :
  isStrWhiteSpaceChar c = true ↔ c ∈ white_space.
Proof.
  unfold isStrWhiteSpaceChar, isWhiteSpace, isLineTerminator, white_space.
  rewrite !orb_true_iff, andb_true_iff, !N.eqb_eq, !N.leb_le.
  rewrite !elem_of_cons, elem_of_nil. lia.
Qed.

Lemma startsWith_head s c :
  startsWith s [c] = true ↔ head s = Some c.
Proof.
  destruct s as [|b s]; cbn; [done|].
  rewrite andb_true_r, N.eqb_eq. split; [by intros ->|by intros [= ->]].
Qed.

Lemma startsWith_not_head s c :
  head s ≠ Some c → startsWith s [c] = false.
Proof.
  intros H. destruct (startsWith s [c]) eqn:Hs; [|done].
  by apply startsWith_head in Hs.
Qed.

Lemma unquote_lone q : q = 34%N ∨ q = 39%N → unquote [q] = [].
Proof. by intros [-> | ->]. Qed.

Lemma unquote_bare v :
  (∀ q s, q = 34%N ∨ q = 39%N → v ≠ [q] ∧ v ≠ q :: s ++ [q]) →
  unquote v = v.
Proof.
  intros H.
  assert (∀ q, q = 34%N ∨ q = 39%N →
            startsWith v [q] && endsWith v [q] = false) as Hq.
  { intros q Hq. destruct (startsWith v [q] && endsWith v [q]) eqn:Hv; [|done].
    apply andb_true_iff in Hv
      as [[t Ht]%startsWith_prefix [u Hu]%endsWith_suffix].
    destruct u as [|x u].
    - by destruct (H q [] Hq) as [? _].
    - rewrite Hu in Ht. injection Ht as -> _.
      by destruct (H q u Hq) as [_ ?]. }
  unfold unquote, DQUOTE, SQUOTE. by rewrite !Hq by auto.
Qed.

Lemma join_lines_last v rest :
  (∀ v0, v ≠ v0 ++ BACKSLASH) → join_lines v rest = (0, v).
Proof.
  intros H. apply join_lines_stop.
  destruct (endsWith v BACKSLASH) eqn:He; [|done].
  apply endsWith_suffix in He as [t ->]. by destruct (H t).
Qed.

Lemma split_lines content :
  joinLF (split content 10) = content ∧ split content 10 ≠ [] ∧
  Forall (λ l, 10%N ∉ l) (split content 10).
Proof.
  split; [apply joinLF_split|]. split; [apply split_nonempty|].
  apply Forall_forall. intros l. apply split_pieces.
Qed.

(** C2, as amended: [parse] cuts the content at line feeds and reads the
    lines in order, from the first.  A line that is read is trimmed of the
    white space and line terminators at its ends; when it is then empty,
    starts with [#] or has no [=], it is skipped.  Otherwise the first [=]
    of the trimmed line splits it: the key is the trimmed text before it,
    the value the trimmed text after it, from which one pair of surrounding
    double or single quotes is removed (a value that is a single quote
    becomes empty, any other value is kept as it is).  A value that then
    ends with a backslash while a line follows loses the backslash and
    takes, after a line feed, the following line trimmed, whatever that line
    holds, and so on; the lines taken are not read again.  The value is then
    assigned to the key in the object, which stores no key [__proto__].
    Two contents are given with the objects they are parsed to. *)
Theorem parse_reads_line_by_line :
  (∀ content,
     parse content = parse_lines (split content 10) ∅ ∧
     joinLF (split content 10) = content ∧ split content 10 ≠ [] ∧
     Forall (λ l, 10%N ∉ l) (split content 10)) ∧
  (∀ c, isStrWhiteSpaceChar c = true ↔ c ∈ white_space) ∧
  (∀ l, ∃ w1 w2,
     l = w1 ++ trim l ++ w2 ∧ blank w1 ∧ blank w2 ∧ trimmed (trim l)) ∧
  (∀ result, parse_lines [] result = result) ∧
  (∀ l rest result,
     trim l = [] ∨ head (trim l) = Some 35%N ∨ 61%N ∉ trim l →
     parse_lines (l :: rest) result = parse_lines rest result) ∧
  (∀ l rest result k v,
     trim l = k ++ js "=" ++ v → 61%N ∉ k → head (trim l) ≠ Some 35%N →
     parse_lines (l :: rest) result =
       let '(n, w) := join_lines (unquote (trim v)) rest in
       parse_lines (drop n rest) (setProperty result (trim k) w)) ∧
  (∀ q s, q = 34%N ∨ q = 39%N →
     unquote (q :: s ++ [q]) = s ∧ unquote [q] = []) ∧
  (∀ v, (∀ q s, q = 34%N ∨ q = 39%N → v ≠ [q] ∧ v ≠ q :: s ++ [q]) →
     unquote v = v) ∧
  (∀ v next rest,
     join_lines (v ++ BACKSLASH) (next :: rest) =
       let '(n, w) := join_lines (v ++ LF ++ trim next) rest in (S n, w)) ∧
  (∀ v rest, (∀ v0, v ≠ v0 ++ BACKSLASH) ∨ rest = [] →
     join_lines v rest = (0, v)) ∧
  (∀ (result : gmap (list N) (list N)) key value k,
     setProperty result key value !! k =
       if bool_decide (key = k ∧ k ≠ js "__proto__") then Some value
       else result !! k) ∧
  parse (js "PORT=8080") = {[js "PORT" := js "8080"]} ∧
  parse (js "# settings" ++ LF ++ LF ++ js "  NAME = 'a b'  " ++ LF ++
         js "URL=http://x?a=b" ++ LF ++ js "bare" ++ LF ++
         js "TEXT=one\" ++ LF ++ js "  two  " ++ LF ++ js "__proto__=p")
    = {[js "NAME" := js "a b"; js "URL" := js "http://x?a=b";
        js "TEXT" := js "one" ++ LF ++ js "two"]}.
Proof.
  split; [intros content; split; [done|apply split_lines]|].
  split; [apply isStrWhiteSpaceChar_spec|].
  split.
  { intros l. destruct (trim_split l) as (w1 & w2 & Hl & Hw1 & Hw2).
    exists w1, w2. split_and!; [done..|apply trim_trimmed]. }
  split; [done|]. split.
  { intros l rest result [H|[H|H]]; rewrite parse_lines_cons.
    - by rewrite read_line_skip by auto.
    - rewrite read_line_skip; [done|]. right. by apply startsWith_head.
    - by rewrite read_line_no_equals. }
  split.
  { intros l rest result k v Hl Hk Hc.
    rewrite parse_lines_cons, (read_line_assign l k v); [done..|].
    by apply startsWith_not_head. }
  split.
  { intros q s Hq. split; [by apply unquote_quoted|by apply unquote_lone]. }
  split; [apply unquote_bare|].
  split; [apply join_lines_continued|].
  split.
  { intros v rest [H| ->]; [by apply join_lines_last|done]. }
  split; [intros; apply lookup_setProperty|].
  split; vm_compute; reflexivity.
Qed.

Lemma parse_reads_line_by_line_witness :
  parse_lines [js "  # note"; js " A = 'x' "] ∅ =
    parse_lines [js " A = 'x' "] ∅ ∧
  parse_lines [js " A = 'x\' "; js " y "; js "B=1"] ∅ =
    (let '(n, w) :=
       join_lines (unquote (trim (js " 'x\' "))) [js " y "; js "B=1"] in
     parse_lines (drop n [js " y "; js "B=1"])
       (setProperty ∅ (trim (js " A ")) w)) ∧
  unquote (js "8080") = js "8080" ∧
  join_lines (js "x") [js "y"] = (0, js "x").
Proof.
  destruct parse_reads_line_by_line
    as (_ & _ & _ & _ & Hskip & Hassign & _ & Hbare & _ & Hstop & _).
  split_and!.
  - apply Hskip. right. left. reflexivity.
  - apply (Hassign _ _ _ (js "A ") (js " 'x\'")).
    + reflexivity.
    + compute_done.
    + discriminate.
  - apply Hbare. intros q s Hq. split; [discriminate|].
    intros Heq. cbv in Heq. injection Heq as <- _. by destruct Hq.
  - apply Hstop. left. intros v0 Hv. apply (f_equal reverse) in Hv.
    rewrite reverse_app in Hv. discriminate.
Defined.

(** C2, as stated, fails on a line that follows a value ending with a
    backslash: a line that starts with [#] is then not skipped but taken
    into the value, and the object differs from the one parsed without that
    line.  The quotes are removed before the lines are joined: quotes around
    a value that spans two lines stay. *)
Lemma parse_joins_comment_line :
  let content := js "A=1\" ++ LF ++ js "# note" ++ LF ++ js "B=2" in
  split content 10 = [js "A=1\"; js "# note"; js "B=2"] ∧
  head (trim (js "# note")) = Some 35%N ∧
  parse content
    = {[js "A" := js "1" ++ LF ++ js "# note"; js "B" := js "2"]} ∧
  parse content ≠ parse (js "A=1\" ++ LF ++ js "B=2") ∧
  parse (js "A='x\" ++ LF ++ js "y'")
    = {[js "A" := js "'x" ++ LF ++ js "y'"]}.
Proof.
  split_and!; try (vm_compute; reflexivity).
  intros H. apply (f_equal (λ m, m !! js "B")) in H. vm_compute in H.
  discriminate.
Qed.

(** C10, as amended: the object returned by [parse] binds a key to the value
    of the last assignment that the loop performs for it.  A line that a
    preceding value ending with a backslash has joined to itself is part of
    that value: it is not read as an assignment.  The key [__proto__] is
    never bound. *)
Theorem parse_binds_last_assignment content key :
  parse content !! key =
    if bool_decide (key = js "__proto__") then None
    else last_assigned key (assignments (split content 10)).
Proof.
  change (parse content) with (parse_lines (split content 10) ∅).
  rewrite parse_lines_assignments. case_bool_decide as Hkey.
  - subst key. by rewrite assign_all_proto.
  - rewrite assign_all_lookup by done. by destruct (last_assigned _ _).
Qed.

(** C10, as stated, fails on [A=1\] followed by [A=2]: the second line is
    joined to the value of the first.  It also fails on the key
    [__proto__], which the object does not store. *)
Lemma parse_joined_line_is_not_assigned :
  last_line_value (js "A") (split (js "A=1\" ++ LF ++ js "A=2") 10)
    = Some (js "2") ∧
  parse (js "A=1\" ++ LF ++ js "A=2") !! js "A"
    = Some (js "1" ++ LF ++ js "A=2") ∧
  parse (js "A=1\" ++ LF ++ js "A=2") !! js "A"
    ≠ last_line_value (js "A") (split (js "A=1\" ++ LF ++ js "A=2") 10) ∧
  last_line_value (js "__proto__") (split (js "__proto__=x") 10)
    = Some (js "x") ∧
  parse (js "__proto__=x") !! js "__proto__" = None.
Proof. split_and!; vm_compute; (reflexivity || discriminate). Qed.

(** Without a continued value, the assignments are the lines of the form
    [key=value], each read on its own. *)
Lemma assignments_without_continuation lines :
  (∀ l k v, l ∈ lines → read_line l = Some (k, v) →
            endsWith v BACKSLASH = false) →
  assignments lines = omap read_line lines.
Proof.
  induction lines as [|l rest IH]; intros H; [done|].
  rewrite assignments_cons. simpl.
  destruct (read_line l) as [[k v]|] eqn:Hl.
  - rewrite (join_lines_stop v rest) by (eapply H; [left|done]).
    simpl. rewrite drop_0, IH; [done|]. intros. eapply H; [by right|done].
  - apply IH. intros. eapply H; [by right|done].
Qed.

Lemma parse_binds_last_line content key :
  (∀ l k v, l ∈ split content 10 → read_line l = Some (k, v) →
            endsWith v BACKSLASH = false) →
  key ≠ js "__proto__" →
  parse content !! key = last_line_value key (split content 10).
Proof.
  intros H Hkey.
  change (parse content) with (parse_lines (split content 10) ∅).
  rewrite parse_lines_assignments, assign_all_lookup by done.
  rewrite assignments_without_continuation by done. unfold last_line_value.
  by destruct (last_assigned _ _).
Qed.

End EnvParserFacts.

(** ** Buffers *)

Module BufferFacts.
Import Buffer.

Lemma toHex_cons b buf :
  toHex (b :: buf) =
    hexDigit (N.shiftr (Byte.to_N b) 4) :: hexDigit (N.land (Byte.to_N b) 0xF)
      :: toHex buf.
Proof. done. Qed.

Lemma fromHex_byte b s :
  fromHex (hexDigit (N.shiftr (Byte.to_N b) 4)
             :: hexDigit (N.land (Byte.to_N b) 0xF) :: s) = b :: fromHex s.
Proof. destruct b; reflexivity. Qed.

Lemma fromHex_toHex buf : fromHex (toHex buf) = buf.
Proof.
  induction buf as [|b buf IH]; [done|].
  by rewrite toHex_cons, fromHex_byte, IH.
Qed.

Lemma toHex_inj buf1 buf2 : toHex buf1 = toHex buf2 → buf1 = buf2.
Proof. intros H. by rewrite <- (fromHex_toHex buf1), H, fromHex_toHex. Qed.

Lemma hexDigit_byte b :
  isHexDigit (hexDigit (N.shiftr (Byte.to_N b) 4)) = true ∧
  isHexDigit (hexDigit (N.land (Byte.to_N b) 0xF)) = true.
Proof. destruct b; split; reflexivity. Qed.

Lemma toHex_digits buf : Forall (λ c, isHexDigit c = true) (toHex buf).
Proof.
  induction buf as [|b buf IH]; [constructor|].
  rewrite toHex_cons. destruct (hexDigit_byte b). by repeat constructor.
Qed.

Lemma isHexDigit_not_colon c : isHexDigit c = true → c ≠ 58%N.
Proof. intros H ->. discriminate. Qed.

Lemma toHex_no_colon buf : 58%N ∉ toHex buf.
Proof.
  intros Hin. pose proof (toHex_digits buf) as Hd.
  rewrite Forall_forall in Hd. by apply Hd, isHexDigit_not_colon in Hin.
Qed.

Lemma all_below_spec n P :
  all_below n P = true → ∀ i, (i < n)%N → P i = true.
Proof.
  unfold all_below.
  assert (∀ n, ∃ ok, N.iter n (λ '(i, ok), (N.succ i, ok && P i)) (0%N, true)
                       = (n, ok) ∧
                     (ok = true → ∀ i, (i < n)%N → P i = true)) as Hiter.
  { clear n. intros n. induction n as [|n IH] using N.peano_ind.
    - exists true. split; [done|]. intros _ i Hi. lia.
    - destruct IH as (ok & Heq & Hok). rewrite N.iter_succ, Heq.
      exists (ok && P n). split; [done|].
      intros [Hok' HP]%andb_true_iff i Hi.
      destruct (decide (i = n)) as [->|Hne]; [done|].
      apply Hok; [done|lia]. }
  destruct (Hiter n) as (ok & -> & Hok). simpl. done.
Qed.

Lemma code_units_eqb_eq s t : code_units_eqb s t = true → s = t.
Proof.
  revert t. induction s as [|a s IH]; intros [|b t]; simpl; try done.
  intros [->%N.eqb_eq ->%IH]%andb_true_iff. done.
Qed.

Lemma transcodes_spec cp :
  transcodes cp = true →
  decode_bytes idle (utf8_of_code_point cp) = (code_units_of cp, idle).
Proof.
  unfold transcodes. destruct (decode_bytes _ _) as [out [c n l u]]. simpl.
  rewrite !andb_true_iff, !N.eqb_eq.
  intros ((((->%code_units_eqb_eq & ->) & ->) & ->) & ->). done.
Qed.

Lemma decode_bytes_app st buf1 buf2 :
  decode_bytes st (buf1 ++ buf2) =
    let '(out1, st1) := decode_bytes st buf1 in
    let '(out2, st2) := decode_bytes st1 buf2 in
    (out1 ++ out2, st2).
Proof.
  revert st. induction buf1 as [|b buf1 IH]; intros st; simpl.
  - by destruct (decode_bytes st buf2).
  - destruct (decode_byte st (Byte.to_N b)) as [out st']. rewrite IH.
    destruct (decode_bytes st' buf1) as [out1 st1].
    destruct (decode_bytes st1 buf2) as [out2 st2].
    by rewrite (assoc app).
Qed.

Ltac lia_div := zify; Z.to_euclidean_division_equations; lia.

Lemma ascii_transcodes : all_below 0x80 transcodes = true.
Proof. vm_compute. reflexivity. Qed.

Lemma lead_bytes_open :
  all_below 0x4400
    (λ hi, (hi <? 2)%N || (0x360 <=? hi)%N && (hi <? 0x380)%N || opens hi)
  = true.
Proof. vm_compute. reflexivity. Qed.

Lemma continuation_carries : all_below 64 carries = true.
Proof. vm_compute. reflexivity. Qed.

Lemma utf8_of_code_point_split cp :
  (0x80 ≤ cp)%N →
  utf8_of_code_point cp =
    lead_bytes (N.shiftr cp 6) ++ [byteN (N.lor 0x80 (N.land cp 0x3F))].
Proof.
  intros Hcp. unfold utf8_of_code_point, lead_bytes.
  rewrite !N.shiftr_shiftr. rewrite !N.shiftr_div_pow2.
  change (2 ^ 6)%N with 64%N. change (2 ^ (6 + 6))%N with 4096%N.
  change (2 ^ (6 + 12))%N with 262144%N.
  destruct (N.ltb_spec cp 0x80); [lia|].
  destruct (N.ltb_spec cp 0x800), (N.ltb_spec (cp / 64) 0x20);
    try done; try lia_div.
  destruct (N.ltb_spec cp 0x10000), (N.ltb_spec (cp / 64) 0x400);
    try done; lia_div.
Qed.

Lemma decode_last hi cp :
  hi = N.shiftr cp 6 →
  decode_byte {| code_point := hi; needed := 1; lower := 0x80; upper := 0xBF |}
    (Byte.to_N (byteN (N.lor 0x80 (N.land cp 0x3F))))
  = (code_units_of cp, idle).
Proof.
  intros ->. set (lo := N.land cp 0x3F).
  assert (lo < 64)%N as Hlo.
  { unfold lo. change 0x3F%N with (N.ones 6). rewrite N.land_ones.
    by apply N.mod_lt. }
  pose proof (all_below_spec _ _ continuation_carries lo Hlo) as Hc.
  unfold carries in Hc.
  apply andb_true_iff in Hc as [->%N.eqb_eq Hland%N.eqb_eq].
  unfold decode_byte. cbn [needed lower upper code_point N.eqb].
  destruct (N.leb_spec 0x80 (0x80 + lo)); [|lia].
  destruct (N.leb_spec (0x80 + lo) 0xBF); [|lia].
  cbn [andb]. rewrite Hland. unfold lo. change 0x3F%N with (N.ones 6).
  by rewrite <- N.ldiff_ones_r, N.lor_ldiff_and.
Qed.

Lemma decode_code_point cp :
  (cp < 0x110000)%N → isSurrogate cp = false →
  decode_bytes idle (utf8_of_code_point cp) = (code_units_of cp, idle).
Proof.
  intros Hcp Hs. destruct (N.ltb_spec cp 0x80) as [Hlow|Hhigh].
  { apply transcodes_spec. by apply (all_below_spec _ _ ascii_transcodes). }
  rewrite utf8_of_code_point_split, decode_bytes_app by done.
  assert (N.shiftr cp 6 < 0x4400)%N as Hhi
    by (rewrite N.shiftr_div_pow2; change (2 ^ 6)%N with 64%N; lia_div).
  pose proof (all_below_spec _ _ lead_bytes_open _ Hhi) as Hopen.
  cbv beta in Hopen.
  destruct (N.ltb_spec (N.shiftr cp 6) 2) as [Hlt|_].
  { rewrite N.shiftr_div_pow2 in Hlt. change (2 ^ 6)%N with 64%N in Hlt.
    lia_div. }
  replace ((0x360 <=? N.shiftr cp 6)%N && (N.shiftr cp 6 <? 0x380)%N)
    with false in Hopen.
  2:{ symmetry. unfold isSurrogate, isHighSurrogate, isLowSurrogate in Hs.
      rewrite N.shiftr_div_pow2. change (2 ^ 6)%N with 64%N.
      destruct (N.leb_spec 0x360 (cp / 64)), (N.ltb_spec (cp / 64) 0x380);
        try done.
      destruct (N.leb_spec 0xD800 cp), (N.leb_spec cp 0xDBFF),
        (N.leb_spec 0xDC00 cp), (N.leb_spec cp 0xDFFF);
        try done; lia_div. }
  cbn [orb] in Hopen. unfold opens in Hopen.
  destruct (decode_bytes idle (lead_bytes (N.shiftr cp 6))) as [out [c n l u]].
  cbn [code_point needed lower upper] in Hopen.
  rewrite !andb_true_iff, !N.eqb_eq in Hopen.
  destruct Hopen as ((((->%code_units_eqb_eq & ->) & ->) & ->) & ->).
  cbn [decode_bytes]. rewrite (decode_last _ cp eq_refl).
  by rewrite app_nil_r.
Qed.

Lemma utf8_decode_code_point cp buf :
  (cp < 0x110000)%N → isSurrogate cp = false →
  utf8_decode (utf8_of_code_point cp ++ buf) = code_units_of cp ++ utf8_decode buf.
Proof.
  intros Hcp Hs. unfold utf8_decode.
  rewrite decode_bytes_app, decode_code_point by done.
  destruct (decode_bytes idle buf) as [out st].
  destruct (needed st =? 0)%N; [done|]. by rewrite (assoc app).
Qed.

Lemma surrogate_pair u v :
  isHighSurrogate u = true → isLowSurrogate v = true →
  let cp := (0x10000 + N.shiftl (u - 0xD800) 10 + (v - 0xDC00))%N in
  (cp < 0x110000)%N ∧ isSurrogate cp = false ∧ code_units_of cp = [u; v].
Proof.
  unfold isHighSurrogate, isLowSurrogate, isSurrogate, code_units_of.
  rewrite !andb_true_iff, !N.leb_le. intros [Hu1 Hu2] [Hv1 Hv2].
  rewrite N.shiftl_mul_pow2. change (2 ^ 10)%N with 1024%N.
  set (a := (u - 0xD800)%N). set (b := (v - 0xDC00)%N).
  assert (a < 1024)%N by lia. assert (b < 1024)%N by lia.
  cbv zeta. split; [lia|]. split.
  - unfold isHighSurrogate, isLowSurrogate.
    rewrite orb_false_iff, !andb_false_iff, !N.leb_gt. lia.
  - destruct (N.ltb_spec (0x10000 + a * 1024 + b) 0x10000); [lia|].
    replace (0x10000 + a * 1024 + b - 0x10000)%N with (a * 1024 + b)%N by lia.
    rewrite N.shiftr_div_pow2. change 0x3FF%N with (N.ones 10).
    rewrite N.land_ones. change (2 ^ 10)%N with 1024%N.
    rewrite <- (N.div_unique (a * 1024 + b) 1024 a b) by lia.
    rewrite <- (N.mod_unique (a * 1024 + b) 1024 a b) by lia.
    f_equal; [lia|f_equal; lia].
Qed.

Lemma utf8_decode_encode_bounded n s :
  length s ≤ n → well_formed s = true → utf8_decode (utf8_encode s) = s.
Proof.
  revert s. induction n as [|n IH]; intros [|u s] Hn Hw; simpl in *;
    try done; try lia.
  destruct (isHighSurrogate u) eqn:Hu.
  - destruct s as [|v s]; [done|].
    apply andb_true_iff in Hw as [Hv Hw]. rewrite Hv.
    destruct (surrogate_pair u v Hu Hv) as (Hcp & Hs & Hunits).
    rewrite utf8_decode_code_point, Hunits by done.
    simpl in *. rewrite IH; [done|lia|done].
  - apply andb_true_iff in Hw as [[Hl Hlt]%andb_true_iff Hw].
    apply negb_true_iff in Hl. apply N.ltb_lt in Hlt. rewrite Hl.
    rewrite utf8_decode_code_point; [|lia|unfold isSurrogate; by rewrite Hu, Hl].
    unfold code_units_of. destruct (N.ltb_spec u 0x10000); [|lia].
    simpl. rewrite IH; [done|lia|done].
Qed.

Lemma utf8_decode_encode s :
  well_formed s = true → utf8_decode (utf8_encode s) = s.
Proof. by apply (utf8_decode_encode_bounded (length s)). Qed.

(** *** What the decoder returns is well formed *)

Lemma well_formed_app s t :
  well_formed s = true → well_formed t = true → well_formed (s ++ t) = true.
Proof.
  intros Hs Ht. remember (length s) as n eqn:Hn.
  assert (length s ≤ n) as Hlen by lia. clear Hn.
  revert s Hs Hlen. induction n as [|n IH]; intros [|u s] Hs Hlen;
    simpl in *; try done; try lia.
  destruct (isHighSurrogate u).
  - destruct s as [|v s]; [done|]. simpl.
    apply andb_true_iff in Hs as [-> Hs]. simpl in *. apply IH; [done|lia].
  - apply andb_true_iff in Hs as [-> Hs]. simpl. apply IH; [done|lia].
Qed.

(** A well-formed text cut at a code unit that is not a surrogate. *)
Lemma well_formed_cut s c t :
  isSurrogate c = false →
  well_formed (s ++ c :: t) = true →
  well_formed s = true ∧ well_formed (c :: t) = true.
Proof.
  intros Hc. remember (length s) as n eqn:Hn.
  assert (length s ≤ n) as Hlen by lia. clear Hn.
  revert s Hlen. induction n as [|n IH]; intros [|u s] Hlen Hw;
    simpl in Hlen; try done; try lia.
  cbn [app well_formed] in Hw. cbn [well_formed].
  destruct (isHighSurrogate u) eqn:Hu.
  - destruct s as [|v s].
    + cbn [app] in Hw. apply andb_true_iff in Hw as [Hv _].
      unfold isSurrogate in Hc. apply orb_false_iff in Hc as [_ Hc].
      congruence.
    + cbn [app] in Hw. apply andb_true_iff in Hw as [-> Hw].
      simpl in Hlen. apply IH in Hw; [done|lia].
  - apply andb_true_iff in Hw as [-> Hw]. apply IH in Hw; [done|lia].
Qed.

Lemma well_formed_unit c t :
  isSurrogate c = false → (c < 0x10000)%N →
  well_formed (c :: t) = well_formed t.
Proof.
  unfold isSurrogate. intros [Hh Hl]%orb_false_iff Hc. cbn [well_formed].
  rewrite Hh, Hl. by destruct (N.ltb_spec c 0x10000); [|lia].
Qed.


(** A code point that is not a surrogate. *)
Definition scalar (cp : N) : bool :=
  ((cp <? 0xD800) || (0xDFFF <? cp))%N && (cp <? 0x110000)%N.

(** The code points that the open sequence can still end on are all
    scalar: they are those from [first] to [last]. *)
Definition sound (st : decoder) : bool :=
  (needed st =? 0)%N ||
  (needed st <=? 3)%N && (0x80 <=? lower st)%N && (lower st <=? upper st)%N &&
  (upper st <=? 0xBF)%N &&
  (let shift := (64 ^ (needed st - 1))%N in
   let first := ((code_point st * 64 + (lower st - 0x80)) * shift)%N in
   let last :=
     ((code_point st * 64 + (upper st - 0x80)) * shift + (shift - 1))%N in
   ((last <? 0xD800) || (0xDFFF <? first))%N && (last <? 0x110000)%N).

Lemma code_units_well_formed cp :
  scalar cp = true → well_formed (code_units_of cp) = true.
Proof.
  unfold scalar, code_units_of.
  rewrite andb_true_iff, orb_true_iff, !N.ltb_lt. intros [Hs Hcp].
  destruct (N.ltb_spec cp 0x10000) as [Hlow|Hhigh].
  - rewrite well_formed_unit; [done| |done].
    unfold isSurrogate, isHighSurrogate, isLowSurrogate.
    rewrite orb_false_iff, !andb_false_iff, !N.leb_gt. lia.
  - cbn [well_formed].
    rewrite N.shiftr_div_pow2. change 0x3FF%N with (N.ones 10).
    rewrite N.land_ones. change (2 ^ 10)%N with 1024%N.
    assert ((cp - 0x10000) / 1024 < 1024)%N by lia_div.
    assert ((cp - 0x10000) mod 1024 < 1024)%N by lia_div.
    set (hi := ((cp - 0x10000) / 1024)%N) in *.
    set (lo := ((cp - 0x10000) mod 1024)%N) in *.
    unfold isHighSurrogate, isLowSurrogate.
    destruct (N.leb_spec 0xD800 (0xD800 + hi)); [|lia].
    destruct (N.leb_spec (0xD800 + hi) 0xDBFF); [|lia].
    destruct (N.leb_spec 0xDC00 (0xDC00 + lo)); [|lia].
    by destruct (N.leb_spec (0xDC00 + lo) 0xDFFF); [|lia].
Qed.

Lemma decode_lead_sound b :
  well_formed (decode_lead (Byte.to_N b)).1 = true ∧
  sound (decode_lead (Byte.to_N b)).2 = true.
Proof. destruct b; split; reflexivity. Qed.

(** The code point after a continuation byte. *)
Lemma continuation cp b :
  (0x80 ≤ b ≤ 0xBF)%N →
  N.lor (N.shiftl cp 6) (N.land b 0x3F) = (cp * 64 + (b - 0x80))%N.
Proof.
  intros Hb. set (a := (cp * 64 + (b - 0x80))%N).
  assert (N.shiftr a 6 = cp) as Hhi.
  { rewrite N.shiftr_div_pow2. change (2 ^ 6)%N with 64%N. unfold a. lia_div. }
  assert (N.land a (N.ones 6) = N.land b 0x3F) as Hlo.
  { change 0x3F%N with (N.ones 6). rewrite !N.land_ones.
    change (2 ^ 6)%N with 64%N. unfold a. lia_div. }
  rewrite <- Hhi, <- Hlo, <- N.ldiff_ones_r. apply N.lor_ldiff_and.
Qed.

Lemma decode_byte_sound st b :
  sound st = true →
  well_formed (decode_byte st (Byte.to_N b)).1 = true ∧
  sound (decode_byte st (Byte.to_N b)).2 = true.
Proof.
  intros Hst. destruct (decode_lead_sound b) as [Hout Hlead].
  unfold decode_byte. destruct (N.eqb_spec (needed st) 0) as [Hn|Hn]; [done|].
  destruct ((lower st <=? Byte.to_N b)%N && (Byte.to_N b <=? upper st)%N)
    eqn:Hin.
  2:{ destruct (decode_lead (Byte.to_N b)) as [out st']. cbn [fst snd] in *.
      split; [|done]. by rewrite well_formed_unit. }
  apply andb_true_iff in Hin as [Hlo%N.leb_le Hhi%N.leb_le].
  unfold sound in Hst. apply orb_true_iff in Hst as [Hz%N.eqb_eq|Hst]; [done|].
  cbv zeta in Hst.
  rewrite !andb_true_iff, orb_true_iff, !N.leb_le, !N.ltb_lt in Hst.
  destruct Hst as ((((Hn3 & Hl) & Hlu) & Hu) & Hrange & Hmax).
  rewrite continuation by lia.
  destruct (N.eqb_spec (needed st) 1) as [H1|H1].
  - cbn [fst snd]. split; [|done]. apply code_units_well_formed.
    rewrite H1 in Hrange, Hmax. change (64 ^ (1 - 1))%N with 1%N in *.
    unfold scalar. rewrite andb_true_iff, orb_true_iff, !N.ltb_lt. lia.
  - cbn [fst snd]. split; [done|]. unfold sound.
    cbn [needed lower upper code_point].
    apply orb_true_iff. right.
    rewrite !andb_true_iff, orb_true_iff, !N.leb_le, !N.ltb_lt.
    assert (needed st = 2 ∨ needed st = 3)%N as [H2|H3] by lia.
    + rewrite H2 in *. change (64 ^ (2 - 1))%N with 64%N in *.
      change (64 ^ (2 - 1 - 1))%N with 1%N. lia.
    + rewrite H3 in *. change (64 ^ (3 - 1))%N with 4096%N in *.
      change (64 ^ (3 - 1 - 1))%N with 64%N. lia.
Qed.

Lemma decode_bytes_sound st buf :
  sound st = true →
  well_formed (decode_bytes st buf).1 = true ∧
  sound (decode_bytes st buf).2 = true.
Proof.
  revert st. induction buf as [|b buf IH]; intros st Hst; [done|].
  cbn [decode_bytes]. destruct (decode_byte_sound st b Hst) as [Hout Hst'].
  destruct (decode_byte st (Byte.to_N b)) as [out st']. cbn [fst snd] in *.
  destruct (IH st' Hst') as [Hout' Hst''].
  destruct (decode_bytes st' buf) as [out' st'']. cbn [fst snd] in *.
  split; [by apply well_formed_app|done].
Qed.

(** Whatever the bytes, the text read from them has every surrogate code
    unit paired. *)
Lemma utf8_decode_well_formed buf : well_formed (utf8_decode buf) = true.
Proof.
  unfold utf8_decode.
  destruct (decode_bytes_sound idle buf eq_refl) as [Hout _].
  destruct (decode_bytes idle buf) as [out st]. cbn [fst] in Hout.
  destruct (needed st =? 0)%N; [done|]. by apply well_formed_app.
Qed.

End BufferFacts.

(** ** EncryptionManager *)

Module EncryptionManagerFacts.
Import Buffer BufferFacts EncryptionManager.

Lemma split_three (a b c : list N) :
  58%N ∉ a → 58%N ∉ b → 58%N ∉ c →
  split (a ++ js ":" ++ b ++ js ":" ++ c) 58 = [a; b; c].
Proof.
  intros Ha Hb Hc. change (js ":") with [58%N]. simpl.
  by rewrite !split_app, split_no_sep.
Qed.

Section Manager.
Context {C : Crypto}.

Lemma split_encrypt this iv text :
  split (encrypt this iv text) 58 =
    [toHex iv; toHex (cipher (key this) iv (utf8_encode text)).2;
     toHex (cipher (key this) iv (utf8_encode text)).1].
Proof.
  unfold encrypt. destruct (cipher _ _ _) as [encrypted authTag].
  apply split_three; apply toHex_no_colon.
Qed.

Lemma decrypt_encrypt_bytes `{!CryptoLaws C} this iv text :
  length (key this) = 32 → length iv = 16 →
  decrypt this (encrypt this iv text) = Ok (utf8_decode (utf8_encode text)).
Proof.
  intros Hkey Hiv. unfold decrypt. rewrite split_encrypt. simpl.
  rewrite !fromHex_toHex.
  destruct (cipher (key this) iv (utf8_encode text)) as [encrypted authTag] eqn:Hc.
  simpl. by rewrite (decipher_cipher _ _ _ _ _ Hkey Hiv Hc).
Qed.

Lemma new_key_length `{!CryptoLaws C} encryptionKey this :
  new encryptionKey = Ok this → length (key this) = 32.
Proof.
  unfold new. case_bool_decide; [done|]. intros [= <-]. simpl.
  apply scryptSync_length.
Qed.

Lemma encrypt_iv_inj this iv1 iv2 text :
  encrypt this iv1 text = encrypt this iv2 text → iv1 = iv2.
Proof.
  intros H. apply (f_equal (λ s, split s 58)) in H.
  rewrite !split_encrypt in H. injection H as H _. by apply toHex_inj.
Qed.

(** An unpaired surrogate is not preserved, whatever the cipher. *)
Lemma decrypt_encrypt_lone_surrogate `{!CryptoLaws C} this iv :
  length (key this) = 32 → length iv = 16 →
  decrypt this (encrypt this iv [0xD800%N]) = Ok [0xFFFD%N].
Proof. intros. by rewrite decrypt_encrypt_bytes. Qed.

(** C1, as amended: for a manager built from any key, every plaintext in
    which each surrogate code unit is paired, and two different 16-byte
    initialization vectors drawn by two calls of [encrypt], both payloads
    decrypt to the plaintext and the payloads differ. *)
Theorem decrypt_encrypt `{!CryptoLaws C} encryptionKey this text iv1 iv2 :
  new encryptionKey = Ok this →
  well_formed text = true →
  length iv1 = 16 → length iv2 = 16 → iv1 ≠ iv2 →
  decrypt this (encrypt this iv1 text) = Ok text ∧
  decrypt this (encrypt this iv2 text) = Ok text ∧
  encrypt this iv1 text ≠ encrypt this iv2 text.
Proof.
  intros Hnew Hw H1 H2 Hne. apply new_key_length in Hnew.
  rewrite !decrypt_encrypt_bytes, utf8_decode_encode by done.
  split; [done|]. split; [done|]. by intros ?%encrypt_iv_inj.
Qed.

(** C4: a payload is the hexadecimal forms of the initialization vector, of
    the authentication tag and of the ciphertext, separated by two colons:
    splitting it at colons gives exactly these three fields, each made of
    hexadecimal digits.  [decrypt] throws on every string that does not
    split into exactly three parts. *)
Theorem encrypt_three_fields_decrypt_rejects_others :
  (∀ this iv text,
     ∃ encrypted authTag,
       cipher (key this) iv (utf8_encode text) = (encrypted, authTag) ∧
       encrypt this iv text =
         toHex iv ++ js ":" ++ toHex authTag ++ js ":" ++ toHex encrypted ∧
       split (encrypt this iv text) 58 =
         [toHex iv; toHex authTag; toHex encrypted] ∧
       Forall (Forall (λ c, isHexDigit c = true))
         (split (encrypt this iv text) 58)) ∧
  (∀ this encrypted,
     length (split encrypted 58) ≠ 3 →
     decrypt this encrypted = Throw (js "Invalid encrypted format")).
Proof.
  split.
  - intros this iv text.
    destruct (cipher (key this) iv (utf8_encode text))
      as [encrypted authTag] eqn:Hc.
    exists encrypted, authTag. split; [done|].
    assert (split (encrypt this iv text) 58
            = [toHex iv; toHex authTag; toHex encrypted]) as Hs
      by (by rewrite split_encrypt, Hc).
    split; [unfold encrypt; by rewrite Hc|]. split; [done|].
    rewrite Hs. repeat constructor; apply toHex_digits.
  - intros this encrypted Hlen. unfold decrypt.
    by destruct (Nat.eqb_spec (length (split encrypted 58)) 3).
Qed.

End Manager.

Lemma isHexText_toHex buf : isHexText (toHex buf) = true.
Proof.
  unfold isHexText. apply andb_true_iff. split.
  - induction buf as [|b buf IH]; [done|]. by rewrite toHex_cons.
  - induction buf as [|b buf IH]; [done|].
    rewrite toHex_cons. cbn [forallb]. rewrite IH, andb_true_r.
    by destruct b.
Qed.

#[export] Instance reversing_crypto_laws : CryptoLaws reversing_crypto.
Proof.
  split.
  - intros password. simpl. unfold pad.
    rewrite length_take, length_app, length_replicate. lia.
  - intros key iv data encrypted authTag _ _ [= <- <-]. simpl.
    rewrite isHexText_toHex, fromHex_toHex. cbn [negb].
    rewrite bool_decide_eq_true_2 by done. by rewrite reverse_involutive.
Qed.

Lemma decrypt_encrypt_witness :
  let iv1 := replicate 16 "001"%byte in
  let iv2 := replicate 16 "002"%byte in
  ∃ this,
    new (js "secret") = Ok this ∧
    decrypt this (encrypt this iv1 (js "p@ss")) = Ok (js "p@ss") ∧
    decrypt this (encrypt this iv2 (js "p@ss")) = Ok (js "p@ss") ∧
    encrypt this iv1 (js "p@ss") ≠ encrypt this iv2 (js "p@ss").
Proof.
  eexists. split; [reflexivity|].
  apply (decrypt_encrypt (js "secret")); [reflexivity..|discriminate].
Defined.

(** C1, as stated, fails on the string made of one unpaired surrogate: it
    is encrypted as U+FFFD and comes back as U+FFFD. *)
Lemma decrypt_encrypt_unpaired_surrogate :
  ∃ this,
    new (js "secret") = Ok this ∧
    decrypt this (encrypt this (replicate 16 "001"%byte) [0xD800%N])
      = Ok [0xFFFD%N] ∧
    decrypt this (encrypt this (replicate 16 "001"%byte) [0xD800%N])
      ≠ Ok [0xD800%N].
Proof.
  eexists. split; [reflexivity|].
  rewrite decrypt_encrypt_lone_surrogate; [|reflexivity..].
  split; [done|discriminate].
Qed.

Lemma encrypt_three_fields_decrypt_rejects_others_witness :
  ∃ this,
    new (js "secret") = Ok this ∧
    decrypt this (js "00ff:abcd") = Throw (js "Invalid encrypted format").
Proof.
  eexists. split; [reflexivity|].
  apply encrypt_three_fields_decrypt_rejects_others. vm_compute. discriminate.
Defined.

End EncryptionManagerFacts.

(** ** FileManager *)

Module FileManagerFacts.
Import Buffer BufferFacts FileManager.

(** A text without line terminator. *)
Definition single_line (s : list N) : Prop :=
  Forall (λ c, isLineTerminator c = false) s.

(** A text that is empty or starts with a line terminator. *)
Definition at_line_end (s : list N) : Prop :=
  match s with
  | [] => True
  | c :: _ => isLineTerminator c = true
  end.

Lemma rest_of_line_spec s run after :
  rest_of_line s = (run, after) →
  s = run ++ after ∧ single_line run ∧ at_line_end after.
Proof.
  revert run after. induction s as [|c s IH]; intros run after;
    cbn [rest_of_line].
  - intros [= <- <-]. split_and!; [done|constructor|done].
  - destruct (isLineTerminator c) eqn:Hc.
    + intros [= <- <-]. split_and!; [done|constructor|done].
    + destruct (rest_of_line s) as [run' after']. intros [= <- <-].
      destruct (IH _ _ eq_refl) as (-> & Hrun & Hafter).
      split_and!; [done|by constructor|done].
Qed.

Lemma rest_of_line_app run after :
  single_line run → at_line_end after →
  rest_of_line (run ++ after) = (run, after).
Proof.
  intros Hrun Hafter. induction Hrun as [|c run Hc _ IH]; cbn [app].
  - destruct after as [|c after]; [done|]. cbn [rest_of_line].
    unfold at_line_end in Hafter. by rewrite Hafter.
  - cbn [rest_of_line]. by rewrite Hc, IH.
Qed.

Lemma startsWith_before_terminator r c t p :
  single_line p → isLineTerminator c = true →
  startsWith (r ++ c :: t) p = startsWith r p.
Proof.
  intros Hp Hc. revert r. induction Hp as [|a p Ha _ IH]; intros r; [done|].
  destruct r as [|b r]; simpl.
  - destruct (N.eqb_spec a c) as [->|_]; [congruence|done].
  - by rewrite IH.
Qed.

Lemma match_here_Some prefix s matched after :
  match_here prefix s = Some (matched, after) →
  s = matched ++ after ∧ at_line_end after ∧
  ∃ run, matched = prefix ++ run ∧ single_line run.
Proof.
  unfold match_here. destruct (startsWith s prefix) eqn:Hs; [|done].
  apply startsWith_prefix in Hs as [t ->]. rewrite drop_app_length.
  destruct (rest_of_line t) as [run after'] eqn:Ht. intros [= <- <-].
  apply rest_of_line_spec in Ht as (-> & Hrun & Hafter).
  split; [by rewrite (assoc app)|]. split; [done|]. by exists run.
Qed.

Lemma match_here_line prefix run after :
  single_line run → at_line_end after →
  match_here prefix (prefix ++ run ++ after) = Some (prefix ++ run, after).
Proof.
  intros Hrun Hafter. unfold match_here.
  by rewrite startsWith_app, drop_app_length, rest_of_line_app.
Qed.

Lemma match_here_None prefix s :
  match_here prefix s = None ↔ startsWith s prefix = false.
Proof.
  unfold match_here. destruct (startsWith s prefix); [|done].
  by destruct (rest_of_line _).
Qed.

Definition prepend (s : list N) (m : list N * list N * list N)
    : list N * list N * list N :=
  (s ++ m.1.1, m.1.2, m.2).

(** A search that fails on [s] goes on after the terminator that follows
    [s]. *)
Lemma exec_from_skip prefix ls s c t :
  single_line prefix → prefix ≠ [] → isLineTerminator c = true →
  exec_from prefix ls s = None →
  exec_from prefix ls (s ++ c :: t)
    = prepend (s ++ [c]) <$> exec_from prefix true t.
Proof.
  intros Hp Hne Hc. revert ls. induction s as [|x s IH]; intros ls Hs.
  - cbn [app exec_from].
    assert (match_here prefix (c :: t) = None) as ->.
    { apply match_here_None. destruct Hp as [|a p Ha _]; [done|]. simpl.
      destruct (N.eqb_spec a c) as [->|_]; [congruence|done]. }
    rewrite Hc. destruct ls; by destruct (exec_from prefix true t) as [[[??]?]|].
  - cbn [exec_from] in Hs. cbn [app exec_from].
    assert ((if ls then match_here prefix (x :: s ++ c :: t) else None) = None)
      as ->.
    { destruct ls; [|done]. apply match_here_None.
      change (x :: s ++ c :: t) with ((x :: s) ++ c :: t).
      rewrite startsWith_before_terminator by done.
      apply match_here_None. by destruct (match_here prefix (x :: s)) as [[??]|]. }
    assert (exec_from prefix (isLineTerminator x) s = None) as Hs'.
    { destruct (if ls then match_here prefix (x :: s) else None) as [[??]|];
        [done|]. by destruct (exec_from _ _ s) as [[[??]?]|]. }
    rewrite (IH _ Hs').
    by destruct (exec_from prefix true t) as [[[??]?]|].
Qed.

(** The shape of a successful search. *)
Lemma exec_from_Some prefix ls s before matched after :
  single_line prefix → prefix ≠ [] →
  exec_from prefix ls s = Some (before, matched, after) →
  s = before ++ matched ++ after ∧
  match_here prefix (matched ++ after) = Some (matched, after) ∧
  (before = [] ∧ ls = true ∨
   ∃ b c, before = b ++ [c] ∧ isLineTerminator c = true ∧
          exec_from prefix ls b = None).
Proof.
  intros Hp Hne. revert ls before.
  induction s as [|x s IH]; intros ls before; cbn [exec_from].
  - destruct ls; [|done].
    destruct (match_here prefix []) as [[m a]|] eqn:Hm; [|done].
    intros [= <- <- <-].
    destruct (match_here_Some _ _ _ _ Hm) as (Hs & _). rewrite <- Hs.
    eauto.
  - destruct (if ls then match_here prefix (x :: s) else None)
      as [[m a]|] eqn:Hm.
    + destruct ls; [|done]. intros [= <- <- <-].
      destruct (match_here_Some _ _ _ _ Hm) as (Hs & _). rewrite <- Hs.
      eauto.
    + destruct (exec_from prefix (isLineTerminator x) s)
        as [[[b m] a]|] eqn:Hrec; [|done].
      intros [= <- <- <-].
      destruct (IH _ _ Hrec) as (-> & Hhere & Hb).
      split; [done|]. split; [done|]. right.
      assert (exec_from prefix ls [] = None) as Hnil.
      { cbn [exec_from]. destruct ls; [|done].
        assert (match_here prefix [] = None) as ->; [|done].
        apply match_here_None. by destruct prefix. }
      destruct Hb as [[-> Hx]|(b' & c & -> & Hc & Hb')].
      * exists [], x. by repeat split.
      * exists (x :: b'), c. split; [done|]. split; [done|].
        cbn [exec_from]. rewrite Hb'.
        assert ((if ls then match_here prefix (x :: b') else None) = None)
          as ->; [|done].
        destruct ls; [|done]. apply match_here_None.
        rewrite <- (startsWith_before_terminator (x :: b') c (m ++ a))
          by done.
        rewrite <- (assoc app) in Hm. by apply match_here_None.
Qed.

Lemma GetSubstitution_plain matched before after replacement :
  36%N ∉ replacement →
  GetSubstitution matched before after replacement = replacement.
Proof.
  induction replacement as [|c r IH]; intros Hr; [done|].
  apply not_elem_of_cons in Hr as [Hc Hr]. cbn [GetSubstitution].
  destruct (N.eqb_spec c 36); [done|]. by rewrite IH.
Qed.

Lemma RegExp_line_Some key regex :
  RegExp_line key = Some regex →
  regex = key ++ js "=" ∧ 36%N ∉ key.
Proof.
  unfold RegExp_line. destruct (forallb _ key) eqn:Hk; [|done].
  intros [= <-]. split; [done|]. intros Hin.
  rewrite forallb_forall in Hk. apply list_elem_of_In, Hk in Hin.
  by vm_compute in Hin.
Qed.

Lemma exec_from_here prefix s matched after :
  match_here prefix s = Some (matched, after) →
  exec_from prefix true s = Some ([], matched, after).
Proof. intros Hm. destruct s; cbn [exec_from]; by rewrite Hm. Qed.

(** A search that succeeds finds the same place after the matched line has
    been replaced by another line that starts with the prefix. *)
Lemma exec_replaced prefix content before matched after run :
  single_line prefix → prefix ≠ [] → single_line run →
  exec prefix content = Some (before, matched, after) →
  exec prefix (before ++ (prefix ++ run) ++ after)
    = Some (before, prefix ++ run, after).
Proof.
  intros Hp Hne Hrun Hexec. unfold exec in *.
  destruct (exec_from_Some _ _ _ _ _ _ Hp Hne Hexec) as (_ & Hhere & Hb).
  assert (at_line_end after) as Hafter
    by (by destruct (match_here_Some _ _ _ _ Hhere) as (_ & ? & _)).
  assert (exec_from prefix true ((prefix ++ run) ++ after)
          = Some ([], prefix ++ run, after)) as Hnew.
  { apply exec_from_here. rewrite <- (assoc app). by apply match_here_line. }
  destruct Hb as [[-> _]|(b & c & -> & Hc & Hb)]; [done|].
  rewrite <- (assoc app). cbn [app].
  rewrite exec_from_skip, Hnew by done. unfold prepend. simpl.
  by rewrite app_nil_r.
Qed.

(** After a search that fails, the line appended is the match. *)
Lemma exec_appended prefix content run :
  single_line prefix → prefix ≠ [] → single_line run →
  exec prefix content = None →
  exec prefix (content ++ LF ++ prefix ++ run)
    = Some (content ++ LF, prefix ++ run, []).
Proof.
  intros Hp Hne Hrun Hexec. unfold exec in *. unfold LF. cbn [app].
  rewrite exec_from_skip by done.
  assert (exec_from prefix true (prefix ++ run) = Some ([], prefix ++ run, []))
    as ->.
  { apply exec_from_here.
    pose proof (match_here_line prefix run [] Hrun I) as Hm.
    by rewrite app_nil_r in Hm. }
  unfold prepend. simpl. by rewrite app_nil_r.
Qed.

Lemma isLineTerminator_unit c :
  isLineTerminator c = true → isSurrogate c = false ∧ (c < 0x10000)%N.
Proof.
  unfold isLineTerminator. rewrite !orb_true_iff, !N.eqb_eq.
  intros [[[->| ->]| ->]| ->]; by split.
Qed.

(** A replacement that is well formed keeps the text well formed: the
    match starts and ends at the limits of a line. *)
Lemma exec_well_formed prefix content before matched after line :
  single_line prefix → prefix ≠ [] →
  exec prefix content = Some (before, matched, after) →
  well_formed content = true → well_formed line = true →
  well_formed (before ++ line ++ after) = true.
Proof.
  intros Hp Hne Hexec Hw Hline.
  destruct (exec_from_Some _ _ _ _ _ _ Hp Hne Hexec) as (-> & Hhere & Hb).
  destruct (match_here_Some _ _ _ _ Hhere) as (_ & Hafter & _).
  assert (well_formed before = true ∧ well_formed (matched ++ after) = true)
    as [Hbefore Hrest].
  { destruct Hb as [[-> _]|(b & c & -> & Hc & _)]; [done|].
    destruct (isLineTerminator_unit c Hc) as [Hs Hlt].
    rewrite <- (assoc app) in Hw. cbn [app] in Hw.
    apply well_formed_cut in Hw as [Hb Hw]; [|done].
    rewrite well_formed_unit in Hw by done.
    split; [|done]. apply well_formed_app; [done|].
    by rewrite well_formed_unit. }
  assert (well_formed after = true) as Hafter'.
  { destruct after as [|c after]; [done|]. cbn in Hafter.
    destruct (isLineTerminator_unit c Hafter) as [Hs Hlt].
    by apply well_formed_cut in Hrest as [_ Hrest]. }
  by repeat apply well_formed_app.
Qed.

(** What is written is read back when every surrogate code unit of it is
    paired. *)
Lemma read_write this content disk :
  well_formed content = true → read this (write this content disk) = content.
Proof.
  intros Hw. unfold read, exists_, write. rewrite lookup_insert_eq.
  rewrite bool_decide_eq_true_2 by eauto. by apply utf8_decode_encode.
Qed.

Lemma read_well_formed this disk : well_formed (read this disk) = true.
Proof.
  unfold read. destruct (exists_ this disk); [|done].
  apply utf8_decode_well_formed.
Qed.

Lemma read_absent this disk : disk !! filePath this = None → read this disk = [].
Proof.
  intros H. unfold read, exists_. rewrite H.
  by rewrite bool_decide_eq_false_2 by (by intros [??]).
Qed.

(** [loadFile] parses what [read] returns. *)
Lemma loadFile_read this disk :
  EnvParser.loadFile disk (filePath this) = EnvParser.parse (read this disk).
Proof.
  unfold EnvParser.loadFile, read, exists_.
  destruct (disk !! filePath this) as [bytes|].
  - by rewrite bool_decide_eq_true_2 by eauto.
  - by rewrite bool_decide_eq_false_2 by (by intros [??]).
Qed.

Section Plain.
Variables key value : list N.
Hypothesis key_literal : is_Some (RegExp_line key).
Hypothesis key_single_line : single_line key.
Hypothesis value_single_line : single_line value.
Hypothesis value_no_dollar : 36%N ∉ value.

Lemma line_no_dollar : 36%N ∉ key ++ js "=" ++ value.
Proof.
  destruct key_literal as [regex [_ Hk]%RegExp_line_Some].
  rewrite !elem_of_app. intros [?|[Heq|?]]; [done| |done].
  by apply list_elem_of_singleton in Heq.
Qed.

Lemma prefix_single_line : single_line (key ++ js "=") ∧ key ++ js "=" ≠ [].
Proof.
  split; [|by destruct key].
  apply Forall_app. split; [done|]. by repeat constructor.
Qed.

(** On a key without pattern syntax and without line terminator, and a
    value without dollar sign and without line terminator: the first line
    that starts with [key=] is replaced by [key=value] where it stands; when
    there is none, a line feed and [key=value] are appended. *)
Lemma updateKey_content_plain content :
  updateKey_content content key value =
    Some match exec (key ++ js "=") content with
         | Some (before, matched, after) =>
             before ++ (key ++ js "=" ++ value) ++ after
         | None => content ++ LF ++ key ++ js "=" ++ value
         end.
Proof.
  unfold updateKey_content. destruct key_literal as [regex Hregex].
  rewrite Hregex. apply RegExp_line_Some in Hregex as [-> _].
  unfold test, replace.
  destruct (exec (key ++ js "=") content) as [[[before matched] after]|].
  - rewrite bool_decide_eq_true_2 by eauto.
    by rewrite GetSubstitution_plain by apply line_no_dollar.
  - by rewrite bool_decide_eq_false_2 by (by intros [??]).
Qed.

(** On such a key and value a second [updateKey] leaves the content as the
    first one made it. *)
Lemma updateKey_content_idempotent content content' :
  updateKey_content content key value = Some content' →
  updateKey_content content' key value = Some content'.
Proof.
  destruct prefix_single_line as [Hp Hne].
  rewrite !updateKey_content_plain. intros Heq%(inj Some). subst content'.
  destruct (exec (key ++ js "=") content)
    as [[[before matched] after]|] eqn:Hexec.
  - rewrite (assoc app key).
    rewrite (exec_replaced _ _ _ _ _ value Hp Hne value_single_line Hexec).
    by rewrite (assoc app key).
  - rewrite (assoc app key) at 1.
    rewrite (exec_appended _ _ value Hp Hne value_single_line Hexec).
    by rewrite app_nil_r, <- (assoc app content).
Qed.

(** On such a key and value, with every surrogate code unit paired, the
    text written has every surrogate code unit paired when the text read
    has. *)
Lemma updateKey_content_well_formed content content' :
  well_formed key = true → well_formed value = true →
  well_formed content = true →
  updateKey_content content key value = Some content' →
  well_formed content' = true.
Proof.
  intros Hk Hv Hc. destruct prefix_single_line as [Hp Hne].
  rewrite updateKey_content_plain. intros Heq%(inj Some). subst content'.
  assert (well_formed (key ++ js "=" ++ value) = true) as Hline
    by by repeat apply well_formed_app.
  destruct (exec (key ++ js "=") content)
    as [[[before matched] after]|] eqn:Hexec.
  - by apply (exec_well_formed _ _ _ _ _ _ Hp Hne Hexec).
  - by repeat apply well_formed_app.
Qed.

End Plain.

(** C3 at a value that holds [$$]: on an empty disk the first
    [updateKey] appends the line with the value as it is; the second one
    finds the line and writes the replacement text expanded, with a single
    dollar sign.  The second call changes the file, and the value stored is
    no longer the value given.  The files hold the contents as UTF-8; read
    back, they are the two contents. *)
Theorem updateKey_expands_dollar_patterns :
  let this := {| filePath := js ".env" |} in
  let disk1 :=
    {[js ".env" := Buffer.utf8_encode (LF ++ js "SECRET=pa$$word")]} in
  let disk2 :=
    {[js ".env" := Buffer.utf8_encode (LF ++ js "SECRET=pa$word")]} in
  updateKey this (js "SECRET") (js "pa$$word") ∅ = Some disk1 ∧
  updateKey this (js "SECRET") (js "pa$$word") disk1 = Some disk2 ∧
  disk1 ≠ disk2 ∧
  read this disk1 = LF ++ js "SECRET=pa$$word" ∧
  read this disk2 = LF ++ js "SECRET=pa$word".
Proof.
  split_and!.
  - vm_compute. reflexivity.
  - vm_compute. reflexivity.
  - intros Heq. apply (f_equal (λ d, d !! js ".env")) in Heq.
    rewrite !lookup_singleton_eq in Heq. vm_compute in Heq. discriminate.
  - vm_compute. reflexivity.
  - vm_compute. reflexivity.
Qed.

Lemma updateKey_content_idempotent_witness :
  updateKey_content (js "A=1" ++ LF ++ js "PORT=3000") (js "PORT") (js "8080")
    = Some (js "A=1" ++ LF ++ js "PORT=8080") ∧
  updateKey_content (js "A=1" ++ LF ++ js "PORT=8080") (js "PORT") (js "8080")
    = Some (js "A=1" ++ LF ++ js "PORT=8080").
Proof.
  assert (updateKey_content (js "A=1" ++ LF ++ js "PORT=3000") (js "PORT")
            (js "8080") = Some (js "A=1" ++ LF ++ js "PORT=8080")) as H
    by (vm_compute; reflexivity).
  split; [done|].
  apply (updateKey_content_idempotent (js "PORT") (js "8080")) in H;
    [done|by eexists|compute_done..].
Defined.

End FileManagerFacts.

(** ** TypeValidator *)

Module TypeValidatorFacts.
Import Types TypeValidator.

(** The host rounds exactly the integers that a port can be compared
    with. *)
Class RoundsSmallIntegers (H : Host) : Prop :=
  RoundMV_integer : ∀ z, (0 ≤ z ≤ 65536)%Z → RoundMV (inject_Z z) = ofZ z.

(** The host lowers ASCII letters as [asciiLower] does, and the lower case
    of a string with a code unit outside ASCII has a code unit outside ASCII
    or the letter k (from the Kelvin sign). *)
Class LowersASCII (H : Host) : Prop := {
  toLowerCase_ascii : ∀ s,
    Forall (λ c, isASCII c = true) s → toLowerCase s = asciiLower <$> s;
  toLowerCase_other : ∀ s,
    ¬ Forall (λ c, isASCII c = true) s →
    ¬ Forall (λ c, isASCII c = true ∧ c ≠ 107%N) (toLowerCase s)
}.

Section Validators.
Context {H : Host}.

Lemma validatePort_Ok value n :
  validatePort value = Ok n ↔
  Number value = n ∧ isNaN n = false ∧ lt n (ofZ 1) = false ∧
  gt n (ofZ 65535) = false.
Proof.
  unfold validatePort.
  destruct (isNaN (Number value)) eqn:Hn; cbn [orb].
  { split; [intros [=]|]. intros (<- & ? & _). congruence. }
  destruct (lt (Number value) (ofZ 1)) eqn:Hl; cbn [orb].
  { split; [intros [=]|]. intros (<- & _ & ? & _). congruence. }
  destruct (gt (Number value) (ofZ 65535)) eqn:Hg; cbn [orb].
  { split; [intros [=]|]. intros (<- & _ & _ & ?). congruence. }
  split; [by intros [= <-]|]. by intros (<- & _).
Qed.

(** C5: for the raw values 0, 65536 and abc [validatePort] throws; for 1,
    80 and 65535 it returns the number.  In general it returns a number
    exactly when the value converts to a number that is not NaN, not below 1
    and not above 65535. *)
Theorem validatePort_range `{!RoundsSmallIntegers H} :
  validatePort (VString (js "0")) = Throw (js "Invalid port number: 0") ∧
  validatePort (VString (js "65536"))
    = Throw (js "Invalid port number: 65536") ∧
  validatePort (VString (js "abc")) = Throw (js "Invalid port number: abc") ∧
  validatePort (VString (js "1")) = Ok (ofZ 1) ∧
  validatePort (VString (js "80")) = Ok (ofZ 80) ∧
  validatePort (VString (js "65535")) = Ok (ofZ 65535) ∧
  (∀ value n,
     validatePort value = Ok n ↔
     Number value = n ∧ isNaN n = false ∧ lt n (ofZ 1) = false ∧
     gt n (ofZ 65535) = false).
Proof.
  assert (∀ s z, (0 ≤ z ≤ 65536)%Z →
            StringToNumber s = RoundMV (inject_Z z) →
            validatePort (VString s) =
              if isNaN (ofZ z) || lt (ofZ z) (ofZ 1) || gt (ofZ z) (ofZ 65535)
              then Throw (js "Invalid port number: " ++ s) else Ok (ofZ z))
    as Hint.
  { intros s z Hz Hs. unfold validatePort. cbn [Number String]. rewrite Hs.
    rewrite (RoundMV_integer z Hz). reflexivity. }
  repeat apply conj.
  - rewrite (Hint (js "0") 0%Z); [done|lia|by vm_compute].
  - rewrite (Hint (js "65536") 65536%Z); [done|lia|by vm_compute].
  - by vm_compute.
  - rewrite (Hint (js "1") 1%Z); [done|lia|by vm_compute].
  - rewrite (Hint (js "80") 80%Z); [done|lia|by vm_compute].
  - rewrite (Hint (js "65535") 65535%Z); [done|lia|by vm_compute].
  - apply validatePort_Ok.
Qed.

(** C9: the empty string converts to 0 and is not refused as a number:
    [validateNumber] returns 0 for it whenever 0 is not below [min] and not
    above [max], for those of the two bounds that are set; it throws when 0
    is below [min] or above [max]. *)
Theorem validateNumber_empty_string config :
  Number (VString []) = ofZ 0 ∧
  ((∀ m, min config = Some m → lt (ofZ 0) m = false) →
   (∀ M, max config = Some M → gt (ofZ 0) M = false) →
   validateNumber (VString []) config = Ok (ofZ 0)) ∧
  ((∃ m, min config = Some m ∧ lt (ofZ 0) m = true) →
   ∃ m, min config = Some m ∧
        validateNumber (VString []) config
          = Throw (js "Number must be at least " ++ NumberToString m)).
Proof.
  split; [done|]. unfold validateNumber.
  change (Number (VString [])) with (ofZ 0). cbn [isNaN ofZ]. split.
  - intros Hmin Hmax.
    destruct (min config) as [m|]; [rewrite (Hmin m eq_refl)|];
      (destruct (max config) as [M|]; [by rewrite (Hmax M eq_refl)|done]).
  - intros (m & Hm & Hlt). exists m. split; [done|]. by rewrite Hm, Hlt.
Qed.

Definition plain (lit : list N) : Prop :=
  Forall (λ c, isASCII c = true ∧ c ≠ 107%N) lit ∧ asciiLower <$> lit = lit.

Lemma asciiLower_isASCII c : isASCII (asciiLower c) = isASCII c.
Proof.
  unfold asciiLower, isASCII.
  destruct (N.leb_spec 65 c), (N.leb_spec c 90); simpl; try done.
  destruct (N.ltb_spec (c + 32) 128), (N.ltb_spec c 128); (done || lia).
Qed.

Lemma toLowerCase_plain `{!LowersASCII H} s lit :
  plain lit → toLowerCase s = lit ↔ sameIgnoringCase s lit.
Proof.
  intros [Hlit Hlow]. unfold sameIgnoringCase. rewrite Hlow.
  destruct (decide (Forall (λ c, isASCII c = true) s)) as [Hs|Hs].
  - by rewrite toLowerCase_ascii.
  - split.
    + intros Heq. destruct (toLowerCase_other s Hs). by rewrite Heq.
    + intros Heq. destruct Hs. apply Forall_forall. intros c Hc.
      rewrite <- asciiLower_isASCII.
      assert (asciiLower c ∈ lit) as Hin
        by (rewrite <- Heq; by apply list_elem_of_fmap_2).
      rewrite Forall_forall in Hlit. by apply Hlit.
Qed.

Lemma plain_literals :
  plain (js "true") ∧ plain (js "1") ∧ plain (js "yes") ∧
  plain (js "false") ∧ plain (js "0") ∧ plain (js "no").
Proof.
  split_and!; (split; [compute_done|reflexivity]).
Qed.

(** C6: a raw string that is true, 1 or yes up to the case of its letters
    is coerced to true; one that is false, 0 or no up to the case of its
    letters is coerced to false; for any other string [validateBoolean]
    throws. *)
Theorem validateBoolean_ignores_case `{!LowersASCII H} (s : list N) :
  (sameIgnoringCase s (js "true") ∨ sameIgnoringCase s (js "1")
   ∨ sameIgnoringCase s (js "yes") →
   validateBoolean (VString s) = Ok true) ∧
  (sameIgnoringCase s (js "false") ∨ sameIgnoringCase s (js "0")
   ∨ sameIgnoringCase s (js "no") →
   validateBoolean (VString s) = Ok false) ∧
  (¬ (sameIgnoringCase s (js "true") ∨ sameIgnoringCase s (js "1")
      ∨ sameIgnoringCase s (js "yes")
      ∨ sameIgnoringCase s (js "false") ∨ sameIgnoringCase s (js "0")
      ∨ sameIgnoringCase s (js "no")) →
   validateBoolean (VString s) = Throw (js "Invalid boolean value: " ++ s)).
Proof.
  destruct plain_literals as (Pt & P1 & Py & Pf & P0 & Pn).
  assert (∀ lit, plain lit →
            bool_decide (toLowerCase s = lit)
              = bool_decide (asciiLower <$> s = asciiLower <$> lit)) as Hlit
    by (intros lit Hp; apply bool_decide_ext; by apply toLowerCase_plain).
  unfold validateBoolean, sameIgnoringCase. cbn [String].
  rewrite !Hlit by done.
  repeat case_bool_decide; cbn [orb]; split_and!; try done; try tauto;
    intros Hs; exfalso; destruct_or?; try tauto;
    repeat match goal with
    | Hx : _ = fmap asciiLower (js _) |- _ => vm_compute in Hx
    end; congruence.
Qed.

End Validators.

#[export] Instance exact_host_rounds : RoundsSmallIntegers exact_host.
Proof. by intros z _. Qed.

Lemma validatePort_range_witness :
  validatePort (VString (js "80")) = Ok (ofZ 80).
Proof.
  destruct (validatePort_range (H := exact_host)) as (_ & _ & _ & _ & H80 & _).
  exact H80.
Defined.

Lemma validateNumber_empty_string_witness :
  validateNumber (VString [])
    {| type := TNumber; required := None; default := None;
       description := None; example := None;
       min := Some (ofZ (-1)); max := Some (ofZ 10);
       enum := None; sensitive := None |} = Ok (ofZ 0).
Proof.
  apply (validateNumber_empty_string (H := exact_host)).
  - by intros m [= <-].
  - by intros M [= <-].
Defined.

#[export] Instance exact_host_lowers : LowersASCII exact_host.
Proof.
  split.
  - intros s Hs. induction Hs as [|c s Hc _ IH]; [done|].
    cbn [toLowerCase exact_host] in *. rewrite bind_cons, fmap_cons, IH.
    unfold isASCII in Hc. apply N.ltb_lt in Hc.
    destruct (N.eqb_spec c 0x212A); [lia|].
    destruct (N.eqb_spec c 0x130); [lia|]. done.
  - intros s Hs Hall. apply Hs. clear Hs.
    cbn [toLowerCase exact_host] in Hall.
    induction s as [|c s IH]; [constructor|].
    rewrite bind_cons in Hall. apply Forall_app in Hall as [Hc Hall].
    constructor; [|by apply IH]. clear IH Hall.
    destruct (N.eqb_spec c 0x212A).
    { apply Forall_cons in Hc as [[_ Hk] _]. done. }
    destruct (N.eqb_spec c 0x130).
    { apply Forall_cons in Hc as [_ Hc]. by apply Forall_cons in Hc as [[? _] _]. }
    apply Forall_cons in Hc as [[Hc _] _].
    by rewrite asciiLower_isASCII in Hc.
Qed.

Lemma validateBoolean_ignores_case_witness :
  validateBoolean (VString (js "YeS")) = Ok true ∧
  validateBoolean (VString (js "No")) = Ok false ∧
  validateBoolean (VString (js "maybe"))
    = Throw (js "Invalid boolean value: maybe").
Proof.
  split_and!.
  - apply (validateBoolean_ignores_case (H := exact_host)).
    right. right. reflexivity.
  - apply (validateBoolean_ignores_case (H := exact_host)).
    right. right. reflexivity.
  - apply (validateBoolean_ignores_case (H := exact_host) (js "maybe")).
    unfold sameIgnoringCase. intros H. destruct_or!; discriminate.
Defined.

End TypeValidatorFacts.

(** ** EnvGuardSwagger *)

Module EnvGuardSwaggerFacts.
Import Types EnvGuardSwagger.

Lemma visit_sensitive_only schema key props req :
  (∀ config, (key, config) ∈ schema → truthy (sensitive config) = true) →
  (foldl visit (props, req) schema).1 !! key = props !! key ∧
  (key ∈ (foldl visit (props, req) schema).2 → key ∈ req).
Proof.
  revert props req.
  induction schema as [|[k c] schema IH]; intros props req Hs; [done|].
  cbn [foldl]. unfold visit at 2 4.
  assert (∀ config, (key, config) ∈ schema → truthy (sensitive config) = true)
    as Hs' by (intros; apply Hs; by right).
  destruct (truthy (sensitive c)) eqn:Hc; [by apply IH|].
  assert (k ≠ key) as Hne.
  { intros ->. rewrite Hs in Hc; [done|by left]. }
  destruct (IH (setProperty props k
                  {| p_type := mapType (type c);
                     p_description := description c;
                     p_example := example c;
                     p_default := default c;
                     p_enum := enum c |})
               (if truthy (required c) then req ++ [k] else req) Hs')
    as [IH1 IH2].
  split.
  - by rewrite IH1, lookup_setProperty_ne.
  - intros Hin%IH2. destruct (truthy (required c)); [|done].
    apply elem_of_app in Hin as [?|Hin%list_elem_of_singleton]; [done|].
    by subst.
Qed.

Lemma entries_unique (schema : list (list N * EnvFieldConfig)) key c1 c2 :
  NoDup schema.*1 → (key, c1) ∈ schema → (key, c2) ∈ schema → c1 = c2.
Proof.
  intros Hnd H1 H2.
  apply (elem_of_list_to_map_1 (M := gmap (list N))) in H1, H2; [|done..].
  congruence.
Qed.

(** C7: in the document generated for a schema, whose keys are distinct, a
    field marked sensitive has no entry in [properties] and its name is not
    in [required], whether the field is required or not. *)
Theorem generateSwaggerDoc_excludes_sensitive
    (schema : list (list N * EnvFieldConfig)) key config :
  NoDup schema.*1 →
  (key, config) ∈ schema →
  sensitive config = Some true →
  properties (generateSwaggerDoc schema) !! key = None ∧
  key ∉ required_names (generateSwaggerDoc schema).
Proof.
  intros Hnd Hin Hs. unfold generateSwaggerDoc.
  destruct (visit_sensitive_only schema key ∅ []) as [Hp Hr].
  { intros c Hc. rewrite <- (entries_unique schema key config c) by done.
    by rewrite Hs. }
  destruct (foldl visit (∅, []) schema) as [props req]. simpl in *.
  split; [by rewrite Hp|]. intros Hk%Hr. by apply not_elem_of_nil in Hk.
Qed.

Definition field (t : EnvType) (req sens : option bool) : EnvFieldConfig :=
  {| type := t; required := req; default := None; description := None;
     example := None; min := None; max := None; enum := None;
     sensitive := sens |}.

Lemma generateSwaggerDoc_excludes_sensitive_witness :
  let schema := [(js "PORT", field TPort (Some true) None);
                 (js "JWT_SECRET", field TString (Some true) (Some true))] in
  properties (generateSwaggerDoc schema) !! js "JWT_SECRET" = None ∧
  js "JWT_SECRET" ∉ required_names (generateSwaggerDoc schema).
Proof.
  apply (generateSwaggerDoc_excludes_sensitive _ _
           (field TString (Some true) (Some true))).
  - compute_done.
  - right. left.
  - reflexivity.
Defined.

End EnvGuardSwaggerFacts.

(** ** EnvParser: white space, keys *)

Module EnvParserMore.
Import EnvParser EnvParserFacts TrimFacts.

(** Two lines that are equal once trimmed. *)
Definition same_trimmed (l l' : list N) : Prop := trim l = trim l'.

Lemma read_line_same l l' : same_trimmed l l' → read_line l = read_line l'.
Proof. unfold same_trimmed, read_line. by intros ->. Qed.

Lemma join_lines_same value rest rest' :
  Forall2 same_trimmed rest rest' →
  join_lines value rest = join_lines value rest'.
Proof.
  intros H. revert value.
  induction H as [|l l' rest rest' Hl _ IH]; intros value; [done|].
  cbn [join_lines]. by rewrite Hl, IH.
Qed.

Lemma assignments_from_same n lines lines' :
  Forall2 same_trimmed lines lines' →
  assignments_from n lines = assignments_from n lines'.
Proof.
  intros H. revert n.
  induction H as [|l l' rest rest' Hl Hrest IH]; intros n; [done|].
  cbn [assignments_from]. destruct n as [|n]; [|apply IH].
  rewrite (read_line_same l l' Hl).
  destruct (read_line l') as [[k v]|]; [|apply IH].
  rewrite (join_lines_same v rest rest' Hrest).
  destruct (join_lines v rest'). by rewrite IH.
Qed.

(** X1: white space at the start and at the end of a line, a carriage
    return before the line feed included, has no effect: two contents whose
    lines are pairwise equal once trimmed are parsed to the same object. *)
Theorem parse_same_trimmed_lines content content' :
  Forall2 same_trimmed (split content 10) (split content' 10) →
  parse content = parse content'.
Proof.
  intros H.
  change (parse_lines (split content 10) ∅ = parse_lines (split content' 10) ∅).
  rewrite !parse_lines_assignments. unfold assignments.
  by rewrite (assignments_from_same 0 _ _ H).
Qed.

Lemma parse_same_trimmed_lines_witness :
  parse (js "A=1" ++ [13%N; 10%N] ++ js "  B = two  " ++ [13%N; 10%N])
    = parse (js "A=1" ++ LF ++ js "B = two" ++ LF).
Proof.
  apply parse_same_trimmed_lines. each_line ltac:(vm_compute; reflexivity).
Defined.

Lemma last_assigned_elem key bs v :
  last_assigned key bs = Some v → (key, v) ∈ bs.
Proof.
  induction bs as [|[k w] bs IH]; [done|]. cbn [last_assigned].
  destruct (last_assigned key bs) as [w'|].
  - intros [= <-]. right. by apply IH.
  - destruct (decide (k = key)) as [->|]; [|done]. intros [= <-]. by left.
Qed.

Lemma assignments_from_line n lines key v :
  (key, v) ∈ assignments_from n lines →
  ∃ l v0, l ∈ lines ∧ read_line l = Some (key, v0).
Proof.
  revert n. induction lines as [|l rest IH]; intros n; cbn [assignments_from].
  - by intros ?%not_elem_of_nil.
  - assert (∀ m, (key, v) ∈ assignments_from m rest →
              ∃ l0 v0, l0 ∈ l :: rest ∧ read_line l0 = Some (key, v0)) as Hrest.
    { intros m (l0 & v0 & Hl0 & Hr)%IH. exists l0, v0. split; [by right|done]. }
    destruct n as [|n]; [|apply Hrest].
    destruct (read_line l) as [[k v0]|] eqn:Hl; [|apply Hrest].
    destruct (join_lines v0 rest) as [m w].
    intros [[= <- <-]|Hin]%elem_of_cons; [|by apply (Hrest m)].
    exists l, v0. split; [by left|done].
Qed.

(** What [read_line] returns comes from a trimmed line cut at its first
    [=]. *)
Lemma read_line_Some l key value :
  read_line l = Some (key, value) →
  ∃ k v, trim l = k ++ js "=" ++ v ∧ (61%N ∉ k) ∧
         startsWith (trim l) (js "#") = false ∧
         key = trim k ∧ value = unquote (trim v).
Proof.
  intros Hr. assert (Hr' := Hr). unfold read_line in Hr'.
  destruct (bool_decide (trim l = [])) eqn:Hnil; [done|].
  destruct (startsWith (trim l) (js "#")) eqn:Hc; [done|]. cbn [orb] in Hr'.
  destruct (includes (trim l) (js "=")) eqn:Hi; [|done]. clear Hr'.
  assert (61%N ∈ trim l) as Hin.
  { destruct (decide (61%N ∈ trim l)) as [|Hout]; [done|].
    apply includes_absent in Hout. change [61%N] with (js "=") in Hout.
    congruence. }
  apply list_elem_of_split_l in Hin as (k & v & Hl & Hk).
  exists k, v. split; [done|]. split; [done|]. split; [done|].
  rewrite (read_line_assign l k v Hl Hk Hc) in Hr. by injection Hr as <- <-.
Qed.

Lemma trim_head c s :
  isStrWhiteSpaceChar c = false → ∃ t, trim (c :: s) = c :: t.
Proof.
  intros Hc. unfold trim. rewrite trimStart_stop by done.
  by apply trimEnd_head.
Qed.

(** X2: every key of the parsed object is trimmed, holds no [=] and no line
    feed, does not start with [#], and is not [__proto__]. *)
Theorem parse_keys_well_formed content key value :
  parse content !! key = Some value →
  trimmed key ∧ (61%N ∉ key) ∧ (10%N ∉ key) ∧
  startsWith key (js "#") = false ∧ key ≠ js "__proto__".
Proof.
  change (parse content) with (parse_lines (split content 10) ∅).
  rewrite parse_lines_assignments. intros Hlook.
  assert (key ≠ js "__proto__") as Hproto.
  { intros ->. by rewrite assign_all_proto in Hlook. }
  rewrite assign_all_lookup in Hlook by done.
  destruct (last_assigned key (assignments (split content 10)))
    as [w|] eqn:Hlast; [|done].
  apply last_assigned_elem, assignments_from_line in Hlast
    as (l & v0 & Hl & Hr).
  apply read_line_Some in Hr as (k & v & Hline & Hk & Hc & -> & _).
  pose proof (trim_subseteq k) as Hsub.
  split; [apply trim_trimmed|]. split; [by intros ?%Hsub|]. split.
  { intros Hin%Hsub. apply (split_pieces _ _ _ Hl), trim_subseteq.
    rewrite Hline. set_solver. }
  split; [|done].
  destruct k as [|c k]; [done|].
  destruct (trim_trimmed l) as [Hhead _]. rewrite Hline in Hhead.
  cbn [app] in Hhead. destruct (trim_head c k Hhead) as [t ->].
  rewrite Hline in Hc. exact Hc.
Qed.

Lemma parse_keys_well_formed_witness :
  trimmed (js "DB URL") ∧ (61%N ∉ js "DB URL") ∧ (10%N ∉ js "DB URL") ∧
  startsWith (js "DB URL") (js "#") = false ∧ js "DB URL" ≠ js "__proto__".
Proof.
  apply (parse_keys_well_formed (js "  DB URL = x=y ") _ (js "x=y")).
  vm_compute. reflexivity.
Defined.

End EnvParserMore.

(** ** FileManager: the file line by line *)

Module FileManagerLines.
Import Buffer BufferFacts FileManager FileManagerFacts.

(** The first line that starts with [prefix] replaced by [line]; [None]
    when no line starts with [prefix]. *)
Fixpoint replace_first (prefix line : list N) (lines : list (list N))
    : option (list (list N)) :=
  match lines with
  | [] => None
  | l :: rest =>
      if startsWith l prefix then Some (line :: rest)
      else (λ rest', l :: rest') <$> replace_first prefix line rest
  end.

(** The lines after [key=value] has been set: the first line that starts
    with [prefix] is replaced, or the line is added at the end. *)
Definition update_lines (prefix line : list N) (lines : list (list N))
    : list (list N) :=
  match replace_first prefix line lines with
  | Some lines' => lines'
  | None => lines ++ [line]
  end.

(** A content whose only line terminators are line feeds. *)
Definition only_line_feeds (content : list N) : bool :=
  forallb (λ c, negb (isLineTerminator c) || (c =? 10)%N) content.

Lemma split_joinLF lines :
  lines ≠ [] → Forall (λ l, 10%N ∉ l) lines → split (joinLF lines) 10 = lines.
Proof.
  intros Hne Hl. induction Hl as [|l rest Hl Hrest IH]; [done|].
  destruct rest as [|r rest].
  - by apply split_no_sep.
  - rewrite joinLF_cons by done. unfold LF. cbn [app].
    rewrite split_app by done. by rewrite IH.
Qed.

Lemma joinLF_snoc lines line :
  lines ≠ [] → joinLF (lines ++ [line]) = joinLF lines ++ LF ++ line.
Proof.
  induction lines as [|l rest IH]; [done|]. intros _.
  destruct rest as [|r rest]; [done|].
  change ((l :: r :: rest) ++ [line]) with (l :: (r :: rest) ++ [line]).
  rewrite !joinLF_cons by done. rewrite IH by done.
  by rewrite <- !(assoc app).
Qed.

Lemma only_line_feeds_lines content :
  only_line_feeds content = true → Forall single_line (split content 10).
Proof.
  unfold only_line_feeds. induction content as [|c s IH]; cbn [forallb split].
  - intros _. repeat constructor.
  - intros [Hc Hs]%andb_true_iff. specialize (IH Hs).
    destruct (N.eqb_spec c 10) as [->|Hne].
    + constructor; [constructor|done].
    + rewrite orb_false_r in Hc. apply negb_true_iff in Hc.
      destruct (split s 10) as [|piece pieces]; [repeat constructor; done|].
      apply Forall_cons in IH as [Hp Hps].
      constructor; [by constructor|done].
Qed.

Lemma single_line_no_LF l : single_line l → 10%N ∉ l.
Proof.
  intros Hl Hin. unfold single_line in Hl. rewrite Forall_forall in Hl.
  by apply Hl in Hin.
Qed.

(** In a text without line terminator the pattern can only match at the
    start. *)
Lemma exec_from_single_line prefix ls s :
  single_line s → (ls = true → startsWith s prefix = false) →
  prefix ≠ [] → exec_from prefix ls s = None.
Proof.
  intros Hs. revert ls. induction Hs as [|c s Hc _ IH]; intros ls Hls Hne.
  - cbn [exec_from]. destruct ls; [|done].
    assert (match_here prefix [] = None) as ->; [|done].
    apply match_here_None. by destruct prefix.
  - cbn [exec_from].
    assert ((if ls then match_here prefix (c :: s) else None) = None) as ->.
    { destruct ls; [|done]. apply match_here_None. by apply Hls. }
    rewrite Hc. by rewrite IH.
Qed.

Lemma replace_first_nonempty prefix line lines lines' :
  replace_first prefix line lines = Some lines' → lines' ≠ [].
Proof.
  destruct lines as [|l rest]; [done|]. cbn [replace_first].
  destruct (startsWith l prefix); [by intros [= <-]|].
  destruct (replace_first prefix line rest); [by intros [= <-]|done].
Qed.

Lemma update_lines_elem prefix line lines l :
  l ∈ update_lines prefix line lines → l = line ∨ l ∈ lines.
Proof.
  unfold update_lines.
  destruct (replace_first prefix line lines) as [lines'|] eqn:Hr.
  - revert lines' Hr. induction lines as [|l0 rest IH]; intros lines'; [done|].
    cbn [replace_first]. destruct (startsWith l0 prefix).
    + intros [= <-] [->|Hl]%elem_of_cons; [by left|right; by right].
    + destruct (replace_first prefix line rest) as [rest'|]; [|done].
      intros [= <-] [->|Hl]%elem_of_cons; [right; by left|].
      destruct (IH rest' eq_refl Hl) as [->|Hin]; [by left|right; by right].
  - intros [Hl| ->%list_elem_of_singleton]%elem_of_app; [by right|by left].
Qed.

Lemma update_lines_nonempty prefix line lines :
  update_lines prefix line lines ≠ [].
Proof.
  unfold update_lines.
  destruct (replace_first prefix line lines) as [lines'|] eqn:Hr.
  - by apply replace_first_nonempty in Hr.
  - by destruct lines.
Qed.

(** The text that follows a line in the joined content. *)
Definition tail_text (rest : list (list N)) : list N :=
  match rest with
  | [] => []
  | _ :: _ => LF ++ joinLF rest
  end.

Lemma joinLF_tail l rest : joinLF (l :: rest) = l ++ tail_text rest.
Proof. destruct rest; [by rewrite app_nil_r|done]. Qed.

Lemma at_line_end_tail rest : at_line_end (tail_text rest).
Proof. by destruct rest. Qed.

(** The search on the joined lines finds the first line that starts with the
    prefix, and the replacement is the replacement of that line. *)
Lemma exec_joinLF prefix line lines :
  single_line prefix → prefix ≠ [] → Forall single_line lines →
  match exec prefix (joinLF lines) with
  | Some (before, matched, after) =>
      ∃ lines', replace_first prefix line lines = Some lines' ∧
                joinLF lines' = before ++ line ++ after
  | None => replace_first prefix line lines = None
  end.
Proof.
  intros Hp Hne Hlines. unfold exec.
  induction Hlines as [|l rest Hl Hrest IH].
  - cbn [joinLF exec_from]. rewrite (proj2 (match_here_None prefix []));
      [done|by destruct prefix].
  - rewrite joinLF_tail. cbn [replace_first].
    destruct (startsWith l prefix) eqn:Hstart.
    + apply startsWith_prefix in Hstart as [run ->].
      apply Forall_app in Hl as [_ Hrun].
      rewrite <- app_assoc.
      rewrite (exec_from_here _ _ _ _
                 (match_here_line prefix run _ Hrun (at_line_end_tail rest))).
      exists (line :: rest). split; [done|]. by rewrite joinLF_tail.
    + destruct rest as [|r rest].
      * cbn [tail_text]. rewrite app_nil_r.
        by rewrite exec_from_single_line.
      * change (tail_text (r :: rest)) with (10%N :: joinLF (r :: rest)).
        rewrite exec_from_skip;
          [|done|done|done|by apply exec_from_single_line].
        destruct (exec_from prefix true (joinLF (r :: rest)))
          as [[[before matched] after]|].
        -- destruct IH as (lines' & Hrep & Hjoin). rewrite Hrep.
           exists (l :: lines'). split; [done|].
           rewrite joinLF_cons by (by eapply replace_first_nonempty).
           rewrite Hjoin. unfold prepend, LF. cbn [fst snd].
           by rewrite <- !app_assoc.
        -- by rewrite IH.
Qed.

Section Plain.
Variables key value : list N.
Hypothesis key_literal : is_Some (RegExp_line key).
Hypothesis key_single_line : single_line key.
Hypothesis value_single_line : single_line value.
Hypothesis value_no_dollar : 36%N ∉ value.

Lemma updateKey_content_joinLF content :
  only_line_feeds content = true →
  updateKey_content content key value =
    Some (joinLF (update_lines (key ++ js "=") (key ++ js "=" ++ value)
                    (split content 10))).
Proof.
  intros Hlf%only_line_feeds_lines.
  destruct (prefix_single_line key key_literal key_single_line) as [Hp Hne].
  rewrite (updateKey_content_plain key value key_literal value_no_dollar).
  f_equal. unfold update_lines.
  pose proof (exec_joinLF (key ++ js "=") (key ++ js "=" ++ value)
                (split content 10) Hp Hne Hlf) as Hexec.
  rewrite joinLF_split in Hexec.
  destruct (exec (key ++ js "=") content) as [[[before matched] after]|].
  - by destruct Hexec as (lines' & -> & ->).
  - rewrite Hexec, joinLF_snoc by apply split_nonempty.
    by rewrite joinLF_split.
Qed.

Lemma updated_line_no_LF : 10%N ∉ key ++ js "=" ++ value.
Proof.
  apply single_line_no_LF, Forall_app. split; [done|].
  apply Forall_cons. by split.
Qed.

Lemma split_updated content :
  only_line_feeds content = true →
  split (joinLF (update_lines (key ++ js "=") (key ++ js "=" ++ value)
                   (split content 10))) 10
    = update_lines (key ++ js "=") (key ++ js "=" ++ value) (split content 10).
Proof.
  intros Hlf%only_line_feeds_lines.
  apply split_joinLF; [apply update_lines_nonempty|].
  apply Forall_forall. intros l [->|Hl]%update_lines_elem.
  - apply updated_line_no_LF.
  - rewrite Forall_forall in Hlf. by apply single_line_no_LF, Hlf.
Qed.

(** X3: on a key without pattern syntax or line terminator, a value
    without dollar sign or line terminator and a file whose only line
    terminators are line feeds, [updateKey] works on lines: the first line
    that starts with [key=] becomes [key=value] and every other line stays
    as it is, in place; when no line starts with [key=], the line
    [key=value] is added after the last line. *)
Theorem updateKey_content_lines content :
  only_line_feeds content = true →
  ∃ content',
    updateKey_content content key value = Some content' ∧
    split content' 10 =
      update_lines (key ++ js "=") (key ++ js "=" ++ value) (split content 10).
Proof.
  intros Hlf. eexists. split; [by apply updateKey_content_joinLF|].
  by apply split_updated.
Qed.

End Plain.

Section Idempotent.
Variables key value : list N.
Hypothesis key_literal : is_Some (RegExp_line key).
Hypothesis key_single_line : single_line key.
Hypothesis key_well_formed : well_formed key = true.
Hypothesis value_single_line : single_line value.
Hypothesis value_no_dollar : 36%N ∉ value.
Hypothesis value_well_formed : well_formed value = true.

(** X4: on a key without pattern syntax or line terminator and a value
    without dollar sign or line terminator, both with every surrogate code
    unit paired, a second [updateKey] with the same arguments leaves the
    disk as the first one made it, whatever bytes the file held before. *)
Theorem updateKey_idempotent this disk disk' :
  updateKey this key value disk = Some disk' →
  updateKey this key value disk' = Some disk'.
Proof.
  unfold updateKey.
  destruct (updateKey_content (read this disk) key value)
    as [content'|] eqn:Hupdate; [|done].
  intros [= <-].
  pose proof (updateKey_content_well_formed key value key_literal
                key_single_line value_no_dollar _ _ key_well_formed
                value_well_formed (read_well_formed this disk) Hupdate)
    as Hw.
  rewrite read_write by done.
  rewrite (updateKey_content_idempotent key value key_literal
             key_single_line value_single_line value_no_dollar _ _ Hupdate).
  unfold write. by rewrite insert_insert_eq.
Qed.

End Idempotent.

(** X5: when the file does not exist, [updateKey] creates it; the file holds,
    as UTF-8, an empty line followed by [key=value], the value written as
    it is.  Read back, the content is that text when every surrogate code
    unit of the key and of the value is paired. *)
Theorem updateKey_missing_file this key value disk :
  is_Some (RegExp_line key) →
  disk !! filePath this = None →
  ∃ disk',
    updateKey this key value disk = Some disk' ∧
    disk' = <[filePath this := utf8_encode (LF ++ key ++ js "=" ++ value)]>
              disk ∧
    (well_formed key = true → well_formed value = true →
     read this disk' = LF ++ key ++ js "=" ++ value).
Proof.
  intros [regex Hregex] Hdisk. eexists. split_and!; [|done|].
  - unfold updateKey. rewrite read_absent by done.
    unfold updateKey_content. rewrite Hregex.
    apply RegExp_line_Some in Hregex as [-> _].
    assert (test (key ++ js "=") [] = false) as ->; [|done].
    unfold test, exec. cbn [exec_from].
    rewrite (proj2 (match_here_None (key ++ js "=") [])); [|by destruct key].
    by rewrite bool_decide_eq_false_2 by (by intros [??]).
  - intros Hk Hv. apply (read_write this). by repeat apply well_formed_app.
Qed.

Lemma updateKey_content_lines_witness :
  ∃ content',
    updateKey_content (js "A=1" ++ LF ++ js "PORT=3000" ++ LF ++ js "B=2")
      (js "PORT") (js "8080") = Some content' ∧
    split content' 10 = [js "A=1"; js "PORT=8080"; js "B=2"].
Proof.
  apply (updateKey_content_lines (js "PORT") (js "8080")
           (ex_intro _ _ eq_refl));
    [compute_done..|reflexivity].
Defined.

Lemma updateKey_idempotent_witness :
  let this := {| filePath := js ".env" |} in
  let disk' : gmap (list N) (list byte) :=
    {[js ".env" := utf8_encode (js "PORT=8080")]} in
  updateKey this (js "PORT") (js "8080") disk' = Some disk'.
Proof.
  apply (updateKey_idempotent (js "PORT") (js "8080") (ex_intro _ _ eq_refl)
           ltac:(compute_done) eq_refl ltac:(compute_done)
           ltac:(compute_done) eq_refl {| filePath := js ".env" |}
           {[js ".env" := utf8_encode (js "PORT=3000")]}).
  vm_compute. reflexivity.
Defined.

Lemma updateKey_missing_file_witness :
  ∃ disk',
    updateKey {| filePath := js ".env" |} (js "PORT") (js "8080")
      (∅ : gmap (list N) (list byte)) = Some disk' ∧
    disk' = <[js ".env" := utf8_encode (LF ++ js "PORT=8080")]> ∅ ∧
    (well_formed (js "PORT") = true → well_formed (js "8080") = true →
     read {| filePath := js ".env" |} disk' = LF ++ js "PORT=8080").
Proof.
  apply (updateKey_missing_file {| filePath := js ".env" |});
    [by eexists|reflexivity].
Defined.

End FileManagerLines.

(** ** FileManager and EnvParser: a key written, then read *)

Module WrittenThenRead.
Import Buffer BufferFacts.
Import EnvParser EnvParserFacts FileManager FileManagerFacts.
Import TrimFacts EnvParserMore FileManagerLines.

(** The line gives a value to [key] when it is read on its own. *)
Definition assigns (key l : list N) : bool :=
  match read_line l with
  | Some (k, _) => bool_decide (k = key)
  | None => false
  end.

(** The value of the line ends with a backslash: the parser joins the next
    line to it. *)
Definition continued (l : list N) : bool :=
  match read_line l with
  | Some (_, v) => endsWith v BACKSLASH
  | None => false
  end.

Lemma trimEnd_stop s c t :
  reverse s = c :: t → isStrWhiteSpaceChar c = false → trimEnd s = s.
Proof.
  intros Hs Hc. unfold trimEnd. rewrite Hs, trimStart_stop by done.
  by rewrite <- Hs, reverse_involutive.
Qed.

Lemma trimEnd_after k c s :
  isStrWhiteSpaceChar c = false →
  trimEnd (k ++ c :: s) = k ++ c :: trimEnd s.
Proof.
  intros Hc. destruct (trimEnd_split s) as (w & Hs & Hw).
  rewrite Hs at 1.
  replace (k ++ c :: trimEnd s ++ w) with ((k ++ c :: trimEnd s) ++ w)
    by by rewrite <- app_assoc.
  rewrite trimEnd_blank by done.
  pose proof (trimEnd_last s) as Hlast.
  destruct (reverse (trimEnd s)) as [|d t] eqn:Hr.
  - apply (f_equal reverse) in Hr. rewrite reverse_involutive in Hr.
    rewrite Hr. apply (trimEnd_stop _ c (reverse k)); [|done].
    by rewrite reverse_app.
  - apply (trimEnd_stop _ d (t ++ c :: reverse k)); [|done].
    rewrite reverse_app, reverse_cons, Hr. by rewrite <- app_assoc.
Qed.

Lemma trim_trimEnd s : trim (trimEnd s) = trim s.
Proof.
  destruct (trimEnd_split s) as (w & Hs & Hw).
  rewrite Hs at 2.
  rewrite <- (trim_blank_around [] (trimEnd s) w); [done| |done].
  constructor.
Qed.

Lemma last_assigned_app key bs bs' :
  last_assigned key (bs ++ bs') =
    match last_assigned key bs' with
    | Some w => Some w
    | None => last_assigned key bs
    end.
Proof.
  induction bs as [|[k v] bs IH]; [simpl; by destruct (last_assigned key bs')|].
  cbn [app last_assigned]. rewrite IH.
  by destruct (last_assigned key bs').
Qed.

Lemma last_assigned_absent key lines :
  Forall (λ l, assigns key l = false) lines →
  last_assigned key (omap read_line lines) = None.
Proof.
  intros H. induction H as [|l rest Hl _ IH]; [done|].
  cbn [omap list_omap]. unfold assigns in Hl.
  destruct (read_line l) as [[k v]|]; [|done].
  cbn [last_assigned]. rewrite IH.
  apply bool_decide_eq_false in Hl. by destruct (decide (k = key)).
Qed.

(** A line that starts with [key=] assigns the rest of the line to
    [key]. *)
Lemma read_line_key key rest :
  trimmed key → 61%N ∉ key → startsWith key (js "#") = false →
  read_line (key ++ js "=" ++ rest) = Some (key, unquote (trim rest)).
Proof.
  intros Htrimmed Hequals Hhash.
  assert (trim (key ++ js "=" ++ rest) = key ++ js "=" ++ trimEnd rest) as Ht.
  { unfold trim.
    assert (trimStart (key ++ js "=" ++ rest) = key ++ js "=" ++ rest) as ->.
    { destruct Htrimmed as [Hhead _].
      destruct key as [|c k]; by apply trimStart_stop. }
    by apply (trimEnd_after key 61 rest). }
  rewrite (read_line_assign _ key (trimEnd rest) Ht Hequals).
  - by rewrite trimmed_trim, trim_trimEnd.
  - rewrite Ht. by destruct key as [|c k].
Qed.

Lemma assigns_key_line key l :
  trimmed key → 61%N ∉ key → startsWith key (js "#") = false →
  startsWith l (key ++ js "=") = true → assigns key l = true.
Proof.
  intros Htrimmed Hequals Hhash [rest ->]%startsWith_prefix. unfold assigns.
  rewrite <- app_assoc, read_line_key by done. by apply bool_decide_eq_true.
Qed.

(** The file written by [updateKey] is the file that [loadFile] parses,
    when every surrogate code unit of the text written is paired. *)
Lemma loadFile_updateKey this key value disk content' :
  well_formed content' = true →
  updateKey_content (read this disk) key value = Some content' →
  updateKey this key value disk = Some (write this content' disk) ∧
  loadFile (write this content' disk) (filePath this) = parse content'.
Proof.
  intros Hw Hupdate. unfold updateKey. rewrite Hupdate. split; [done|].
  by rewrite loadFile_read, read_write.
Qed.

Section Written.
Variables key value : list N.
Hypothesis key_literal : is_Some (RegExp_line key).
Hypothesis key_single_line : single_line key.
Hypothesis key_trimmed : trimmed key.
Hypothesis key_no_equals : 61%N ∉ key.
Hypothesis key_no_hash : startsWith key (js "#") = false.
Hypothesis key_not_proto : key ≠ js "__proto__".
Hypothesis key_well_formed : well_formed key = true.
Hypothesis value_single_line : single_line value.
Hypothesis value_no_dollar : 36%N ∉ value.
Hypothesis value_not_continued :
  endsWith (unquote (trim value)) BACKSLASH = false.
Hypothesis value_well_formed : well_formed value = true.

(** What the lines assign after the update, when at most one line assigns
    [key] and that line starts with [key=]. *)
Lemma last_assigned_update_lines lines k :
  Forall (λ l, assigns key l = true → startsWith l (key ++ js "=") = true)
    lines →
  length (List.filter (assigns key) lines) ≤ 1 →
  last_assigned k
    (omap read_line
       (update_lines (key ++ js "=") (key ++ js "=" ++ value) lines))
  = if decide (k = key) then Some (unquote (trim value))
    else last_assigned k (omap read_line lines).
Proof.
  intros Hstart Honce. unfold update_lines.
  destruct (replace_first (key ++ js "=") (key ++ js "=" ++ value) lines)
    as [lines'|] eqn:Hr.
  - revert lines' Hr Honce.
    induction Hstart as [|l rest Hl Hrest IH]; intros lines'; [done|].
    cbn [replace_first List.filter].
    destruct (startsWith l (key ++ js "=")) eqn:Hs.
    + intros Hlines'%(inj Some). subst lines'.
      rewrite (assigns_key_line key l key_trimmed key_no_equals key_no_hash
                 Hs).
      cbn [length]. intros Honce.
      assert (Forall (λ l, assigns key l = false) rest) as Hnone.
      { apply Forall_forall. intros l' Hl'.
        destruct (assigns key l') eqn:Ha; [|done].
        assert (l' ∈ List.filter (assigns key) rest) as Hin.
        { apply list_elem_of_In, filter_In. by rewrite <- list_elem_of_In. }
        destruct (List.filter (assigns key) rest); [|simpl in Honce; lia].
        by apply not_elem_of_nil in Hin. }
      apply (assigns_key_line key) in Hs; [|done..]. unfold assigns in Hs.
      cbn [omap list_omap]. rewrite read_line_key by done.
      destruct (read_line l) as [[k0 v0]|]; [|done].
      apply bool_decide_eq_true in Hs. subst k0. cbn [last_assigned].
      destruct (decide (k = key)) as [->|Hk].
      * rewrite (last_assigned_absent key rest Hnone).
        by destruct (decide (key = key)).
      * destruct (last_assigned k (omap read_line rest)); [done|].
        by destruct (decide (key = k)).
    + destruct (replace_first (key ++ js "=") (key ++ js "=" ++ value) rest)
        as [rest'|]; cbn [fmap option_fmap option_map]; [|done].
      intros Hlines'%(inj Some). subst lines'.
      assert (assigns key l = false) as Ha.
      { destruct (assigns key l) eqn:Ha'; [|done]. by specialize (Hl eq_refl). }
      rewrite Ha. intros Honce. specialize (IH rest' eq_refl Honce).
      cbn [omap list_omap]. unfold assigns in Ha.
      destruct (read_line l) as [[k0 v0]|]; [|done].
      apply bool_decide_eq_false in Ha. cbn [last_assigned]. rewrite IH.
      destruct (decide (k = key)) as [->|Hk]; [done|].
      done.
  - assert (Forall (λ l, assigns key l = false) lines) as Hnone.
    { clear Honce. induction Hstart as [|l rest Hl Hrest IH]; [constructor|].
      cbn [replace_first] in Hr.
      destruct (startsWith l (key ++ js "=")) eqn:Hs; [done|].
      destruct (replace_first (key ++ js "=") (key ++ js "=" ++ value) rest);
        cbn [fmap option_fmap option_map] in Hr; [done|].
      constructor; [|by apply IH].
      destruct (assigns key l) eqn:Ha'; [|done]. by specialize (Hl eq_refl). }
    rewrite omap_app, last_assigned_app.
    cbn [omap list_omap]. rewrite read_line_key by done. cbn [last_assigned].
    destruct (decide (k = key)) as [->|Hk].
    + by destruct (decide (key = key)).
    + by destruct (decide (key = k)) as [->|].
Qed.

(** What [parse] returns on the updated lines. *)
Lemma parse_updated content :
  only_line_feeds content = true →
  Forall (λ l, continued l = false) (split content 10) →
  Forall (λ l, assigns key l = true → startsWith l (key ++ js "=") = true)
    (split content 10) →
  length (List.filter (assigns key) (split content 10)) ≤ 1 →
  ∀ k,
    parse (joinLF (update_lines (key ++ js "=") (key ++ js "=" ++ value)
                     (split content 10))) !! k
    = if decide (k = key) then Some (unquote (trim value))
      else parse content !! k.
Proof.
  intros Hlf Hcont Hstart Honce k.
  set (updated := update_lines _ _ _).
  change (parse (joinLF updated))
    with (parse_lines (split (joinLF updated) 10) ∅).
  change (parse content) with (parse_lines (split content 10) ∅).
  rewrite !parse_lines_assignments.
  destruct (decide (k = js "__proto__")) as [->|Hk].
  { rewrite !assign_all_proto.
    by destruct (decide (js "__proto__" = key)) as [<-|]. }
  unfold updated. rewrite split_updated by done.
  rewrite !assign_all_lookup by done.
  rewrite !assignments_without_continuation.
  - rewrite last_assigned_update_lines by done.
    by destruct (decide (k = key)).
  - intros l k0 v0 Hl Hread. rewrite Forall_forall in Hcont.
    specialize (Hcont l Hl). unfold continued in Hcont.
    by rewrite Hread in Hcont.
  - intros l k0 v0 [->|Hl]%update_lines_elem Hread.
    + rewrite read_line_key in Hread by done. by injection Hread as <- <-.
    + rewrite Forall_forall in Hcont.
      specialize (Hcont l Hl). unfold continued in Hcont.
      by rewrite Hread in Hcont.
Qed.

(** X6: a key written with [updateKey] is read back by [loadFile], and
    the other keys keep the values that [loadFile] gave them before.  The
    key has no pattern syntax, no line terminator, no [=], no white space at
    its ends and no [#] at its start, and is not [__proto__]; the value has
    no dollar sign and no line terminator and, once trimmed and without its
    quotes, does not end with a backslash; every surrogate code unit of the
    key and of the value is paired.  The text of the file, empty when there
    is no file, has line feeds as its only line terminators and no
    continued value, at most one of its lines assigns the key, and that
    line starts with [key=].  The value read back is the value written,
    trimmed and with a pair of enclosing quotes removed. *)
Theorem loadFile_after_updateKey this disk :
  only_line_feeds (read this disk) = true →
  Forall (λ l, continued l = false) (split (read this disk) 10) →
  Forall (λ l, assigns key l = true → startsWith l (key ++ js "=") = true)
    (split (read this disk) 10) →
  length (List.filter (assigns key) (split (read this disk) 10)) ≤ 1 →
  ∃ disk',
    updateKey this key value disk = Some disk' ∧
    loadFile disk' (filePath this) !! key = Some (unquote (trim value)) ∧
    ∀ k, k ≠ key →
      loadFile disk' (filePath this) !! k = loadFile disk (filePath this) !! k.
Proof.
  intros Hlf Hcont Hstart Honce.
  pose proof (updateKey_content_joinLF key value key_literal key_single_line
                value_no_dollar _ Hlf) as Hupdate.
  pose proof (updateKey_content_well_formed key value key_literal
                key_single_line value_no_dollar _ _ key_well_formed
                value_well_formed (read_well_formed this disk) Hupdate)
    as Hw.
  destruct (loadFile_updateKey _ _ _ _ _ Hw Hupdate) as [Hdisk Hload].
  eexists. split; [exact Hdisk|]. rewrite Hload, (loadFile_read this disk).
  split.
  - rewrite parse_updated by done. by destruct (decide (key = key)).
  - intros k Hk. rewrite parse_updated by done. by destruct (decide (k = key)).
Qed.

End Written.

Lemma loadFile_after_updateKey_witness :
  let this := {| filePath := js ".env" |} in
  let disk : gmap (list N) (list byte) :=
    {[js ".env" :=
        utf8_encode (js "A=1" ++ LF ++ js "PORT=3000" ++ LF ++ js "B=2")]} in
  ∃ disk',
    updateKey this (js "PORT") (js " '8080' ") disk = Some disk' ∧
    loadFile disk' (js ".env") !! js "PORT" = Some (js "8080") ∧
    ∀ k, k ≠ js "PORT" →
      loadFile disk' (js ".env") !! k = loadFile disk (js ".env") !! k.
Proof.
  intros this disk.
  assert (read this disk
          = js "A=1" ++ LF ++ js "PORT=3000" ++ LF ++ js "B=2") as Hread
    by (vm_compute; reflexivity).
  apply (loadFile_after_updateKey (js "PORT") (js " '8080' ")
           (ex_intro _ _ eq_refl));
    rewrite ?Hread; [compute_done..| | |].
  - each_line ltac:(vm_compute; reflexivity).
  - each_line ltac:(vm_compute; done).
  - vm_compute. lia.
Defined.

End WrittenThenRead.

(** ** EnvParser: two files, one after the other *)

Module EnvParserLayers.
Import EnvParser EnvParserFacts TrimFacts EnvParserMore WrittenThenRead.

Lemma split_app_sep (a b : list N) (sep : N) :
  split (a ++ sep :: b) sep = split a sep ++ split b sep.
Proof.
  induction a as [|c a IH]; cbn [app split].
  - by rewrite N.eqb_refl.
  - rewrite IH. destruct (c =? sep)%N; [done|].
    pose proof (split_nonempty a sep) as Hne.
    by destruct (split a sep).
Qed.

Lemma assignments_app la lb :
  Forall (λ l, continued l = false) la →
  assignments (la ++ lb) = omap read_line la ++ assignments lb.
Proof.
  intros H. induction H as [|l la Hl _ IH]; [done|].
  cbn [app omap list_omap]. rewrite assignments_cons. unfold continued in Hl.
  destruct (read_line l) as [[key value]|]; [|done].
  rewrite join_lines_stop by done. rewrite drop_0. by rewrite IH.
Qed.

Lemma assign_all_app result bs bs' :
  assign_all result (bs ++ bs') = assign_all (assign_all result bs) bs'.
Proof. apply foldl_app. Qed.

(** X7: a file written after another one overrides it key by key: when no
    value of the first content is continued, the contents joined by a line
    feed are parsed to the object of the second content, completed by the
    keys that only the first content has. *)
Theorem parse_app a b :
  Forall (λ l, continued l = false) (split a 10) →
  parse (a ++ LF ++ b) = parse b ∪ parse a.
Proof.
  intros Ha. apply map_eq. intros key. rewrite lookup_union.
  change (parse (a ++ LF ++ b))
    with (parse_lines (split (a ++ 10%N :: b) 10) ∅).
  change (parse a) with (parse_lines (split a 10) ∅).
  change (parse b) with (parse_lines (split b 10) ∅).
  rewrite split_app_sep, !parse_lines_assignments, assignments_app by done.
  rewrite assign_all_app.
  destruct (decide (key = js "__proto__")) as [->|Hkey].
  { by rewrite !assign_all_proto, lookup_empty. }
  rewrite !assign_all_lookup by done. rewrite lookup_empty.
  assert (assignments (split a 10) = omap read_line (split a 10)) as ->.
  { rewrite <- (app_nil_r (split a 10)) at 1.
    rewrite assignments_app by done. apply app_nil_r. }
  destruct (last_assigned key (assignments (split b 10))) as [v|];
    by destruct (last_assigned key (omap read_line (split a 10))).
Qed.

Lemma parse_app_witness :
  parse (js "A=1" ++ LF ++ js "B=2" ++ LF ++ js "B=3" ++ LF ++ js "C=4")
    = parse (js "B=3" ++ LF ++ js "C=4") ∪ parse (js "A=1" ++ LF ++ js "B=2").
Proof.
  rewrite <- (parse_app (js "A=1" ++ LF ++ js "B=2")
                (js "B=3" ++ LF ++ js "C=4")).
  - by rewrite <- !app_assoc.
  - each_line ltac:(vm_compute; reflexivity).
Defined.

End EnvParserLayers.

(** ** EncryptionManager, FileManager and EnvParser: a secret stored in a
    file *)

Module StoredSecret.
Import Buffer BufferFacts EncryptionManager EncryptionManagerFacts.
Import EnvParser EnvParserFacts FileManager FileManagerFacts.
Import TrimFacts EnvParserMore FileManagerLines WrittenThenRead.

(** The characters of a payload: hexadecimal digits and the colon. *)
Definition payload_char (c : N) : bool := isHexDigit c || (c =? 58)%N.

Lemma payload_char_range c :
  payload_char c = true → (48 ≤ c ≤ 58 ∨ 97 ≤ c ≤ 102)%N.
Proof.
  unfold payload_char, isHexDigit.
  destruct (N.leb_spec 48 c), (N.leb_spec c 57), (N.leb_spec 97 c),
    (N.leb_spec c 102), (N.eqb_spec c 58); simpl; intros; try done; lia.
Qed.

Ltac decide_char :=
  repeat match goal with
         | |- context [(?a =? ?b)%N] => destruct (N.eqb_spec a b); [lia|]
         | |- context [(?a <=? ?b)%N] =>
             destruct (N.leb_spec a b); [try lia|try lia]
         end.

Lemma payload_char_plain c :
  payload_char c = true →
  isStrWhiteSpaceChar c = false ∧ isLineTerminator c = false ∧
  c ≠ 36%N ∧ c ≠ 34%N ∧ c ≠ 39%N ∧ c ≠ 92%N.
Proof.
  intros Hc%payload_char_range.
  unfold isStrWhiteSpaceChar, isWhiteSpace, isLineTerminator.
  split_and!; try lia; by decide_char.
Qed.

Section Payload.
Variable p : list N.
Hypothesis payload : Forall (λ c, payload_char c = true) p.

Lemma payload_head (P : N → Prop) :
  (∀ c, payload_char c = true → P c) →
  match p with [] => True | c :: _ => P c end ∧
  match reverse p with [] => True | c :: _ => P c end.
Proof.
  intros HP. split.
  - destruct payload; [done|by apply HP].
  - assert (Forall (λ c, payload_char c = true) (reverse p)) as Hr
      by by apply Forall_reverse.
    destruct Hr; [done|by apply HP].
Qed.

Lemma payload_trimmed : trimmed p.
Proof. apply payload_head. by intros c (? & _)%payload_char_plain. Qed.

Lemma payload_single_line : single_line p.
Proof.
  eapply Forall_impl; [exact payload|].
  by intros c (_ & ? & _)%payload_char_plain.
Qed.

Lemma payload_no_dollar : 36%N ∉ p.
Proof.
  intros Hin. pose proof payload as H. rewrite Forall_forall in H.
  by apply H, payload_char_plain in Hin as (_ & _ & ? & _).
Qed.

Lemma payload_unquote : unquote p = p.
Proof.
  destruct (payload_head (λ c, c ≠ 34%N ∧ c ≠ 39%N)) as [Hhead _].
  { by intros c (_ & _ & _ & ? & ? & _)%payload_char_plain. }
  unfold unquote, DQUOTE, SQUOTE. destruct p as [|c t]; [done|].
  destruct Hhead as [H34 H39]. cbn [startsWith].
  destruct (N.eqb_spec 34 c); [done|]. by destruct (N.eqb_spec 39 c).
Qed.

Lemma payload_well_formed : well_formed p = true.
Proof.
  pose proof payload as H. induction H as [|c t Hc Ht IH]; [done|].
  apply payload_char_range in Hc.
  rewrite well_formed_unit; [exact (IH Ht)| |lia].
  unfold isSurrogate, isHighSurrogate, isLowSurrogate.
  rewrite orb_false_iff, !andb_false_iff, !N.leb_gt. lia.
Qed.

Lemma payload_no_backslash : endsWith p BACKSLASH = false.
Proof.
  destruct (payload_head (λ c, c ≠ 92%N)) as [_ Hlast].
  { by intros c (_ & _ & _ & _ & _ & ?)%payload_char_plain. }
  unfold endsWith, BACKSLASH. change (reverse [92%N]) with [92%N].
  destruct (reverse p) as [|c t]; [done|]. cbn [startsWith].
  destruct (N.eqb_spec 92 c); [congruence|done].
Qed.

End Payload.

Section Manager.
Context {C : Crypto}.

Lemma encrypt_payload this iv text :
  Forall (λ c, payload_char c = true) (encrypt this iv text).
Proof.
  unfold encrypt. destruct (cipher _ _ _) as [encrypted authTag].
  assert (∀ buf, Forall (λ c, payload_char c = true) (toHex buf)) as Hhex.
  { intros buf. eapply Forall_impl; [apply toHex_digits|].
    intros c Hc. unfold payload_char. by rewrite Hc. }
  repeat (apply Forall_app; split); try apply Hhex; by repeat constructor.
Qed.

(** X8: a secret encrypted, written under a key with [updateKey], read
    back with [loadFile] and decrypted is the secret: the payload holds no
    character that the file format or the replacement treats specially.
    The manager is built from a key that is not empty, the initialization
    vector has 16 bytes, and every surrogate code unit of the secret is
    paired.  The key has no pattern syntax, no line terminator, no [=], no
    white space at its ends and no [#] at its start, is not [__proto__],
    and every surrogate code unit of it is paired.  The text of the file,
    empty when there is no file, has line feeds as its only line
    terminators and no continued value, at most one of its lines assigns
    the key, and that line starts with [key=]. *)
Theorem decrypt_loadFile_updateKey `{!CryptoLaws C}
    encryptionKey manager iv text this key disk :
  new encryptionKey = Ok manager → length iv = 16 →
  well_formed text = true →
  is_Some (RegExp_line key) → single_line key → trimmed key →
  61%N ∉ key → startsWith key (js "#") = false → key ≠ js "__proto__" →
  well_formed key = true →
  only_line_feeds (read this disk) = true →
  Forall (λ l, continued l = false) (split (read this disk) 10) →
  Forall (λ l, assigns key l = true → startsWith l (key ++ js "=") = true)
    (split (read this disk) 10) →
  length (List.filter (assigns key) (split (read this disk) 10)) ≤ 1 →
  ∃ disk' stored,
    updateKey this key (encrypt manager iv text) disk = Some disk' ∧
    loadFile disk' (filePath this) !! key = Some stored ∧
    decrypt manager stored = Ok text.
Proof.
  intros Hnew%new_key_length Hiv Htext Hlit Hline Htrim Heq Hhash Hproto
    Hkey Hlf Hcont Hstart Honce.
  pose proof (encrypt_payload manager iv text) as Hp.
  pose proof (payload_trimmed _ Hp) as Hpt.
  pose proof (payload_single_line _ Hp) as Hpl.
  pose proof (payload_no_dollar _ Hp) as Hpd.
  pose proof (payload_well_formed _ Hp) as Hpw.
  assert (unquote (trim (encrypt manager iv text)) = encrypt manager iv text)
    as Hsame.
  { rewrite trimmed_trim by done. by apply payload_unquote. }
  pose proof (updateKey_content_joinLF key _ Hlit Hline Hpd _ Hlf)
    as Hupdate.
  pose proof (updateKey_content_well_formed key _ Hlit Hline Hpd _ _ Hkey
                Hpw (read_well_formed this disk) Hupdate) as Hw.
  destruct (loadFile_updateKey _ _ _ _ _ Hw Hupdate) as [Hdisk Hload].
  eexists. exists (encrypt manager iv text).
  split; [exact Hdisk|]. split.
  - rewrite Hload, parse_updated; try done.
    + rewrite Hsame. by destruct (decide (key = key)).
    + rewrite Hsame. by apply payload_no_backslash.
  - rewrite decrypt_encrypt_bytes by done. by rewrite utf8_decode_encode.
Qed.

End Manager.

Lemma decrypt_loadFile_updateKey_witness :
  let this := {| filePath := js ".env" |} in
  let disk : gmap (list N) (list byte) :=
    {[js ".env" := utf8_encode (js "A=1" ++ LF ++ js "TOKEN=old")]} in
  ∃ manager disk' stored,
    new (js "master") = Ok manager ∧
    updateKey this (js "TOKEN")
      (encrypt manager (replicate 16 "001"%byte) (js "p@ss")) disk
      = Some disk' ∧
    loadFile disk' (js ".env") !! js "TOKEN" = Some stored ∧
    decrypt manager stored = Ok (js "p@ss").
Proof.
  intros this disk. eexists.
  assert (read this disk = js "A=1" ++ LF ++ js "TOKEN=old") as Hread
    by (vm_compute; reflexivity).
  destruct (decrypt_loadFile_updateKey (js "master") _
              (replicate 16 "001"%byte) (js "p@ss") this (js "TOKEN") disk
              eq_refl eq_refl eq_refl (ex_intro _ _ eq_refl))
    as (disk' & stored & H);
    rewrite ?Hread;
    [compute_done..| | | |by exists disk', stored].
  - each_line ltac:(vm_compute; reflexivity).
  - each_line ltac:(vm_compute; done).
  - vm_compute. lia.
Defined.

End StoredSecret.

(** ** EnvGuardSwagger: what the document lists *)

Module EnvGuardSwaggerMore.
Import Types EnvGuardSwagger EnvGuardSwaggerFacts.

(** The entry of [properties] made from a field. *)
Definition property_of (config : EnvFieldConfig) : Property :=
  {| p_type := mapType (type config);
     p_description := description config;
     p_example := example config;
     p_default := default config;
     p_enum := enum config |}.

(** A field whose name goes to [required]. *)
Definition listed (entry : list N * EnvFieldConfig) : bool :=
  negb (truthy (sensitive entry.2)) && truthy (required entry.2).

Lemma visit_snoc schema k c :
  foldl visit (∅, []) (schema ++ [(k, c)]) =
    let acc := foldl visit (∅, []) schema in
    if truthy (sensitive c) then acc
    else (setProperty acc.1 k (property_of c),
          if truthy (required c) then acc.2 ++ [k] else acc.2).
Proof.
  rewrite foldl_app. cbn [foldl].
  destruct (foldl visit (∅, []) schema) as [props req]. unfold visit.
  by destruct (truthy (sensitive c)).
Qed.

(** X9: the document describes exactly the fields that are not marked
    sensitive: for a schema whose keys are distinct, [properties] has an
    entry under a key exactly when the schema has a field of that name
    which is not sensitive, the key [__proto__] apart, and the entry holds
    the mapped type, the description, the example, the default and the
    enumeration of that field. *)
Theorem generateSwaggerDoc_properties
    (schema : list (list N * EnvFieldConfig)) key property :
  NoDup schema.*1 →
  properties (generateSwaggerDoc schema) !! key = Some property ↔
  key ≠ js "__proto__" ∧
  ∃ config, (key, config) ∈ schema ∧ truthy (sensitive config) = false ∧
            property = property_of config.
Proof.
  unfold generateSwaggerDoc.
  assert (∀ acc : gmap (list N) Property * list (list N),
            properties (let '(props, req) := acc in
                        {| env_type := js "object"; properties := props;
                           required_names := req |}) = acc.1) as ->
    by by intros [??].
  induction schema as [|[k c] schema IH] using rev_ind; intros Hnd.
  { simpl. rewrite lookup_empty. split; [done|].
    by intros (_ & config & ?%not_elem_of_nil & _). }
  rewrite fmap_app in Hnd. apply NoDup_app in Hnd as (Hnd & Hk & _).
  specialize (IH Hnd).
  assert (k ∉ schema.*1) as Hfresh.
  { intros Hin. apply (Hk k Hin). by left. }
  rewrite visit_snoc. cbn zeta.
  destruct (truthy (sensitive c)) eqn:Hc.
  - rewrite IH. split; intros (Hp & config & Hin & Hs & Hprop).
    + split; [done|]. exists config. split; [|done].
      apply elem_of_app. by left.
    + split; [done|]. exists config. split; [|done].
      apply elem_of_app in Hin as [?|Heq%list_elem_of_singleton]; [done|].
      injection Heq as -> ->. congruence.
  - cbn [fst]. rewrite lookup_setProperty. case_bool_decide as Hkey.
    + destruct Hkey as [-> Hp]. split.
      * intros [= <-]. split; [done|]. exists c. split; [|done].
        apply elem_of_app. right. by left.
      * intros (_ & config & Hin & _ & ->). do 2 f_equal.
        apply elem_of_app in Hin as [Hin|Heq%list_elem_of_singleton].
        -- destruct Hfresh. apply list_elem_of_fmap. by exists (key, config).
        -- by injection Heq as ->.
    + rewrite IH. split; intros (Hp & config & Hin & Hs & Hprop).
      * split; [done|]. exists config. split; [|done].
        apply elem_of_app. by left.
      * split; [done|]. exists config. split; [|done].
        apply elem_of_app in Hin as [?|Heq%list_elem_of_singleton]; [done|].
        injection Heq as -> ->. destruct Hkey. by split.
Qed.

(** X10: [required] lists the names of the fields that are required and not
    sensitive, in the order of the schema, each once per field. *)
Theorem generateSwaggerDoc_required (schema : list (list N * EnvFieldConfig)) :
  required_names (generateSwaggerDoc schema) = (List.filter listed schema).*1.
Proof.
  unfold generateSwaggerDoc.
  assert (∀ acc : gmap (list N) Property * list (list N),
            required_names (let '(props, req) := acc in
                            {| env_type := js "object"; properties := props;
                               required_names := req |}) = acc.2) as ->
    by by intros [??].
  induction schema as [|[k c] schema IH] using rev_ind; [done|].
  rewrite visit_snoc, List.filter_app, fmap_app, <- IH. cbn zeta.
  assert (listed (k, c)
            = negb (truthy (sensitive c)) && truthy (required c)) as Hl by done.
  cbn [List.filter]. rewrite Hl.
  destruct (truthy (sensitive c)); [by rewrite app_nil_r|].
  destruct (truthy (required c)); [done|by rewrite app_nil_r].
Qed.

Lemma generateSwaggerDoc_properties_witness :
  let schema := [(js "PORT", field TPort (Some true) None);
                 (js "JWT_SECRET", field TString (Some true) (Some true))] in
  properties (generateSwaggerDoc schema) !! js "PORT"
    = Some (property_of (field TPort (Some true) None)).
Proof.
  intros schema.
  apply (generateSwaggerDoc_properties schema); [compute_done|].
  split; [done|]. exists (field TPort (Some true) None).
  split; [by left|done].
Defined.

End EnvGuardSwaggerMore.

(** ** TypeValidator: e-mail addresses, blank strings, ranges *)

Module TypeValidatorMore.
Import Types TypeValidator TypeValidatorFacts Email TrimFacts.

Lemma plus_spec p k s :
  plus p k s = true ↔
  ∃ run rest, s = run ++ rest ∧ run ≠ [] ∧
              Forall (λ c, p c = true) run ∧ k rest = true.
Proof.
  induction s as [|c s IH]; cbn [plus].
  - split; [done|]. intros (run & rest & Hs & Hne & _).
    symmetry in Hs. by apply app_eq_nil in Hs as [-> _].
  - rewrite andb_true_iff, orb_true_iff, IH. split.
    + intros [Hc [(run & rest & -> & _ & Hrun & Hk)|Hk]].
      * exists (c :: run), rest. split_and!; [done|done| |done].
        by constructor.
      * exists [c], s. split_and!; [done|done| |done]. by repeat constructor.
    + intros (run & rest & Hs & Hne & Hrun & Hk).
      destruct run as [|d run]; [done|]. injection Hs as <- ->.
      apply Forall_cons in Hrun as [Hc Hrun]. split; [done|].
      destruct run as [|e run]; [by right|]. left.
      exists (e :: run), rest. by split_and!.
Qed.

(** The strings that [emailRegex] matches. *)
Lemma emailRegex_spec s :
  match_terms emailRegex s = true ↔
  ∃ a b c, s = a ++ js "@" ++ b ++ js "." ++ c ∧
           a ≠ [] ∧ b ≠ [] ∧ c ≠ [] ∧
           Forall (λ ch, notSpaceAt ch = true) (a ++ b ++ c).
Proof.
  unfold emailRegex. cbn [match_terms]. rewrite plus_spec. split.
  - intros (a & r1 & -> & Ha & Hpa & Hk).
    destruct r1 as [|at_ r1]; [done|].
    apply andb_true_iff in Hk as [<-%N.eqb_eq Hk].
    apply plus_spec in Hk as (b & r2 & -> & Hb & Hpb & Hk).
    destruct r2 as [|dot r2]; [done|].
    apply andb_true_iff in Hk as [<-%N.eqb_eq Hk].
    apply plus_spec in Hk as (c & r3 & -> & Hc & Hpc & ->%bool_decide_eq_true).
    exists a, b, c. rewrite app_nil_r. split_and!; try done.
    by rewrite !Forall_app.
  - intros (a & b & c & -> & Ha & Hb & Hc & Hall).
    apply Forall_app in Hall as [Hpa Hall].
    apply Forall_app in Hall as [Hpb Hpc].
    exists a, (js "@" ++ b ++ js "." ++ c). split_and!; try done.
    change (js "@" ++ b ++ js "." ++ c) with (64%N :: b ++ js "." ++ c).
    apply andb_true_iff. split; [done|]. apply plus_spec.
    exists b, (js "." ++ c). split_and!; try done.
    change (js "." ++ c) with (46%N :: c).
    apply andb_true_iff. split; [done|]. apply plus_spec.
    exists c, []. rewrite app_nil_r. split_and!; try done.
Qed.

Lemma lt_cotransitive a m M :
  isNaN a = false → lt M m = true → lt a m = true ∨ gt a M = true.
Proof.
  unfold gt.
  destruct a as [|[]|x], m as [|[]|y], M as [|[]|z]; cbn;
    try done; try (by left); try (by right).
  rewrite !negb_true_iff. intros _ Hyz.
  destruct (Qle_bool y x) eqn:Hyx; [right|by left].
  destruct (Qle_bool x z) eqn:Hxz; [|done].
  apply Qle_bool_iff in Hyx, Hxz.
  assert (Qle_bool y z = true) as Hc
    by (apply Qle_bool_iff; by apply Qle_trans with x).
  congruence.
Qed.

Section Validators.
Context {H : Host}.

(** X11: [validateEmail] returns the string form of the value exactly when
    it is made of three non-empty runs of characters that are neither white
    space nor [@], with an [@] between the first two and a dot between the
    last two; otherwise it throws.  The runs may hold dots. *)
Theorem validateEmail_Ok value str :
  validateEmail value = Ok str ↔
  str = String value ∧
  ∃ a b c, str = a ++ js "@" ++ b ++ js "." ++ c ∧
           a ≠ [] ∧ b ≠ [] ∧ c ≠ [] ∧
           Forall (λ ch, isStrWhiteSpaceChar ch = false ∧ ch ≠ 64%N)
             (a ++ b ++ c).
Proof.
  assert (∀ s, Forall (λ ch, notSpaceAt ch = true) s ↔
               Forall (λ ch, isStrWhiteSpaceChar ch = false ∧ ch ≠ 64%N) s)
    as Hclass.
  { intros s. apply Forall_proper; [|done]. intros ch. unfold notSpaceAt.
    rewrite negb_true_iff, orb_false_iff.
    by destruct (N.eqb_spec ch 64); intuition. }
  unfold validateEmail.
  destruct (match_terms emailRegex (String value)) eqn:Hm; cbn [negb].
  - apply emailRegex_spec in Hm as (a & b & c & Hs & Ha & Hb & Hc & Hall).
    split; [intros [= <-]|by intros [-> _]].
    split; [done|]. exists a, b, c. by rewrite <- Hclass.
  - split; [done|]. intros [-> (a & b & c & Hs & Ha & Hb & Hc & Hall)].
    assert (match_terms emailRegex (String value) = true); [|congruence].
    apply emailRegex_spec. exists a, b, c. by rewrite Hclass.
Qed.

Lemma StringToNumber_blank s : blank s → StringToNumber s = ofZ 0.
Proof. intros Hs. unfold StringToNumber. by rewrite trim_blank. Qed.

(** X12: a string of white space only converts to 0: [validateNumber]
    handles it as the number 0, and [validatePort] throws. *)
Theorem validators_blank_string s config :
  blank s →
  validateNumber (VString s) config = validateNumber (VNumber (ofZ 0)) config ∧
  validatePort (VString s) = Throw (js "Invalid port number: " ++ s).
Proof.
  intros Hs. unfold validateNumber, validatePort. cbn [Number String].
  by rewrite StringToNumber_blank.
Qed.

(** X13: a range whose [max] is below its [min] accepts no value:
    [validateNumber] throws whatever the value is. *)
Theorem validateNumber_empty_range value config m M :
  min config = Some m → max config = Some M → lt M m = true →
  ∃ message, validateNumber value config = Throw message.
Proof.
  intros Hm HM Hlt. unfold validateNumber. rewrite Hm, HM.
  destruct (isNaN (Number value)) eqn:Hn; [by eexists|].
  destruct (lt_cotransitive _ _ _ Hn Hlt) as [-> | Hgt]; [by eexists|].
  rewrite Hgt. destruct (lt (Number value) m); by eexists.
Qed.

End Validators.

Lemma validateEmail_Ok_witness :
  validateEmail (H := exact_host) (VString (js "a@.b.c")) = Ok (js "a@.b.c").
Proof.
  apply (validateEmail_Ok (H := exact_host)). split; [done|].
  exists (js "a"), (js ".b"), (js "c"). split_and!; try done.
  repeat (constructor; [done|]). constructor.
Defined.

Lemma validators_blank_string_witness :
  validatePort (H := exact_host) (VString (js "  "))
    = Throw (js "Invalid port number:   ").
Proof.
  apply (validators_blank_string (H := exact_host) (js "  ")
           (EnvGuardSwaggerFacts.field TPort None None)).
  by repeat constructor.
Defined.

Lemma validateNumber_empty_range_witness :
  ∃ message,
    validateNumber (H := exact_host) (VString (js "5"))
      {| type := TNumber; required := None; default := None;
         description := None; example := None;
         min := Some (ofZ 10); max := Some (ofZ 1);
         enum := None; sensitive := None |} = Throw message.
Proof.
  by apply (validateNumber_empty_range (H := exact_host) _ _ (ofZ 10) (ofZ 1)).
Defined.

End TypeValidatorMore.

(** ** TypeValidator: ports written in decimal digits *)

Module TypeValidatorDigits.
Import Types TypeValidator TypeValidatorFacts TrimFacts.

Lemma digit_range c : isDecimalDigit c = true → (48 ≤ c ≤ 57)%N.
Proof.
  unfold isDecimalDigit. intros [?%N.leb_le ?%N.leb_le]%andb_true_iff. lia.
Qed.

Lemma digits_radixPrefix ds :
  forallb isDecimalDigit ds = true → radixPrefix ds = None.
Proof.
  destruct ds as [|zero [|p ds]]; [done..|]. cbn [forallb radixPrefix].
  intros [_ [Hp%digit_range _]%andb_true_iff]%andb_true_iff.
  destruct (negb (zero =? 48)%N); [done|].
  destruct (N.eqb_spec p 120); [lia|]. destruct (N.eqb_spec p 88); [lia|].
  destruct (N.eqb_spec p 111); [lia|]. destruct (N.eqb_spec p 79); [lia|].
  destruct (N.eqb_spec p 98); [lia|]. by destruct (N.eqb_spec p 66); [lia|].
Qed.

Lemma span_digits ds :
  forallb isDecimalDigit ds = true → span isDecimalDigit ds = (ds, []).
Proof.
  induction ds as [|c ds IH]; [done|]. cbn [forallb span].
  intros [-> Hds]%andb_true_iff. by rewrite IH.
Qed.

Lemma Qred_integer z : Qred (inject_Z z * Qpower (10 # 1) 0) = inject_Z z.
Proof.
  unfold inject_Z. change (Qpower (10 # 1) 0) with (1 # 1)%Q.
  unfold Qmult. cbn [Qnum Qden]. rewrite Z.mul_1_r.
  change (1 * 1)%positive with 1%positive.
  unfold Qred.
  pose proof (Z.ggcd_gcd z 1) as Hgcd.
  pose proof (Z.ggcd_correct_divisors z 1) as Hdiv.
  destruct (Z.ggcd z 1) as [g [aa bb]]. cbn [fst snd] in *.
  rewrite Z.gcd_1_r in Hgcd. subst g. destruct Hdiv as [-> Hb].
  rewrite Z.mul_1_l in Hb. subst bb. by rewrite Z.mul_1_l.
Qed.

Lemma lt_ofZ a b : lt (ofZ a) (ofZ b) = (a <? b)%Z.
Proof.
  unfold lt, ofZ. destruct (Z.ltb_spec a b) as [Hlt|Hge].
  - apply negb_true_iff. destruct (Qle_bool _ _) eqn:Hle; [|done].
    apply Qle_bool_iff in Hle. rewrite <- Zle_Qle in Hle. lia.
  - apply negb_false_iff, Qle_bool_iff. rewrite <- Zle_Qle. lia.
Qed.

Section Validators.
Context {H : Host}.

(** The number that a string of decimal digits, white space around it or
    not, converts to. *)
Lemma StringToNumber_digits s ds :
  trim s = ds → ds ≠ [] → forallb isDecimalDigit ds = true →
  StringToNumber s = RoundMV (inject_Z (Z.of_N (digitsValue 10 ds))).
Proof.
  intros Hs Hne Hds. unfold StringToNumber. rewrite Hs.
  rewrite bool_decide_eq_false_2 by done.
  rewrite digits_radixPrefix by done.
  destruct ds as [|c ds']; [done|]. set (ds := c :: ds') in *.
  assert (48 ≤ c ≤ 57)%N as Hc.
  { apply digit_range. by apply andb_true_iff in Hds as [? _]. }
  unfold StrDecimalLiteral. unfold ds at 1.
  destruct (N.eqb_spec c 43); [lia|]. destruct (N.eqb_spec c 45); [lia|].
  rewrite bool_decide_eq_false_2.
  2:{ unfold ds. intros Heq. vm_compute in Heq. injection Heq as -> _. lia. }
  unfold StrUnsignedDecimalLiteral. rewrite span_digits by done.
  rewrite bool_decide_eq_false_2 by done. cbn [andb ExponentPart length].
  rewrite app_nil_r. change (0 - Z.of_nat 0)%Z with 0%Z.
  by rewrite Qred_integer.
Qed.

(** X14: a port written in decimal digits, with leading zeros and white
    space around it or not, is accepted exactly when its value is between 1
    and 65535, and the number returned is that value; the value is at most
    65536, the range in which the host is known to round exactly. *)
Theorem validatePort_digits `{!RoundsSmallIntegers H} s ds :
  trim s = ds → ds ≠ [] → forallb isDecimalDigit ds = true →
  (digitsValue 10 ds ≤ 65536)%N →
  validatePort (VString s) =
    if ((1 <=? digitsValue 10 ds) && (digitsValue 10 ds <=? 65535))%N
    then Ok (ofZ (Z.of_N (digitsValue 10 ds)))
    else Throw (js "Invalid port number: " ++ s).
Proof.
  intros Hs Hne Hds Hmax. unfold validatePort. cbn [Number String].
  rewrite (StringToNumber_digits s ds) by done.
  rewrite RoundMV_integer by lia. unfold gt. rewrite !lt_ofZ. cbn [isNaN orb].
  destruct (N.leb_spec 1 (digitsValue 10 ds)),
    (N.leb_spec (digitsValue 10 ds) 65535),
    (Z.ltb_spec (Z.of_N (digitsValue 10 ds)) 1),
    (Z.ltb_spec 65535 (Z.of_N (digitsValue 10 ds))); cbn [andb orb];
    (done || lia).
Qed.

End Validators.

Lemma validatePort_digits_witness :
  validatePort (H := exact_host) (VString (js " 0080 ")) = Ok (ofZ 80).
Proof.
  by apply (validatePort_digits (H := exact_host) (js " 0080 ") (js "0080")).
Defined.

End TypeValidatorDigits.

(** ** parseDotenvFile *)

Module ParseDotenvFileFacts.
Import EnvParser EnvParserFacts TrimFacts EnvParserMore ParseDotenvFile.

(** A piece of the split at line feeds, and the same piece without the
    carriage return that ends it. *)
Definition cr_stripped (l l' : list N) : Prop := l' = l ∨ l' = l ++ [13%N].

Lemma split_lines_nonempty s : split_lines s ≠ [].
Proof.
  induction s as [|c s IH]; [done|]. cbn [split_lines].
  destruct (c =? 10)%N; [done|].
  destruct ((c =? 13)%N && startsWith s LF); [done|].
  by destruct (split_lines s).
Qed.

Lemma split_lines_split s : Forall2 cr_stripped (split_lines s) (split s 10).
Proof.
  induction s as [|c s IH]; [repeat constructor|].
  cbn [split_lines split]. destruct (N.eqb_spec c 10) as [->|Hc].
  { constructor; [by left|done]. }
  destruct ((c =? 13)%N && startsWith s LF) eqn:Hcr.
  - apply andb_true_iff in Hcr as [->%N.eqb_eq [t ->]%startsWith_prefix].
    cbn [app LF split_lines split N.eqb Pos.eqb] in *.
    apply Forall2_cons in IH as [_ IH]. constructor; [by right|done].
  - pose proof (split_lines_nonempty s) as Hne.
    destruct IH as [|p p' ps ps' Hp Hps]; [done|].
    constructor; [|done]. destruct Hp as [-> | ->]; [by left|by right].
Qed.

Lemma cr_stripped_same l l' : cr_stripped l l' → same_trimmed l l'.
Proof.
  unfold same_trimmed. intros [-> | ->]; [done|].
  symmetry. apply (trim_blank_around [] l [13%N]); by repeat constructor.
Qed.

Lemma line_key_same l l' : same_trimmed l l' → line_key l = line_key l'.
Proof. unfold same_trimmed, line_key. by intros ->. Qed.

Lemma add_elem set key k : k ∈ add set key ↔ k ∈ set ∨ k = key.
Proof.
  unfold add. case_bool_decide as Hin.
  - split; [by left|]. by intros [?| ->].
  - rewrite elem_of_app, list_elem_of_singleton. done.
Qed.

Lemma keys_fold lines set k :
  k ∈ foldl (λ set line, match line_key line with
                         | Some key => add set key
                         | None => set
                         end) set lines ↔
  k ∈ set ∨ ∃ line, line ∈ lines ∧ line_key line = Some k.
Proof.
  revert set. induction lines as [|l lines IH]; intros set; cbn [foldl].
  - split; [by left|]. intros [?|(line & ?%not_elem_of_nil & _)]; done.
  - rewrite IH. destruct (line_key l) as [key|] eqn:Hl.
    + rewrite add_elem. split.
      * intros [[?| ->]|(line & Hin & Hline)]; [by left| |].
        -- right. exists l. split; [by left|done].
        -- right. exists line. split; [by right|done].
      * intros [?|(line & [->|Hin]%elem_of_cons & Hline)].
        -- left. by left.
        -- left. right. congruence.
        -- right. by exists line.
    + split.
      * intros [?|(line & Hin & Hline)]; [by left|].
        right. exists line. split; [by right|done].
      * intros [?|(line & [->|Hin]%elem_of_cons & Hline)];
          [by left|congruence|].
        right. by exists line.
Qed.

(** The keys of the file are those of its lines, whether a line ends with a
    carriage return or not. *)
Lemma envKeysFromFile_elem content k :
  k ∈ envKeysFromFile content ↔
  ∃ line, line ∈ split content 10 ∧ line_key line = Some k.
Proof.
  unfold envKeysFromFile. rewrite keys_fold.
  pose proof (split_lines_split content) as Hsplit. split.
  - intros [?%not_elem_of_nil|(line & Hin & Hline)]; [done|].
    apply list_elem_of_lookup in Hin as [i Hi].
    destruct (Forall2_lookup_l _ _ _ _ _ Hsplit Hi) as (line' & Hi' & Hcr).
    exists line'. split; [by eapply list_elem_of_lookup_2|].
    by rewrite <- (line_key_same line line') by by apply cr_stripped_same.
  - intros (line' & Hin & Hline). right.
    apply list_elem_of_lookup in Hin as [i Hi].
    destruct (Forall2_lookup_r _ _ _ _ _ Hsplit Hi) as (line & Hi' & Hcr).
    exists line. split; [by eapply list_elem_of_lookup_2|].
    by rewrite (line_key_same line line') by by apply cr_stripped_same.
Qed.

Lemma filtered_lookup envObject keys filteredEnv k :
  foldl (λ filteredEnv key,
           match Get envObject key with
           | Some value => setProperty filteredEnv key value
           | None => filteredEnv
           end) filteredEnv keys !! k =
    if bool_decide (k ∈ keys ∧ k ≠ js "__proto__" ∧ is_Some (Get envObject k))
    then Get envObject k else filteredEnv !! k.
Proof.
  revert filteredEnv.
  induction keys as [|key keys IH]; intros filteredEnv; cbn [foldl].
  { rewrite bool_decide_eq_false_2; [done|].
    by intros [?%not_elem_of_nil _]. }
  rewrite IH. case_bool_decide as Hk.
  - destruct Hk as (Hin & Hp & Hget).
    rewrite bool_decide_eq_true_2; [done|]. split_and!; [by right|done..].
  - destruct (Get envObject key) as [value|] eqn:Hget.
    + rewrite lookup_setProperty. case_bool_decide as Hkey.
      * destruct Hkey as [-> Hp].
        rewrite bool_decide_eq_true_2; [done|]. split_and!; [by left|done|].
        by rewrite Hget.
      * rewrite bool_decide_eq_false_2; [done|].
        intros ([->|Hin]%elem_of_cons & Hp & Hsome).
        -- by destruct Hkey.
        -- by destruct Hk.
    + rewrite bool_decide_eq_false_2; [done|].
      intros ([->|Hin]%elem_of_cons & Hp & Hsome).
      * rewrite Hget in Hsome. by destruct Hsome.
      * by destruct Hk.
Qed.

Lemma parseDotenvFile_content envObject envPath disk content k :
  disk !! envPath = Some content →
  (∃ line, line ∈ split content 10 ∧ line_key line = Some k) →
  k ≠ js "__proto__" →
  parseDotenvFile envObject envPath disk !! k = Get envObject k.
Proof.
  intros Hdisk Hline%envKeysFromFile_elem Hp. unfold parseDotenvFile.
  rewrite Hdisk, filtered_lookup, lookup_empty. case_bool_decide as Hk; [done|].
  destruct (Get envObject k) eqn:Hget; [|done]. destruct Hk.
  by split_and!.
Qed.

(** X15: the result of [parseDotenvFile] is the given object restricted to
    the keys named in the file: it has a value under a key exactly when the
    file exists, one of its lines names the key, reading the key in the
    object gives that value and not [undefined], and the key is not
    [__proto__].  The lines are those between line feeds; a carriage return
    before a line feed changes nothing. *)
Theorem parseDotenvFile_lookup envObject envPath disk key value :
  parseDotenvFile envObject envPath disk !! key = Some value ↔
  key ≠ js "__proto__" ∧ Get envObject key = Some value ∧
  ∃ content, disk !! envPath = Some content ∧
    ∃ line, line ∈ split content 10 ∧ line_key line = Some key.
Proof.
  unfold parseDotenvFile. destruct (disk !! envPath) as [content|] eqn:Hdisk.
  - rewrite filtered_lookup, lookup_empty. case_bool_decide as Hk.
    + destruct Hk as (Hin%envKeysFromFile_elem & Hp & Hget). split.
      * intros Hv. split_and!; [done..|]. by exists content.
      * by intros (_ & ? & _).
    + split; [done|]. intros (Hp & Hget & c & [= <-] & Hline).
      destruct Hk. split_and!; [by apply envKeysFromFile_elem|done|].
      by rewrite Hget.
  - rewrite lookup_empty. split; [done|]. by intros (_ & _ & c & ? & _).
Qed.

Lemma read_line_line_key l key value :
  read_line l = Some (key, value) → key ≠ [] → line_key l = Some key.
Proof.
  intros (k & v & Hl & Hk & Hc & -> & _)%read_line_Some Hne.
  unfold line_key. rewrite Hl in Hc |- *. rewrite Hc.
  rewrite bool_decide_eq_false_2 by (by destruct k).
  cbn [orb]. change (js "=" ++ v) with (61%N :: v).
  rewrite split_app by done. cbn [hd].
  rewrite bool_decide_eq_false_2; [done|]. by intros ->.
Qed.

(** X16: every key that [EnvParser.parse] reads in the file, the empty key
    apart, is a key of the file for [parseDotenvFile]: the result holds
    what reading that key in the given object gives. *)
Theorem parseDotenvFile_parsed_key envObject envPath disk content key value :
  disk !! envPath = Some content →
  parse content !! key = Some value →
  key ≠ [] →
  parseDotenvFile envObject envPath disk !! key = Get envObject key.
Proof.
  intros Hdisk Hparse Hne.
  change (parse content) with (parse_lines (split content 10) ∅) in Hparse.
  rewrite parse_lines_assignments in Hparse.
  assert (key ≠ js "__proto__") as Hproto.
  { intros ->. by rewrite assign_all_proto in Hparse. }
  rewrite assign_all_lookup in Hparse by done.
  destruct (last_assigned key (assignments (split content 10)))
    as [w|] eqn:Hlast; [|done].
  apply last_assigned_elem, assignments_from_line in Hlast
    as (l & v0 & Hl & Hr).
  apply (parseDotenvFile_content _ _ _ content); [done| |done].
  exists l. split; [done|]. by apply (read_line_line_key l key v0).
Qed.

(** X17: a line that holds a name and no [=] names a key for
    [parseDotenvFile], while [EnvParser.parse] reads no assignment in it. *)
Theorem parseDotenvFile_bare_name envObject envPath disk content line :
  disk !! envPath = Some content →
  line ∈ split content 10 →
  61%N ∉ trim line → trim line ≠ [] →
  startsWith (trim line) (js "#") = false → trim line ≠ js "__proto__" →
  parseDotenvFile envObject envPath disk !! trim line
    = Get envObject (trim line) ∧
  read_line line = None.
Proof.
  intros Hdisk Hline Heq Hne Hc Hp. split; [|by apply read_line_no_equals].
  apply (parseDotenvFile_content _ _ _ content); [done| |done].
  exists line. split; [done|]. unfold line_key. rewrite Hc.
  rewrite bool_decide_eq_false_2 by done. cbn [orb].
  rewrite split_no_sep by done. cbn [hd].
  rewrite bool_decide_eq_false_2 by done. by rewrite trim_idemp.
Qed.

Lemma parseDotenvFile_parsed_key_witness :
  let envObject :=
    {| own := {[js "PORT" := Some (js "3000")]}; inherited := [] |} in
  parseDotenvFile envObject (js ".env")
    {[js ".env" := js "PORT=8080" ++ [13%N; 10%N] ++ js "HOST=localhost"]}
    !! js "PORT" = Some (Text (js "3000")).
Proof.
  intros envObject.
  by rewrite (parseDotenvFile_parsed_key envObject (js ".env") _
                (js "PORT=8080" ++ [13%N; 10%N] ++ js "HOST=localhost")
                (js "PORT") (js "8080")).
Defined.

Lemma parseDotenvFile_bare_name_witness :
  let envObject :=
    {| own := {[js "PORT" := Some (js "3000")]};
       inherited := [js "toString"] |} in
  parseDotenvFile envObject (js ".env")
    {[js ".env" := js "PORT=8080" ++ LF ++ js " toString "]}
    !! js "toString" = Some (Inherited (js "toString")) ∧
  read_line (js " toString ") = None.
Proof.
  intros envObject.
  by apply (parseDotenvFile_bare_name envObject (js ".env") _
              (js "PORT=8080" ++ LF ++ js " toString ") (js " toString "));
    compute_done.
Defined.

End ParseDotenvFileFacts.

(** ** The command line: the template read by the parser *)

Module TemplateFacts.
Import Types EnvParser EnvParserFacts TrimFacts EnvParserMore.
Import FileManagerLines WrittenThenRead Template.





Lemma foldl_append {A} (text : A → list N) (content : list N) (l : list A) :
  foldl (λ content x, content ++ text x) content l = content ++ (l ≫= text).
Proof.
  revert content. induction l as [|x l IH]; intros content; cbn [foldl].
  - by rewrite app_nil_r.
  - by rewrite IH, bind_cons, app_assoc.
Qed.

(** *** Objects *)







Section Template.
Context {H : Host}.
Variable toUpperCase : list N → list N.
Variable inherited : list (list N).

(** *** The groups *)


(** *** The lines of the template *)








(** *** The template read by the parser *)





(** Upper-casing brings no line feed. *)
Hypothesis toUpperCase_lines : ∀ s, 10%N ∉ s → 10%N ∉ toUpperCase s.






End Template.





End TemplateFacts.

(** ** The command line: reading an environment file *)

Module CLIFacts.
Import EnvParser EnvParserFacts FileManagerFacts TrimFacts EnvParserMore.
Import WrittenThenRead CLI.

(** A name of the command line's reader: a letter or an underscore, then
    letters, digits and underscores. *)
Definition identifier (key : list N) : Prop :=
  match key with
  | [] => False
  | c :: rest =>
      isNameStart c = true ∧ Forall (λ d, isNameChar d = true) rest
  end.

(** The text does not start with a character of the class. *)
Definition stops {A} (p : A → bool) (s : list A) : Prop :=
  match s with
  | [] => True
  | c :: _ => p c = false
  end.

Lemma star_greedy {R} p (k : list N → option R) run rest r :
  Forall (λ c, p c = true) run → stops p rest → k rest = Some r →
  star p k (run ++ rest) = Some r.
Proof.
  intros Hrun Hrest Hk. induction Hrun as [|c run Hc _ IH].
  - destruct rest as [|d rest]; [done|]. cbn [app star]. cbn in Hrest.
    by rewrite Hrest.
  - cbn [app star]. by rewrite Hc, IH.
Qed.

Lemma star_Some {R} p (k : list N → option R) s r :
  star p k s = Some r →
  ∃ run rest, s = run ++ rest ∧ Forall (λ c, p c = true) run ∧
              k rest = Some r.
Proof.
  induction s as [|c s IH]; cbn [star].
  - intros Hk. exists [], []. by split_and!.
  - destruct (p c) eqn:Hc; [|intros Hk; exists [], (c :: s); by split_and!].
    destruct (star p k s) as [r'|] eqn:Hs.
    + intros [= <-]. destruct (IH eq_refl) as (run & rest & -> & Hrun & Hk).
      exists (c :: run), rest. split_and!; [done| |done]. by constructor.
    + intros Hk. exists [], (c :: s). by split_and!.
Qed.

Lemma take_consumed {A} (consumed rest : list A) :
  take (length (consumed ++ rest) - length rest) (consumed ++ rest)
    = consumed.
Proof.
  rewrite length_app.
  replace (length consumed + length rest - length rest)
    with (length consumed) by lia.
  by rewrite take_app_length.
Qed.

Lemma name_char_not_space c :
  isNameChar c = true → isStrWhiteSpaceChar c = false ∧ c ≠ 61%N.
Proof.
  unfold isNameChar, isNameStart. intros Hc.
  assert ((48 ≤ c ≤ 57 ∨ 65 ≤ c ≤ 90 ∨ 97 ≤ c ≤ 122 ∨ c = 95)%N) as Hrange.
  { destruct (N.leb_spec 65 c), (N.leb_spec c 90), (N.leb_spec 97 c),
      (N.leb_spec c 122), (N.eqb_spec c 95), (N.leb_spec 48 c),
      (N.leb_spec c 57); simpl in Hc; try done; lia. }
  clear Hc. split; [|lia].
  unfold isStrWhiteSpaceChar, isWhiteSpace, isLineTerminator.
  repeat match goal with
         | |- context [(?a =? ?b)%N] => destruct (N.eqb_spec a b); [lia|]
         | |- context [(?a <=? ?b)%N] =>
             destruct (N.leb_spec a b); [try lia|try lia]
         end; done.
Qed.

Lemma space_not_name_char c :
  isStrWhiteSpaceChar c = true → isNameChar c = false.
Proof.
  intros Hc. destruct (isNameChar c) eqn:Hn; [|done].
  apply name_char_not_space in Hn as [Hn _]. congruence.
Qed.

Lemma name_start_char c : isNameStart c = true → isNameChar c = true.
Proof. unfold isNameChar. by intros ->. Qed.

Lemma isDot_single_line s :
  Forall (λ c, isDot c = true) s ↔ single_line s.
Proof.
  unfold single_line. apply Forall_proper; [|done]. intros c. unfold isDot.
  by destruct (isLineTerminator c).
Qed.

Lemma capture_rest {A} (key : A) v :
  Forall (λ c, isDot c = true) v →
  capture (star isDot) (λ value, at_end (key, value)) v = Some (key, v).
Proof.
  intros Hv. unfold capture.
  pose proof (star_greedy isDot
                (λ rest, at_end (key, take (length v - length rest) v) rest)
                v [] (key, v) Hv I) as Hgreedy.
  rewrite app_nil_r in Hgreedy. apply Hgreedy.
  cbn [length]. by rewrite Nat.sub_0_r, take_ge.
Qed.

(** The match of a text of the expected shape. *)
Lemma match_assignment_shape key w1 w2 v :
  identifier key → blank w1 → blank w2 → single_line v →
  stops isStrWhiteSpaceChar v →
  match_assignment (key ++ w1 ++ js "=" ++ w2 ++ v) = Some (key, v).
Proof.
  intros Hkey Hw1 Hw2 Hv%isDot_single_line Hstop.
  destruct key as [|c name]; [done|]. destruct Hkey as [Hc Hname].
  unfold match_assignment, capture at 1. cbn [app one]. rewrite Hc.
  change (js "=" ++ w2 ++ v) with (61%N :: w2 ++ v).
  set (text := c :: name ++ w1 ++ 61%N :: w2 ++ v).
  apply star_greedy; [done| |].
  { destruct Hw1 as [|d w1 Hd _]; [done|]. by apply space_not_name_char. }
  assert (take (length text - length (w1 ++ 61%N :: w2 ++ v)) text
          = c :: name) as ->.
  { unfold text. rewrite app_comm_cons. apply take_consumed. }
  apply star_greedy; [done|done|]. cbn [one N.eqb Pos.eqb].
  apply star_greedy; [done|done|]. by apply capture_rest.
Qed.

(** What a match tells of the text. *)
Lemma match_assignment_Some trimmed key value :
  match_assignment trimmed = Some (key, value) →
  ∃ w1 w2,
    trimmed = key ++ w1 ++ js "=" ++ w2 ++ value ∧
    identifier key ∧ blank w1 ∧ blank w2 ∧ single_line value ∧
    stops isStrWhiteSpaceChar value.
Proof.
  intros Hresult. pose proof Hresult as Hm.
  unfold match_assignment, capture in Hm.
  destruct trimmed as [|c s]; [done|]. cbn [one] in Hm.
  destruct (isNameStart c) eqn:Hc; [|done].
  apply star_Some in Hm as (name & r1 & -> & Hname & Hm).
  rewrite (app_comm_cons name r1 c), take_consumed in Hm.
  apply star_Some in Hm as (w1 & r2 & -> & Hw1 & Hm).
  destruct r2 as [|eq r2]; [done|]. cbn [one] in Hm.
  destruct (N.eqb_spec 61 eq) as [<-|]; [|done].
  apply star_Some in Hm as (w2 & r3 & -> & Hw2 & Hm).
  apply star_Some in Hm as (v & r4 & -> & Hv & Hm).
  unfold at_end in Hm. case_bool_decide as Hend; [subst r4|done]. clear Hm.
  rewrite app_nil_r in *.
  (* the same text, cut after the longest run of white space *)
  destruct (trimStart_split (w2 ++ v)) as (w & Hsplit & Hw).
  pose proof (trimStart_head (w2 ++ v)) as Hhead.
  assert (single_line (trimStart (w2 ++ v))) as Hline.
  { rewrite trimStart_blank by done.
    destruct (trimStart_split v) as (w' & Hv' & _).
    apply isDot_single_line. rewrite Hv' in Hv.
    by apply Forall_app in Hv as [_ ?]. }
  assert (identifier (c :: name)) as Hid by done.
  pose proof (match_assignment_shape (c :: name) w1 w
                (trimStart (w2 ++ v)) Hid Hw1 Hw Hline) as Hshape.
  rewrite <- Hsplit in Hshape.
  change (js "=" ++ w2 ++ v) with (61%N :: w2 ++ v) in Hshape.
  cbn [app] in Hshape. rewrite Hshape in Hresult.
  { injection Hresult as <- <-. exists w1, w. split_and!; try done.
    change (js "=" ++ w ++ trimStart (w2 ++ v))
      with (61%N :: w ++ trimStart (w2 ++ v)).
    cbn [app]. by rewrite <- Hsplit. }
  unfold stops. by destruct (trimStart (w2 ++ v)).
Qed.

Lemma name_start_not_hash c : isNameStart c = true → c ≠ 35%N.
Proof. intros Hc ->. done. Qed.

Lemma line_assignment_shape l key w1 w2 raw :
  trim l = key ++ w1 ++ js "=" ++ w2 ++ raw →
  identifier key → blank w1 → blank w2 → single_line raw →
  stops isStrWhiteSpaceChar raw →
  line_assignment l = Some (key, remove_quotes 0 (length raw) raw).
Proof.
  intros Hl Hkey Hw1 Hw2 Hraw Hstop. unfold line_assignment. rewrite Hl.
  rewrite match_assignment_shape by done.
  destruct key as [|c name]; [done|]. destruct Hkey as [Hc _].
  change (js "#") with [35%N]. cbn [app startsWith].
  rewrite bool_decide_eq_false_2 by done.
  apply name_start_not_hash in Hc.
  by destruct (N.eqb_spec 35 c) as [<-|].
Qed.

Lemma line_assignment_Some l key value :
  line_assignment l = Some (key, value) →
  ∃ w1 w2 raw,
    trim l = key ++ w1 ++ js "=" ++ w2 ++ raw ∧
    identifier key ∧ blank w1 ∧ blank w2 ∧ single_line raw ∧
    stops isStrWhiteSpaceChar raw ∧
    value = remove_quotes 0 (length raw) raw.
Proof.
  unfold line_assignment. destruct (_ || _); [done|].
  destruct (match_assignment (trim l)) as [[k raw]|] eqn:Hm; [|done].
  intros [= <- <-].
  apply match_assignment_Some in Hm as (w1 & w2 & ? & ? & ? & ? & ? & ?).
  exists w1, w2, raw. by split_and!.
Qed.

(** X19: the reader of the command line takes from a line, once trimmed, a
    name, white space, [=], white space, and a value that runs to the end
    of the line; the name is a letter or an underscore followed by letters,
    digits and underscores, the value holds no line terminator, and a quote
    at its start and one at its end are removed.  Any other line is
    ignored. *)
Theorem line_assignment_spec l key value :
  line_assignment l = Some (key, value) ↔
  ∃ w1 w2 raw,
    trim l = key ++ w1 ++ js "=" ++ w2 ++ raw ∧
    identifier key ∧ blank w1 ∧ blank w2 ∧ single_line raw ∧
    stops isStrWhiteSpaceChar raw ∧
    value = remove_quotes 0 (length raw) raw.
Proof.
  split; [apply line_assignment_Some|].
  intros (w1 & w2 & raw & Hl & Hkey & Hw1 & Hw2 & Hraw & Hstop & ->).
  by apply (line_assignment_shape l key w1 w2 raw).
Qed.

(** *** The two readers *)

Lemma remove_quotes_inner i (s : list N) b :
  remove_quotes (S i) (S i + length s + 1) (s ++ [b])
    = s ++ (if isQuote b then [] else [b]).
Proof.
  revert i. induction s as [|c s IH]; intros i; cbn [app remove_quotes length].
  - replace (S i =? S i + 0 + 1 - 1) with true
      by (symmetry; apply Nat.eqb_eq; lia).
    rewrite orb_true_r, andb_true_r. by destruct (isQuote b).
  - replace (S i =? S i + S (length s) + 1 - 1) with false
      by (symmetry; apply Nat.eqb_neq; lia).
    cbn [Nat.eqb orb]. rewrite andb_false_r.
    replace (S i + S (length s) + 1) with (S (S i) + length s + 1) by lia.
    by rewrite IH.
Qed.

Lemma remove_quotes_ends a (s : list N) b :
  remove_quotes 0 (length (a :: s ++ [b])) (a :: s ++ [b])
    = (if isQuote a then [] else [a]) ++ s
      ++ (if isQuote b then [] else [b]).
Proof.
  cbn [remove_quotes length Nat.eqb orb]. rewrite andb_true_r.
  rewrite length_app. cbn [length].
  replace (S (length s + 1)) with (1 + length s + 1) by lia.
  rewrite remove_quotes_inner. by destruct (isQuote a).
Qed.

Lemma remove_quotes_one a :
  remove_quotes 0 1 [a] = if isQuote a then [] else [a].
Proof. cbn. rewrite andb_true_r. by destruct (isQuote a). Qed.

(** A value without quote at its ends, and a value in quotes. *)
Definition bare (raw : list N) : Prop :=
  stops isQuote raw ∧ stops isQuote (reverse raw).

Definition enclosed (raw : list N) : Prop :=
  ∃ q s, isQuote q = true ∧ (raw = [q] ∨ raw = q :: s ++ [q]).

Lemma isQuote_spec q : isQuote q = true ↔ q = 34%N ∨ q = 39%N.
Proof.
  unfold isQuote. rewrite orb_true_iff, !N.eqb_eq. done.
Qed.

Lemma unquote_ends a (s : list N) b :
  unquote (a :: s ++ [b]) =
    if isQuote a && (a =? b)%N then s else a :: s ++ [b].
Proof.
  destruct (isQuote a && (a =? b)%N) eqn:Hq.
  - apply andb_true_iff in Hq as [Hq%isQuote_spec <-%N.eqb_eq].
    by apply unquote_quoted.
  - unfold unquote, DQUOTE, SQUOTE.
    assert (∀ q, endsWith (a :: s ++ [b]) [q] = (q =? b)%N) as Hend.
    { intros q. unfold endsWith.
      rewrite reverse_cons, reverse_app, reverse_singleton. cbn.
      by rewrite andb_true_r. }
    rewrite !Hend. cbn [startsWith]. rewrite !andb_true_r.
    apply andb_false_iff in Hq.
    destruct (N.eqb_spec 34 a), (N.eqb_spec 39 a), (N.eqb_spec 34 b),
      (N.eqb_spec 39 b); cbn [andb orb]; try done; subst;
      destruct Hq as [Hq|Hq]; by vm_compute in Hq.
Qed.

Lemma unquote_one a : unquote [a] = if isQuote a then [] else [a].
Proof.
  unfold isQuote.
  destruct (N.eqb_spec a 34) as [->|H34]; [done|].
  destruct (N.eqb_spec a 39) as [->|H39]; [done|].
  unfold unquote, DQUOTE, SQUOTE. cbn [startsWith].
  destruct (N.eqb_spec 34 a); [congruence|].
  by destruct (N.eqb_spec 39 a); [congruence|].
Qed.

(** Where the two values are the same. *)
Lemma remove_quotes_unquote raw :
  remove_quotes 0 (length raw) raw = unquote raw ↔ bare raw ∨ enclosed raw.
Proof.
  destruct raw as [|a raw]; [split; [by left|done]|].
  destruct (decide (raw = [])) as [->|Hne].
  - rewrite remove_quotes_one, unquote_one. split; [intros _|done].
    destruct (isQuote a) eqn:Ha; [right; exists a, []; by split; [|left]|].
    by left.
  - destruct (exists_last Hne) as (s & b & ->). clear Hne.
    rewrite remove_quotes_ends, unquote_ends.
    unfold bare, enclosed, stops.
    rewrite reverse_cons, reverse_app, reverse_singleton. cbn [app].
    destruct (isQuote a) eqn:Ha, (isQuote b) eqn:Hb; cbn [andb app].
    + destruct (N.eqb_spec a b) as [<-|Hab]; rewrite ?app_nil_r.
      * split; [intros _|done]. right. exists a, s. split; [done|by right].
      * split.
        -- intros Heq. apply (f_equal length) in Heq.
           cbn [length] in Heq. rewrite length_app in Heq. cbn in Heq. lia.
        -- intros [[? _]|(q & t & _ & [[= _ Hnil]|[= <- Hb']])]; [done| |].
           ++ by destruct s.
           ++ apply app_inj_tail in Hb' as [_ ?]. done.
    + destruct (N.eqb_spec a b) as [<-|Hab]; [congruence|]. split.
      * intros Heq. apply (f_equal length) in Heq.
        cbn [length] in Heq. rewrite !length_app in Heq. cbn in Heq. lia.
      * intros [[? _]|(q & t & Hq & [[= _ Hnil]|[= <- Hb']])]; [done| |].
        -- by destruct s.
        -- apply app_inj_tail in Hb' as [_ <-]. congruence.
    + rewrite app_nil_r. split.
      * intros Heq. apply (f_equal length) in Heq.
        cbn [length] in Heq. rewrite !length_app in Heq. cbn in Heq. lia.
      * intros [[_ ?]|(q & t & Hq & [[= _ Hnil]|[= <- Hb']])]; [done| |].
        -- by destruct s.
        -- congruence.
    + split; [intros _; by left|done].
Qed.

Lemma line_assignment_read_line_raw l key w1 w2 raw :
  trim l = key ++ w1 ++ js "=" ++ w2 ++ raw →
  identifier key → blank w1 → blank w2 →
  stops isStrWhiteSpaceChar raw →
  read_line l = Some (key, unquote raw) ∧ trimmed raw.
Proof.
  intros Hl Hkey Hw1 Hw2 Hstop.
  destruct key as [|c name]; [done|]. destruct Hkey as [Hc Hname].
  assert (Forall (λ d, isStrWhiteSpaceChar d = false ∧ d ≠ 61%N) (c :: name))
    as Hchars.
  { apply Forall_cons. split; [by apply name_char_not_space, name_start_char|].
    eapply Forall_impl; [exact Hname|]. apply name_char_not_space. }
  assert (trimmed (c :: name)) as Hkt.
  { split; [by apply Forall_cons in Hchars as [[? _] _]|].
    apply Forall_reverse in Hchars.
    destruct (reverse (c :: name)) as [|d t]; [done|].
    by apply Forall_cons in Hchars as [[? _] _]. }
  assert (trimmed raw) as Hrt.
  { split; [exact Hstop|]. destruct (decide (raw = [])) as [->|Hne]; [done|].
    destruct (exists_last Hne) as (s & b & ->).
    rewrite reverse_app, reverse_singleton. cbn [app].
    destruct (trim_trimmed l) as [_ Hlast]. rewrite Hl in Hlast.
    rewrite !app_assoc, reverse_app, reverse_singleton in Hlast.
    exact Hlast. }
  split; [|done].
  assert (trim ((c :: name) ++ w1) = c :: name) as Hname_read.
  { transitivity (trim (c :: name)); [|by apply trimmed_trim].
    apply (trim_blank_around [] (c :: name) w1); [constructor|done]. }
  assert (trim (w2 ++ raw) = raw) as Hvalue_read.
  { transitivity (trim raw); [|by apply trimmed_trim].
    rewrite <- (app_nil_r raw) at 1.
    apply (trim_blank_around w2 raw []); [done|constructor]. }
  rewrite (read_line_assign l ((c :: name) ++ w1) (w2 ++ raw)).
  - by rewrite Hname_read, Hvalue_read.
  - by rewrite Hl, <- app_assoc.
  - rewrite elem_of_app. intros [Hin|Hin].
    + rewrite Forall_forall in Hchars. by destruct (Hchars _ Hin).
    + unfold blank in Hw1. rewrite Forall_forall in Hw1.
      by apply Hw1 in Hin.
  - rewrite Hl. change (js "#") with [35%N]. cbn [app startsWith].
    apply name_start_not_hash in Hc.
    by destruct (N.eqb_spec 35 c) as [<-|].
Qed.

(** X20: a line that the reader of the command line accepts is read by
    [EnvParser.parse] with the same key; the values are the same exactly
    when the value written has no quote at its ends, or is enclosed in a
    pair of the same quotes, or is one quote: the command line removes a
    quote at either end, the parser only a pair. *)
Theorem line_assignment_read_line l key value :
  line_assignment l = Some (key, value) →
  ∃ raw,
    read_line l = Some (key, unquote raw) ∧
    value = remove_quotes 0 (length raw) raw ∧
    (value = unquote raw ↔ bare raw ∨ enclosed raw).
Proof.
  intros (w1 & w2 & raw & Hl & Hkey & Hw1 & Hw2 & Hraw & Hstop & ->)
    %line_assignment_Some.
  exists raw. split; [|by split; [|apply remove_quotes_unquote]].
  by apply (line_assignment_read_line_raw l key w1 w2 raw).
Qed.

Lemma line_assignment_read_line_witness :
  ∃ raw,
    read_line (js "PORT = 'a b") = Some (js "PORT", unquote raw) ∧
    js "a b" = remove_quotes 0 (length raw) raw ∧
    (js "a b" = unquote raw ↔ bare raw ∨ enclosed raw).
Proof.
  by apply (line_assignment_read_line (js "PORT = 'a b") (js "PORT")).
Defined.

(** *** The two readers on a file *)






End CLIFacts.
